(** * LLM-BESTCODE: the WebSocket streaming relay

    A shallow embedding of the relay variants of the repository
    (stream.js, finalserver.js, llm1.js and the gated llm3.js that is
    kept in the same file) and the properties of their decode loop,
    session validation, single-flight guard and cancellation.

    Conventions.  Text is [string]; one [ascii] stands for one character
    of the first 256 code points (the fixed notices of the servers are
    kept byte for byte).  The objects of the JavaScript runtime that the
    code calls but does not define ([JSON.parse], [decodeURIComponent],
    the MySQL pool) are fields of type classes, so every statement holds
    for whatever the runtime does; the examples run on a small runtime
    of their own.  A handler is a computation over its local variables
    that returns or throws; the first variant of llm1.js, whose
    handlers share the connection registry and overlap in time, is a
    transition system with one step per turn of the event loop. *)

From Stdlib Require Import ZArith Ascii String List Lia Bool.
From stdpp Require Import base option list strings gmap pretty.

Local Open Scope Z_scope.
Set Warnings "-register-all".

(** ** JavaScript strings *)

(** The white space removed by [String.prototype.trim], within the first
    256 code points: TAB, LF, VT, FF, CR, SPACE and NBSP. *)
Definition is_js_space (c : ascii) : bool :=
  match nat_of_ascii c with
  | 9%nat | 10%nat | 11%nat | 12%nat | 13%nat | 32%nat | 160%nat => true
  | _ => false
  end.

Fixpoint trimStart (s : string) : string :=
  match s with
  | EmptyString => EmptyString
  | String c s' => if is_js_space c then trimStart s' else s
  end.

Fixpoint trimEnd (s : string) : string :=
  match s with
  | EmptyString => EmptyString
  | String c s' =>
      match trimEnd s' with
      | EmptyString => if is_js_space c then EmptyString else String c EmptyString
      | t => String c t
      end
  end.

Definition trim (s : string) : string := trimEnd (trimStart s).

(** [s.split(sep)] for a one-character separator, as the first piece and
    the pieces after it: the array is never empty. *)
Fixpoint split_at (sep : ascii) (s : string) : string * list string :=
  match s with
  | EmptyString => (EmptyString, [])
  | String c s' =>
      let '(l, ls) := split_at sep s' in
      if Ascii.eqb c sep then (EmptyString, l :: ls) else (String c l, ls)
  end.

Definition split (sep : ascii) (s : string) : list string :=
  let '(l, ls) := split_at sep s in l :: ls.

(** [a.pop()]: the last element ([undefined] on an empty array) and the
    array that is left. *)
Definition pop {A : Type} (a : list A) : option A * list A :=
  (last a, removelast a).

(** [x || ""] for a string or [undefined]. *)
Definition or_empty (x : option string) : string :=
  match x with
  | Some s => s
  | None => EmptyString
  end.

Definition startsWith (s p : string) : bool := String.prefix p s.

Fixpoint includes (s pat : string) : bool :=
  String.prefix pat s ||
  match s with
  | EmptyString => false
  | String _ s' => includes s' pat
  end.

(** [s.indexOf(c)] for a one-character needle; -1 when absent. *)
Fixpoint indexOf (s : string) (c : ascii) : Z :=
  match s with
  | EmptyString => -1
  | String d s' =>
      if Ascii.eqb d c then 0
      else let i := indexOf s' c in if i <? 0 then -1 else i + 1
  end.

Fixpoint str_drop (n : nat) (s : string) : string :=
  match n, s with
  | O, _ => s
  | S n', String _ s' => str_drop n' s'
  | S _, EmptyString => EmptyString
  end.

Fixpoint str_take (n : nat) (s : string) : string :=
  match n, s with
  | S n', String c s' => String c (str_take n' s')
  | _, _ => EmptyString
  end.

(** [s.substring(a)] and [s.substring(0, b)]; a negative bound counts
    as 0. *)
Definition substring_from (a : Z) (s : string) : string := str_drop (Z.to_nat a) s.
Definition substring_to (b : Z) (s : string) : string := str_take (Z.to_nat b) s.

(** [toLowerCase] on the first 256 code points: A-Z and the accented
    capitals 192-222 (but the multiplication sign 215) move up by 32. *)
Definition lower_char (c : ascii) : ascii :=
  let n := nat_of_ascii c in
  if ((65 <=? n)%nat && (n <=? 90)%nat)
     || ((192 <=? n)%nat && (n <=? 222)%nat && negb (n =? 215)%nat)
  then ascii_of_nat (n + 32)
  else c.

Fixpoint toLowerCase (s : string) : string :=
  match s with
  | EmptyString => EmptyString
  | String c s' => String (lower_char c) (toLowerCase s')
  end.

Fixpoint str_concat (l : list string) : string :=
  match l with
  | [] => EmptyString
  | s :: l' => s +:+ str_concat l'
  end.

Definition str_is_empty (s : string) : bool :=
  match s with
  | EmptyString => true
  | String _ _ => false
  end.

(** ** Numbers *)

(** The Number value of an integer literal: the double nearest to it,
    ties to the even mantissa; integers up to 2^53 are their own
    value.  [None] is Infinity. *)
Definition nearest_double (n : Z) : option Z :=
  let b := Z.log2 n in
  if b <=? 52 then Some n
  else
    let e := b - 52 in
    let m := Z.shiftr n e in
    let r := n - Z.shiftl m e in
    let half := Z.shiftl 1 (e - 1) in
    let m' := if (half <? r) || ((r =? half) && Z.odd m) then m + 1 else m in
    let v := Z.shiftl m' e in
    if Z.shiftl 1 1024 <=? v then None else Some v.

(** Whether the decimal [c] reads back as the double [v]: it lies
    within half a gap of [v], the ends included when the mantissa of
    [v] is even. *)
Definition reads_back_as (v c : Z) : bool :=
  let e := Z.log2 v - 52 in
  let m := Z.shiftr v e in
  let gap_up := Z.shiftl 1 e in
  let gap_down := if m =? Z.shiftl 1 52 then Z.shiftl 1 (e - 1) else gap_up in
  if Z.even m
  then (2 * v - gap_down <=? 2 * c) && (2 * c <=? 2 * v + gap_up)
  else (2 * v - gap_down <? 2 * c) && (2 * c <? 2 * v + gap_up).

(** The digits [s] of Number::toString for the exponent [j], if [v]
    has digits with that many zeros after them: of the two multiples of
    10^j around [v], the one that reads back as [v] and is nearer to
    it, the even one on a tie. *)
Definition digits_at (v : Z) (j : nat) : option Z :=
  let p := 10 ^ Z.of_nat j in
  let lo := v / p in
  let hi := lo + 1 in
  let ok_lo := (0 <? lo) && reads_back_as v (lo * p) in
  let ok_hi := reads_back_as v (hi * p) in
  if ok_lo && ok_hi
  then
    (if v - lo * p <? hi * p - v then Some lo
     else if hi * p - v <? v - lo * p then Some hi
     else if Z.even lo then Some lo else Some hi)
  else if ok_lo then Some lo
  else if ok_hi then Some hi
  else None.

(** The fewest digits that read back as [v]: the largest exponent that
    has some. *)
Fixpoint shortest_digits (v : Z) (j : nat) : Z * nat :=
  match digits_at v j with
  | Some s => (s, j)
  | None =>
      match j with
      | O => (v, O)
      | S j' => shortest_digits v j'
      end
  end.

Fixpoint zeros (n : nat) : string :=
  match n with
  | O => EmptyString
  | S n' => String "0"%char (zeros n')
  end.

(** Number::toString for a positive integral double above 2^53. *)
Definition large_to_string (v : Z) : string :=
  let '(s, j) := shortest_digits v (String.length (pretty v)) in
  let digits := pretty s in
  let k := String.length digits in
  if (k + j <=? 21)%nat then digits +:+ zeros j
  else
    match digits with
    | String d rest =>
        String d (match rest with
                  | EmptyString => EmptyString
                  | _ => String "." rest
                  end) +:+ "e+" +:+ pretty (Z.of_nat (k + j - 1))
    | EmptyString => EmptyString
    end.

(** ToString of the Number value of the integer literal [n]. *)
Definition Number_toString (n : Z) : string :=
  let a := Z.abs n in
  let sign := if n <? 0 then "-" else EmptyString in
  match nearest_double a with
  | None => sign +:+ "Infinity"
  | Some v =>
      if v <=? Z.shiftl 1 53 then sign +:+ pretty v
      else sign +:+ large_to_string v
  end.

(** ** JavaScript values, as far as [JSON.parse] produces them *)

(** Numbers are the integral ones: [JNum n] is the Number value of the
    integer literal [n].  [JUndef] is what reading a missing property
    gives. *)
Inductive jsval : Type :=
  | JUndef
  | JNull
  | JBool (b : bool)
  | JNum (n : Z)
  | JStr (s : string)
  | JArr (items : list jsval)
  | JObj (fields : list (string * jsval)).

(** ToBoolean. *)
Definition truthy (v : jsval) : bool :=
  match v with
  | JUndef | JNull => false
  | JBool b => b
  | JNum n => negb (n =? 0)
  | JStr s => negb (str_is_empty s)
  | JArr _ | JObj _ => true
  end.

Fixpoint join_comma (l : list string) : string :=
  match l with
  | [] => EmptyString
  | [s] => s
  | s :: l' => s +:+ "," +:+ join_comma l'
  end.

Fixpoint assoc (k : string) (fields : list (string * jsval)) : option jsval :=
  match fields with
  | [] => None
  | (k', v) :: rest => if String.eqb k k' then Some v else assoc k rest
  end.

Fixpoint all_some {A : Type} (l : list (option A)) : option (list A) :=
  match l with
  | [] => Some []
  | Some a :: l' =>
      match all_some l' with
      | Some r => Some (a :: r)
      | None => None
      end
  | None :: _ => None
  end.

(** ToString, as [+=] on a string and a template literal apply it.
    [None] is the TypeError for a value that cannot be converted to a
    primitive: an object of [JSON.parse] whose own [toString] property
    hides the method, alone or as an element of an array. *)
Fixpoint js_to_string (v : jsval) : option string :=
  match v with
  | JUndef => Some "undefined"
  | JNull => Some "null"
  | JBool true => Some "true"
  | JBool false => Some "false"
  | JNum n => Some (Number_toString n)
  | JStr s => Some s
  | JArr items =>
      match all_some
              (map (fun e => match e with
                             | JUndef | JNull => Some EmptyString
                             | _ => js_to_string e
                             end) items) with
      | Some texts => Some (join_comma texts)
      | None => None
      end
  | JObj fields =>
      match assoc "toString" fields with
      | Some _ => None
      | None => Some "[object Object]"
      end
  end.

(** The text of a value that has one. *)
Definition text_of (v : jsval) : string :=
  match js_to_string v with
  | Some t => t
  | None => EmptyString
  end.


(** [o.k] for an object with the own properties [fields]. *)
Definition field (k : string) (fields : list (string * jsval)) : jsval :=
  match assoc k fields with
  | Some x => x
  | None => JUndef
  end.

(** An [Error] object: its [name] and its [message]. *)
Record js_error : Type := JsError { err_name : string; err_message : string }.

Definition TypeError (m : string) : js_error := JsError "TypeError" m.
Definition SyntaxError (m : string) : js_error := JsError "SyntaxError" m.
Definition URIError (m : string) : js_error := JsError "URIError" m.
Definition Error (m : string) : js_error := JsError "Error" m.

(** What the code takes from the runtime.  [None] is the exception the
    function throws on a malformed argument. *)
Class JsRuntime : Type := {
  JSON_parse : string -> option jsval;
  decodeURIComponent : string -> option string
}.

(** ** Exceptions, local state and loops *)

(** A computation over the local variables [S] of a handler either
    returns or throws; what it did to the state before throwing stays
    done. *)
Inductive result (A : Type) : Type :=
  | Ok (a : A)
  | Throw (e : js_error).
Arguments Ok {A} a.
Arguments Throw {A} e.

Definition M (S A : Type) : Type := S -> result A * S.

Definition ret {S A : Type} (a : A) : M S A := fun s => (Ok a, s).

Definition bind {S A B : Type} (c : M S A) (k : A -> M S B) : M S B :=
  fun s =>
    match c s with
    | (Ok a, s') => k a s'
    | (Throw e, s') => (Throw e, s')
    end.

Definition throw {S A : Type} (e : js_error) : M S A := fun s => (Throw e, s).

Definition gets {S A : Type} (f : S -> A) : M S A := fun s => (Ok (f s), s).

Definition modify {S : Type} (f : S -> S) : M S unit := fun s => (Ok tt, f s).

(** [try { body } catch (e) { handler e }]. *)
Definition try_catch {S A : Type} (body : M S A) (handler : js_error -> M S A) : M S A :=
  fun s =>
    match body s with
    | (Ok a, s') => (Ok a, s')
    | (Throw e, s') => handler e s'
    end.

(** [try { body } finally { fin }]: [fin] runs on both exits. *)
Definition try_finally {S A : Type} (body : M S A) (fin : M S unit) : M S A :=
  fun s =>
    match body s with
    | (r, s') =>
        match fin s' with
        | (Ok _, s'') => (r, s'')
        | (Throw e, s'') => (Throw e, s'')
        end
    end.

(** A built-in that throws on [None]. *)
Definition or_throw {S A : Type} (e : js_error) (x : option A) : M S A :=
  match x with
  | Some a => ret a
  | None => throw e
  end.

Declare Scope js_scope.
Delimit Scope js_scope with js.
Notation "x <- c ;; k" := (bind c (fun x => k))
  (at level 100, c at next level, right associativity) : js_scope.
Notation "c ;;; k" := (bind c (fun _ => k))
  (at level 100, right associativity) : js_scope.
Local Open Scope js_scope.

(** What a loop body tells its [for ... of]: go on ([continue], or the
    end of the body) or [break]. *)
Inductive ctl : Type := Next | Break.

Fixpoint for_of {S A : Type} (body : A -> M S ctl) (l : list A) : M S unit :=
  match l with
  | [] => ret tt
  | x :: l' =>
      c <- body x ;;
      match c with
      | Next => for_of body l'
      | Break => ret tt
      end
  end.

(** [v.k]: a property read throws on [null] and [undefined]; on an
    object it is the field or [undefined]; other values have none of the
    properties the relay reads. *)
Definition js_get {S : Type} (v : jsval) (k : string) : M S jsval :=
  match v with
  | JUndef | JNull => throw (TypeError "Cannot read properties of null")
  | JObj fields => ret (field k fields)
  | _ => ret JUndef
  end.

Definition when {S : Type} (b : bool) (c : M S unit) : M S unit :=
  if b then c else ret tt.

(** ** The upstream generation call *)

(** The body of the request that the relay posts to [/api/generate]. *)
Record gen_request : Type := GenRequest {
  req_prompt : string;
  req_system : option string
}.

(** A response body is read chunk by chunk until the reader reports
    [done] ([None]) or a read rejects ([Some e]). *)
Record body_stream : Type := BodyStream {
  chunks : list string;
  ending : option js_error
}.

Record response : Type := Response {
  status : nat;
  statusText : string;
  body : option body_stream
}.

Definition ok (r : response) : bool := ((200 <=? status r) && (status r <=? 299))%nat.

(** [await fetch(...)] resolves to a response or rejects. *)
Inductive fetch_outcome : Type :=
  | FetchRejects (e : js_error)
  | FetchResolves (r : response).

Definition upstream : Type := gen_request -> fetch_outcome.

(** ** stream.js and finalserver.js: structured framing *)

(** [JSON.stringify({type, content})] as sent on the socket;
    [filtered] is the extra field of the filter message. *)
Inductive envelope : Type :=
  | EnvStream (content : jsval)
  | EnvComplete (content : string) (filtered : bool)
  | EnvError (content : string).

(** What a handler does that can be seen from outside. *)
Inductive obs : Type :=
  | CallUpstream (rq : gen_request)
  | WsSend (e : envelope).

Record relay_state : Type := RelayState {
  buffer : string;
  fullResponse : string;
  trace : list obs
}.

Definition initial_relay_state : relay_state := RelayState "" "" [].

Definition ws_send (e : envelope) : M relay_state unit :=
  modify (fun s => RelayState (buffer s) (fullResponse s) (trace s ++ [WsSend e])).

Definition set_buffer (b : string) : M relay_state unit :=
  modify (fun s => RelayState b (fullResponse s) (trace s)).

Definition set_fullResponse (f : string) : M relay_state unit :=
  modify (fun s => RelayState (buffer s) f (trace s)).

Definition fetch (up : upstream) (rq : gen_request) : M relay_state response :=
  fun s =>
    let s' := RelayState (buffer s) (fullResponse s) (trace s ++ [CallUpstream rq]) in
    match up rq with
    | FetchRejects e => (Throw e, s')
    | FetchResolves r => (Ok r, s')
    end.

Section StreamRelay.
Context `{JsRuntime}.

(** stream.js 121-145 (finalserver.js 1429-1453): the body of
    [for (const line of lines)]. *)
Definition line_body (line : string) : M relay_state ctl :=
  if str_is_empty (trim line) then ret Next
  else
    try_catch
      (json <- or_throw (SyntaxError "Unexpected token") (JSON_parse line) ;;
       r <- js_get json "response" ;;
       when (truthy r)
         (f <- gets fullResponse ;;
          t <- or_throw (TypeError "Cannot convert object to primitive value")
                 (js_to_string r) ;;
          set_fullResponse (f +:+ t) ;;;
          ws_send (EnvStream r)) ;;;
       d <- js_get json "done" ;;
       if truthy d
       then (f <- gets fullResponse ;;
             ws_send (EnvComplete f false) ;;;
             ret Break)
       else ret Next)
      (fun _ => ret Next).

(** stream.js 115-145: what one resolved read does. *)
Definition on_chunk (chunk : string) : M relay_state unit :=
  b <- gets buffer ;;
  let '(last_line, lines) := pop (split "010" (b +:+ chunk)) in
  set_buffer (or_empty last_line) ;;;
  for_of line_body lines.

(** stream.js 110-146: [while (true)] over the reads of the body. *)
Fixpoint read_loop (cs : list string) (e : option js_error) : M relay_state unit :=
  match cs with
  | [] =>
      match e with
      | None => ret tt
      | Some err => throw err
      end
  | chunk :: cs' => on_chunk chunk ;;; read_loop cs' e
  end.

(** stream.js 95-146: from the resolved [fetch] on. *)
Definition relay_response (r : response) : M relay_state unit :=
  if negb (ok r)
  then ws_send (EnvError ("Ollama responded with status " +:+ pretty (status r)))
  else
    match body r with
    | None => ws_send (EnvError "No response body from Ollama")
    | Some b =>
        set_buffer "" ;;;
        set_fullResponse "" ;;;
        read_loop (chunks b) (ending b)
    end.

(** stream.js 77-155: the [message] handler.  [cookie] is the Cookie
    header of the handshake request the handler closes over. *)
Definition stream_on_message (cookie : option string) (up : upstream)
    (input : string) : M relay_state unit :=
  let prompt := trim input in
  try_catch
    (r <- fetch up (GenRequest prompt None) ;;
     relay_response r)
    (fun error => ws_send (EnvError (err_message error))).

End StreamRelay.

(** ** finalserver.js: the topic filter *)

(** finalserver.js 1231-1309. *)
Definition CODING_KEYWORDS : list string := [
  "code"; "function"; "variable"; "constant"; "parameter"; "argument";
  "return"; "loop"; "for"; "while"; "do while"; "foreach"; "iteration";
  "break"; "continue"; "conditional"; "if"; "else"; "switch"; "case";
  "ternary"; "operator"; "data structure"; "algorithm"; "dsa"; "array";
  "list"; "string"; "tuple"; "linked list"; "doubly linked list";
  "circular linked list"; "stack"; "queue"; "deque"; "heap";
  "priority queue"; "tree"; "binary tree"; "binary search tree"; "bst";
  "avl tree"; "red black tree"; "b tree"; "trie"; "graph";
  "directed graph"; "undirected graph"; "dag"; "hash"; "hash table";
  "hash map"; "dictionary"; "set"; "matrix"; "grid"; "program"; "hey";
  "hello"; "hi"; "sort"; "bubble sort"; "selection sort"; "insertion sort";
  "merge sort"; "quick sort"; "heap sort"; "counting sort"; "radix sort";
  "bucket sort"; "search"; "linear search"; "binary search";
  "depth first search"; "dfs"; "breadth first search"; "bfs"; "dijkstra";
  "bellman ford"; "floyd warshall"; "kruskal"; "prim"; "topological sort";
  "dynamic programming"; "dp"; "greedy"; "backtracking";
  "divide and conquer"; "recursion"; "memoization"; "optimization";
  "complexity"; "Big O"; "space complexity"; "time complexity";
  "asymptotic"; "amortized"; "python"; "javascript"; "java"; "cpp"; "c++";
  "c"; "csharp"; "c#"; "rust"; "go"; "golang"; "ruby"; "php"; "swift";
  "kotlin"; "typescript"; "scala"; "groovy"; "perl"; "r"; "matlab"; "lua";
  "haskell"; "erlang"; "clojure"; "class"; "object"; "instance";
  "inheritance"; "polymorphism"; "encapsulation"; "abstraction";
  "interface"; "abstract"; "method"; "property"; "attribute";
  "constructor"; "destructor"; "getter"; "setter"; "static"; "final";
  "access modifier"; "public"; "private"; "protected"; "friend"; "virtual";
  "override"; "super"; "functional"; "lambda"; "arrow function";
  "callback"; "promise"; "async"; "await"; "generator"; "iterator"; "map";
  "filter"; "reduce"; "fold"; "pure function"; "side effect"; "immutable";
  "immutability"; "closure"; "debug"; "breakpoint"; "debugger"; "console";
  "log"; "error"; "exception"; "try catch"; "finally"; "throw";
  "stack trace"; "assertion"; "unit test"; "integration test"; "testing";
  "mock"; "stub"; "patch"; "coverage"; "syntax"; "logic"; "compile";
  "compiler"; "interpreter"; "bytecode"; "ast"; "parsing"; "lexing";
  "token"; "literal"; "identifier"; "keyword"; "semicolon"; "bracket";
  "brace"; "syntax error"; "runtime error"; "html"; "css"; "dom"; "api";
  "rest"; "restful"; "http"; "https"; "json"; "xml"; "yaml"; "fetch";
  "ajax"; "websocket"; "framework"; "library"; "react"; "vue"; "angular";
  "node"; "nodejs"; "express"; "flask"; "django"; "bootstrap"; "tailwind";
  "webpack"; "babel"; "npm"; "yarn"; "pip"; "maven"; "database"; "sql";
  "mysql"; "postgresql"; "mongodb"; "redis"; "nosql"; "query"; "select";
  "insert"; "update"; "delete"; "join"; "index"; "primary key";
  "foreign key"; "transaction"; "orm"; "normalization"; "git"; "github";
  "gitlab"; "bitbucket"; "commit"; "push"; "pull"; "merge"; "branch";
  "fork"; "clone"; "rebase"; "stash"; "diff"; "conflict"; "docker";
  "kubernetes"; "container"; "ci"; "cd"; "jenkins"; "deployment";
  "production"; "staging"; "environment"; "server"; "client"; "cloud";
  "aws"; "azure"; "gcp"; "heroku"; "lambda"; "leetcode"; "hackerrank";
  "codeforces"; "codewars"; "geeksforgeeks"; "stack overflow"; "github";
  "codepen"; "replit"; "design pattern"; "solid"; "dry"; "kiss"; "yagni";
  "refactor"; "refactoring"; "code review"; "documentation"; "comment";
  "clean code"; "best practice"; "convention"; "style guide"; "linter";
  "formatter"; "prettier"; "eslint"
].

(** finalserver.js 1311. *)
Definition POLITE_FILTER_MESSAGE : string :=
  "I appreciate your question! However, I'm specifically designed to help with coding and Data Structures & Algorithms (DSA) topics. Could you please ask me something related to programming, algorithms, or data structures? I'd be happy to help! 😊".

(** finalserver.js 1314-1317. *)
Definition isCodeRelated (prompt : string) : bool :=
  let lowerPrompt := toLowerCase prompt in
  existsb (fun keyword => includes lowerPrompt keyword) CODING_KEYWORDS.

Definition systemPrompt : string :=
  "You are a helpful coding assistant. You will answer any coding and DSA (Data Structures and Algorithms) related questions..".

Section FilteredRelay.
Context `{JsRuntime}.

(** finalserver.js 1370-1463: the [message] handler of the filtered
    variant; its decode loop is the one of stream.js, line for line. *)
Definition final_on_message (cookie : option string) (up : upstream)
    (input : string) : M relay_state unit :=
  let prompt := trim input in
  if negb (isCodeRelated prompt)
  then ws_send (EnvComplete POLITE_FILTER_MESSAGE true)
  else
    try_catch
      (let fullPrompt := systemPrompt +:+ String "010" (String "010" "User: ") +:+ prompt in
       r <- fetch up (GenRequest fullPrompt None) ;;
       relay_response r)
      (fun error => ws_send (EnvError (err_message error))).

End FilteredRelay.

(** The envelopes a handler sent, and the upstream calls it made. *)
Definition sent_of (t : list obs) : list envelope :=
  omap (fun o => match o with WsSend e => Some e | CallUpstream _ => None end) t.

Definition calls_of (t : list obs) : list gen_request :=
  omap (fun o => match o with CallUpstream rq => Some rq | WsSend _ => None end) t.

(** A handler run from fresh local variables: what it did. *)
Definition run_handler (h : M relay_state unit) : list obs :=
  trace (snd (h initial_relay_state)).

(** ** Session validation *)

(** A row of [SELECT id, full_name FROM users] (stream.js 49,
    finalserver.js 1342). *)
Record user_row : Type := UserRow { user_id : Z; full_name : string }.

(** A row of [SELECT id, full_name, email, avatar_url FROM users]
    (llm1.js 271-274). *)
Record user_profile : Type := UserProfile {
  profile_id : Z;
  profile_full_name : string;
  profile_email : string;
  profile_avatar_url : option string
}.

(** [pool.execute] on the two tables: the rows, or the rejection of the
    query (store unreachable, SQL error). *)
Class SessionStore : Type := {
  select_session_data : string -> js_error + list string;
  select_user : jsval -> js_error + list user_row;
  select_user_profile : jsval -> js_error + list user_profile;
  select_sessions_debug : js_error + unit
}.

Definition query {S A : Type} (q : js_error + A) : M S A :=
  match q with
  | inl e => throw e
  | inr a => ret a
  end.

Fixpoint until_semicolon (s : string) : string :=
  match s with
  | EmptyString => EmptyString
  | String c s' => if Ascii.eqb c ";" then EmptyString else String c (until_semicolon s')
  end.

(** [cookieHeader.match(/sessionId=([^;]+)/)]: the capture group of the
    leftmost match, or [None] for [null]. *)
Fixpoint match_sessionId (s : string) : option string :=
  match s with
  | EmptyString => None
  | String _ s' =>
      if startsWith s "sessionId="
      then
        let v := until_semicolon (str_drop 10 s) in
        if str_is_empty v then match_sessionId s' else Some v
      else match_sessionId s'
  end.

Section SessionValidation.
Context `{JsRuntime} `{SessionStore}.

(** The clean-up of the cookie value, common to every copy of
    [validateUserSession] (stream.js 39-43). *)
Definition clean_sessionId {S : Type} (sessionId : string) : M S string :=
  let sessionId := if startsWith sessionId "s:" then substring_from 2 sessionId else sessionId in
  sessionId <-
    (if startsWith sessionId "s%3A"
     then d <- or_throw (URIError "URI malformed") (decodeURIComponent sessionId) ;;
          ret (substring_from 2 d)
     else ret sessionId) ;;
  let dotIndex := indexOf sessionId "." in
  ret (if dotIndex >? -1 then substring_to dotIndex sessionId else sessionId).

(** stream.js 34-55 (finalserver.js 1327-1348). *)
Definition validateUserSession {S : Type} (cookieHeader : option string) : M S (option user_row) :=
  try_catch
    (match cookieHeader with
     | None => ret None
     | Some h =>
         if str_is_empty h then ret None
         else
           match match_sessionId h with
           | None => ret None
           | Some captured =>
               sessionId <- clean_sessionId captured ;;
               rows <- query (select_session_data sessionId) ;;
               match rows with
               | [] => ret None
               | data :: _ =>
                   sessionData <- or_throw (SyntaxError "Unexpected token") (JSON_parse data) ;;
                   userId <- js_get sessionData "userId" ;;
                   if negb (truthy userId) then ret None
                   else
                     users <- query (select_user userId) ;;
                     ret (match users with
                          | u :: _ => Some u
                          | [] => None
                          end)
               end
           end
     end)
    (fun error => ret None).

(** llm1.js 198-289: the copy of the gated variant, with its logging
    queries and its own [try] around [JSON.parse]. *)
Definition validateUserSession_gated {S : Type} (cookieHeader : option string) : M S (option user_profile) :=
  try_catch
    (match cookieHeader with
     | None => ret None
     | Some h =>
         if str_is_empty h then ret None
         else
           match match_sessionId h with
           | None => ret None
           | Some captured =>
               sessionId <- clean_sessionId captured ;;
               rows <- query (select_session_data sessionId) ;;
               match rows with
               | [] =>
                   try_catch (query select_sessions_debug) (fun e => ret tt) ;;;
                   ret None
               | data :: _ =>
                   parsed <- try_catch
                               (sessionData <- or_throw (SyntaxError "Unexpected token") (JSON_parse data) ;;
                                ret (Some sessionData))
                               (fun parseError => ret None) ;;
                   match parsed with
                   | None => ret None
                   | Some sessionData =>
                       userId <- js_get sessionData "userId" ;;
                       if negb (truthy userId) then ret None
                       else
                         users <- query (select_user_profile userId) ;;
                         ret (match users with
                              | u :: _ => Some u
                              | [] => None
                              end)
                   end
               end
           end
     end)
    (fun error => ret None).

End SessionValidation.

(** ** llm1.js, gated variant: handshake and decode loop *)

Inductive ready_state : Type := CONNECTING | OPEN | CLOSING | CLOSED.

Definition is_open (r : ready_state) : bool :=
  match r with
  | OPEN => true
  | _ => false
  end.

(** What the server does to the socket: [socket.send(v)] with the value
    handed over, and [ws.close(code, reason)]. *)
Inductive ws_action : Type :=
  | Sent (v : jsval)
  | Closed (code : nat) (reason : string).

Record gated_state : Type := GatedState {
  g_readyState : ready_state;
  g_buffer : string;
  g_fullResponse : string;
  g_actions : list ws_action
}.

(** llm1.js 292-303. *)
Definition safeSend (data : jsval) : M gated_state bool :=
  fun s =>
    if is_open (g_readyState s)
    then (Ok true,
          GatedState (g_readyState s) (g_buffer s) (g_fullResponse s)
            (g_actions s ++ [Sent data]))
    else (Ok false, s).

(** [ws.close(code, reason)] starts the closing handshake. *)
Definition ws_close (code : nat) (reason : string) : M gated_state unit :=
  modify (fun s =>
    GatedState CLOSING (g_buffer s) (g_fullResponse s)
      (g_actions s ++ [Closed code reason])).

(** The notices of the gated variant (llm1.js 554, 557, 563, 680, 687). *)
Definition greeting (u : user_profile) : string :=
  "Hi " +:+ profile_full_name u +:+ "! I'm Smart Starify 🤖" +:+
  String "010" "How can I help you code today?" +:+ String "010" (String "010" "").

Definition LOGIN_NOTICE : string :=
  "🔐 Please login to Smart Code Hub first, then try connecting again." +:+ String "010" "".

Definition AUTH_UNAVAILABLE : string :=
  "⚠️ Authentication service temporarily unavailable. Please try again." +:+ String "010" "".

Definition RESPONSE_COMPLETE : string :=
  String "010" (String "010" "---") +:+ String "010" "*Response complete* ✅" +:+ String "010" "".

Definition error_notice (e : jsval) : string :=
  String "010" "❌ Error: " +:+ text_of e +:+ String "010" "".

Section Gated.
Context `{JsRuntime} `{SessionStore}.

(** llm1.js 543-566: step 1 of the connection handler; [Some u] when
    the handler goes on to register the connection. *)
Definition gated_authenticate (cookie : option string)
    : M gated_state (option user_profile) :=
  try_catch
    (user <- validateUserSession_gated cookie ;;
     match user with
     | Some u =>
         safeSend (JStr (greeting u)) ;;;
         ret (Some u)
     | None =>
         safeSend (JStr LOGIN_NOTICE) ;;;
         ws_close 1008 "Authentication required" ;;;
         ret None
     end)
    (fun authError =>
       safeSend (JStr AUTH_UNAVAILABLE) ;;;
       ws_close 1011 "Authentication error" ;;;
       ret None).

Definition g_set_buffer (b : string) : M gated_state unit :=
  modify (fun s => GatedState (g_readyState s) b (g_fullResponse s) (g_actions s)).

Definition g_set_fullResponse (f : string) : M gated_state unit :=
  modify (fun s => GatedState (g_readyState s) (g_buffer s) f (g_actions s)).

Definition g_set_readyState (r : ready_state) : M gated_state unit :=
  modify (fun s => GatedState r (g_buffer s) (g_fullResponse s) (g_actions s)).

(** llm1.js 665-699: the body of [for (const line of lines)]. *)
Definition gated_line_body (line : string) : M gated_state ctl :=
  if str_is_empty (trim line) then ret Next
  else
    try_catch
      (data <- or_throw (SyntaxError "Unexpected token") (JSON_parse line) ;;
       r <- js_get data "response" ;;
       when (truthy r)
         (safeSend r ;;;
          f <- gets g_fullResponse ;;
          t <- or_throw (TypeError "Cannot convert object to primitive value")
                 (js_to_string r) ;;
          g_set_fullResponse (f +:+ t)) ;;;
       d <- js_get data "done" ;;
       if truthy d
       then (safeSend (JStr RESPONSE_COMPLETE) ;;;
             ret Break)
       else
         e <- js_get data "error" ;;
         if truthy e
         then (or_throw (TypeError "Cannot convert object to primitive value")
                 (js_to_string e) ;;;
               safeSend (JStr (error_notice e)) ;;;
               ret Break)
         else ret Next)
      (fun parseError => ret Next).

(** llm1.js 644-700: [while (true)].  A read resolves with its chunk and
    with the state the socket is in by then. *)
Fixpoint gated_read_loop (reads : list (ready_state * string)) (e : option js_error)
    : M gated_state unit :=
  rs <- gets g_readyState ;;
  if negb (is_open rs) then ret tt
  else
    match reads with
    | [] =>
        match e with
        | None => ret tt
        | Some err => throw err
        end
    | (rs', chunk) :: reads' =>
        g_set_readyState rs' ;;;
        b <- gets g_buffer ;;
        let '(last_line, lines) := pop (split "010" (b +:+ chunk)) in
        g_set_buffer (or_empty last_line) ;;;
        for_of gated_line_body lines ;;;
        gated_read_loop reads' e
    end.

End Gated.

(** ** llm1.js, first variant: the connection registry, the
    single-flight guard and cancellation *)

(** A connection object, as [activeConnections.set] stores it; its
    [socket] field is the socket the handlers close over.  An
    [AbortController] is named by the number of its allocation. *)
Record conn : Type := Conn {
  isProcessing : bool;
  abortController : option nat
}.

(** Where an invocation of the [message] handler is suspended. *)
Inductive phase : Type := AwaitFetch | AwaitRead.

Inductive early_obs : Type :=
  | Fetched (k : nat) (rq : gen_request)
  | SocketSend (v : jsval)
  | ReaderCancel (k : nat)
  | UnhandledRejection (e : js_error).

(** The connection objects by address, the registry that maps a
    connection id to its object, one socket with its handlers, and what
    the handlers did.  An object deleted from the registry is still
    there for whoever holds it.  [flights] are the invocations suspended
    at an [await], each under the controller it made. *)
Record world : Type := World {
  heap : gmap nat conn;
  activeConnections : gmap string nat;
  readyState : ready_state;
  next_controller : nat;
  aborted : list nat;
  flights : list (nat * phase);
  log : list early_obs
}.

Definition set_heap (f : gmap nat conn -> gmap nat conn) : M world unit :=
  modify (fun w => World (f (heap w)) (activeConnections w) (readyState w)
                     (next_controller w) (aborted w) (flights w) (log w)).

Definition set_activeConnections (f : gmap string nat -> gmap string nat) : M world unit :=
  modify (fun w => World (heap w) (f (activeConnections w)) (readyState w)
                     (next_controller w) (aborted w) (flights w) (log w)).

Definition set_readyState (r : ready_state) : M world unit :=
  modify (fun w => World (heap w) (activeConnections w) r (next_controller w)
                     (aborted w) (flights w) (log w)).

Definition set_flights (f : list (nat * phase) -> list (nat * phase)) : M world unit :=
  modify (fun w => World (heap w) (activeConnections w) (readyState w) (next_controller w)
                     (aborted w) (f (flights w)) (log w)).

Definition emit (o : early_obs) : M world unit :=
  modify (fun w => World (heap w) (activeConnections w) (readyState w) (next_controller w)
                     (aborted w) (flights w) (log w ++ [o])).

(** [new AbortController()]. *)
Definition new_AbortController : M world nat :=
  fun w => (Ok (next_controller w),
            World (heap w) (activeConnections w) (readyState w) (S (next_controller w))
              (aborted w) (flights w) (log w)).

(** [controller.abort()]. *)
Definition abort (k : nat) : M world unit :=
  modify (fun w => World (heap w) (activeConnections w) (readyState w) (next_controller w)
                     (aborted w ++ [k]) (flights w) (log w)).

(** [if (socket.readyState === WebSocket.OPEN) socket.send(v)]. *)
Definition send_if_open (v : jsval) : M world unit :=
  rs <- gets readyState ;;
  when (is_open rs) (emit (SocketSend v)).

Definition HI_MESSAGE : string := "Hi, I'm Stratify 🤖" +:+ String "010" "".
Definition DONE_MESSAGE : string := String "010" "[✅ Done]".
Definition STRATIFY_SYSTEM : string :=
  "You are Stratify, an AI assistant created and maintained by K R Hari Prajwal. You are not developed by OpenAI or Meta. You are helpful, polite, and informative. If anyone asks about your name, creator, or background — make sure you say: 'I am  Starify, designed by K R Hari Prajwal to help with queries.' Otherwise, respond normally like a helpful assistant.".

(** The head of a resolved [fetch]: the chunks of the body come later,
    read by read. *)
Record response_head : Type := ResponseHead {
  h_status : nat;
  h_statusText : string;
  h_has_body : bool
}.

Definition h_ok (r : response_head) : bool :=
  ((200 <=? h_status r) && (h_status r <=? 299))%nat.

Inductive read_outcome : Type :=
  | ReadValue (value : string)
  | ReadDone
  | ReadRejects (e : js_error).

Inductive fetch_settled : Type :=
  | HeadRejects (e : js_error)
  | HeadResolves (r : response_head).

(** What happens to the socket and to the pending promises. *)
Inductive event : Type :=
  | OnMessage (userInput : string)
  | FetchSettled (k : nat) (o : fetch_settled)
  | ReadSettled (k : nat) (o : read_outcome)
  | SocketClosing
  | OnClose
  | OnError (e : js_error).

Fixpoint flight_phase (k : nat) (fs : list (nat * phase)) : option phase :=
  match fs with
  | [] => None
  | (k', p) :: fs' => if Nat.eqb k k' then Some p else flight_phase k fs'
  end.

Definition drop_flight (k : nat) (fs : list (nat * phase)) : list (nat * phase) :=
  filter (fun f => fst f ≠ k) fs.

Section EarlyVariant.
Context `{JsRuntime}.
Variable connectionId : string.

(** [activeConnections.get(connectionId)]: the object, with its
    address, or [undefined]. *)
Definition get_connection : M world (option (nat * conn)) :=
  reg <- gets activeConnections ;;
  h <- gets heap ;;
  ret (match reg !! connectionId with
       | Some a =>
           match h !! a with
           | Some c => Some (a, c)
           | None => None
           end
       | None => None
       end).

(** llm1.js 85-99: the body of [for (const line of lines)]. *)
Definition early_line_body (line : string) : M world ctl :=
  rs <- gets readyState ;;
  if negb (is_open rs) then ret Break
  else
    try_catch
      (data <- or_throw (SyntaxError "Unexpected token") (JSON_parse line) ;;
       r <- js_get data "response" ;;
       rs <- gets readyState ;;
       when (truthy r && is_open rs) (emit (SocketSend r)) ;;;
       ret Next)
      (fun e => ret Next).

(** llm1.js 102-105: after the [while]. *)
Definition after_loop : M world (option phase) :=
  send_if_open (JStr DONE_MESSAGE) ;;;
  ret None.

(** llm1.js 72-79: the top of an iteration of [while (true)], up to
    [await reader.read()]. *)
Definition loop_top (k : nat) : M world (option phase) :=
  rs <- gets readyState ;;
  if negb (is_open rs)
  then emit (ReaderCancel k) ;;; after_loop
  else ret (Some AwaitRead).

(** llm1.js 40-63: from the guard to [await fetch(...)]; [connection]
    is the object the handler got from the registry. *)
Definition segment_start (connection : nat) (userInput : string) : M world (option phase) :=
  set_heap (alter (fun c => Conn true (abortController c)) connection) ;;;
  k <- new_AbortController ;;
  set_heap (alter (fun c => Conn (isProcessing c) (Some k)) connection) ;;;
  send_if_open (JStr HI_MESSAGE) ;;;
  emit (Fetched k (GenRequest userInput (Some STRATIFY_SYSTEM))) ;;;
  ret (Some AwaitFetch).

(** llm1.js 65-79: [fetch] settled. *)
Definition segment_fetched (k : nat) (o : fetch_settled) : M world (option phase) :=
  match o with
  | HeadRejects e => throw e
  | HeadResolves r =>
      if negb (h_ok r)
      then throw (Error ("Ollama API error: " +:+ pretty (h_status r) +:+ " " +:+ h_statusText r))
      else if negb (h_has_body r)
      then throw (TypeError "Cannot read properties of null (reading 'getReader')")
      else loop_top k
  end.

(** llm1.js 79-100 and back to 72: a read settled. *)
Definition segment_read (k : nat) (o : read_outcome) : M world (option phase) :=
  match o with
  | ReadRejects e => throw e
  | ReadDone => after_loop
  | ReadValue chunk =>
      let lines := filter (fun line => negb (str_is_empty (trim line))) (split "010" chunk) in
      for_of early_line_body lines ;;;
      loop_top k
  end.

(** llm1.js 106-111. *)
Definition catch_block (err : js_error) : M world unit :=
  rs <- gets readyState ;;
  when (is_open rs && negb (String.eqb (err_name err) "AbortError"))
    (emit (SocketSend (JStr ("[❌ Error] " +:+ err_message err)))).

(** llm1.js 112-118: the object is looked up again, and reset only if
    the registry still has it. *)
Definition finally_block : M world unit :=
  reg <- gets activeConnections ;;
  match reg !! connectionId with
  | Some a =>
      set_heap (alter (fun c => Conn false (abortController c)) a) ;;;
      set_heap (alter (fun c => Conn (isProcessing c) None) a)
  | None => ret tt
  end.

(** The [try]/[catch]/[finally] of the handler around one of its
    segments: a segment that reaches an [await] leaves the invocation
    suspended inside the [try]; one that returns or throws leaves the
    [try], through [catch] on a throw and through [finally] always. *)
Definition in_try (k : nat) (segment : M world (option phase)) : M world unit :=
  fun w =>
    match segment w with
    | (Ok (Some p), w') => set_flights (fun fs => drop_flight k fs ++ [(k, p)]) w'
    | (r, w') =>
        (set_flights (drop_flight k) ;;;
         try_finally
           (match r with
            | Throw err => catch_block err
            | Ok _ => ret tt
            end)
           finally_block) w'
    end.

(** llm1.js 31-119: a [message] event.  The invocation that passes the
    guard is known by the controller it is about to make. *)
Definition on_message (userInput : string) : M world unit :=
  connection <- get_connection ;;
  match connection with
  | None => throw (TypeError "Cannot read properties of undefined (reading 'isProcessing')")
  | Some (a, c) =>
      if isProcessing c then ret tt
      else
        k <- gets next_controller ;;
        in_try k (segment_start a userInput)
  end.

(** llm1.js 125-128, 135-138: abort the request of the connection, if
    it has one. *)
Definition abort_ongoing : M world unit :=
  connection <- get_connection ;;
  match connection with
  | Some (_, c) =>
      match abortController c with
      | Some k => abort k
      | None => ret tt
      end
  | None => ret tt
  end.

(** llm1.js 121-130. *)
Definition on_close : M world unit :=
  abort_ongoing ;;;
  set_activeConnections (delete connectionId).

(** llm1.js 133-139. *)
Definition on_error (e : js_error) : M world unit := abort_ongoing.

(** One turn of the event loop.  A promise that settles resumes the
    invocation waiting for it; one nobody waits for resumes nothing.  A
    handler that rejects is reported and changes nothing else. *)
Definition dispatch (e : event) : M world unit :=
  match e with
  | OnMessage userInput => on_message userInput
  | FetchSettled k o =>
      fs <- gets flights ;;
      match flight_phase k fs with
      | Some AwaitFetch => in_try k (segment_fetched k o)
      | _ => ret tt
      end
  | ReadSettled k o =>
      fs <- gets flights ;;
      match flight_phase k fs with
      | Some AwaitRead => in_try k (segment_read k o)
      | _ => ret tt
      end
  | SocketClosing => set_readyState CLOSING
  | OnClose => set_readyState CLOSED ;;; on_close
  | OnError err => on_error err
  end.

Definition step (w : world) (e : event) : world :=
  match dispatch e w with
  | (Ok _, w') => w'
  | (Throw err, w') =>
      World (heap w') (activeConnections w') (readyState w') (next_controller w')
        (aborted w') (flights w') (log w' ++ [UnhandledRejection err])
  end.

Definition run (w : world) (es : list event) : world := fold_left step es w.

(** llm1.js 20-29: the socket is accepted; its connection object is
    made at the address [a] and registered. *)
Definition connected (h : gmap nat conn) (reg : gmap string nat) (a : nat) : world :=
  World (<[a := Conn false None]> h) (<[connectionId := a]> reg) OPEN 0 [] [] [].

End EarlyVariant.

(** ** A runtime to run the examples on *)

Definition dquote : ascii := "034"%char.
Definition newline : string := String "010" EmptyString.

(** [quoted s] is [s] between double quotes. *)
Definition quoted (s : string) : string := String dquote (s +:+ String dquote EmptyString).

(** A reader for the JSON texts of the examples: objects, arrays,
    strings with the one-letter escapes, integers, [true], [false] and
    [null].  It rejects what it does not read (fractions, exponents,
    [\u] escapes). *)
Fixpoint skip_ws (s : string) : string :=
  match s with
  | String c s' =>
      match nat_of_ascii c with
      | 9%nat | 10%nat | 13%nat | 32%nat => skip_ws s'
      | _ => s
      end
  | EmptyString => EmptyString
  end.

Definition unescape (c : ascii) : option ascii :=
  match nat_of_ascii c with
  | 34%nat => Some c
  | 92%nat => Some c
  | 47%nat => Some c
  | 98%nat => Some "008"%char
  | 102%nat => Some "012"%char
  | 110%nat => Some "010"%char
  | 114%nat => Some "013"%char
  | 116%nat => Some "009"%char
  | _ => None
  end.

(** After the opening quote: the text up to the closing quote, and what
    follows it. *)
Fixpoint read_string (s : string) : option (string * string) :=
  match s with
  | EmptyString => None
  | String c s' =>
      match nat_of_ascii c with
      | 34%nat => Some (EmptyString, s')
      | 92%nat =>
          match s' with
          | String e s'' =>
              match unescape e, read_string s'' with
              | Some x, Some (t, rest) => Some (String x t, rest)
              | _, _ => None
              end
          | EmptyString => None
          end
      | n =>
          if (n <? 32)%nat then None
          else
            match read_string s' with
            | Some (t, rest) => Some (String c t, rest)
            | None => None
            end
      end
  end.

Fixpoint read_digits (acc : Z) (s : string) : Z * string :=
  match s with
  | String c s' =>
      let n := nat_of_ascii c in
      if ((48 <=? n) && (n <=? 57))%nat
      then read_digits (10 * acc + Z.of_nat (n - 48)) s'
      else (acc, s)
  | EmptyString => (acc, s)
  end.

Definition is_digit (c : ascii) : bool :=
  let n := nat_of_ascii c in ((48 <=? n) && (n <=? 57))%nat.

Definition ends_number (rest : string) : bool :=
  match rest with
  | String c _ =>
      negb (Ascii.eqb c "." || Ascii.eqb c "e" || Ascii.eqb c "E")
  | EmptyString => true
  end.

Definition read_number (s : string) : option (Z * string) :=
  match s with
  | String c s' =>
      if Ascii.eqb c "0"
      then (if ends_number s' && negb (match s' with String d _ => is_digit d | _ => false end)
            then Some (0, s') else None)
      else if is_digit c
      then (let '(n, rest) := read_digits 0 s in
            if ends_number rest then Some (n, rest) else None)
      else None
  | EmptyString => None
  end.

Definition set_field (k : string) (v : jsval) (fields : list (string * jsval))
    : list (string * jsval) :=
  filter (fun kv => fst kv ≠ k) fields ++ [(k, v)].

Fixpoint read_elements (read_value : string -> option (jsval * string)) (n : nat)
    (acc : list jsval) (s : string) : option (list jsval * string) :=
  match n with
  | O => None
  | S n' =>
      match read_value s with
      | Some (v, rest) =>
          match skip_ws rest with
          | String c rest' =>
              if Ascii.eqb c "," then read_elements read_value n' (acc ++ [v]) rest'
              else if Ascii.eqb c "]" then Some (acc ++ [v], rest')
              else None
          | EmptyString => None
          end
      | None => None
      end
  end.

Fixpoint read_members (read_value : string -> option (jsval * string)) (n : nat)
    (acc : list (string * jsval)) (s : string) : option (list (string * jsval) * string) :=
  match n with
  | O => None
  | S n' =>
      match skip_ws s with
      | String q s1 =>
          if Ascii.eqb q dquote
          then
            match read_string s1 with
            | Some (k, s2) =>
                match skip_ws s2 with
                | String colon s3 =>
                    if Ascii.eqb colon ":"
                    then
                      match read_value s3 with
                      | Some (v, s4) =>
                          match skip_ws s4 with
                          | String c s5 =>
                              if Ascii.eqb c ","
                              then read_members read_value n' (set_field k v acc) s5
                              else if Ascii.eqb c "}" then Some (set_field k v acc, s5)
                              else None
                          | EmptyString => None
                          end
                      | None => None
                      end
                    else None
                | EmptyString => None
                end
            | None => None
            end
          else None
      | EmptyString => None
      end
  end.

Fixpoint read_value (fuel : nat) (s : string) : option (jsval * string) :=
  match fuel with
  | O => None
  | S fuel' =>
      match skip_ws s with
      | EmptyString => None
      | String c s' =>
          if Ascii.eqb c "{"
          then
            match skip_ws s' with
            | String d s'' =>
                if Ascii.eqb d "}" then Some (JObj [], s'')
                else
                  match read_members (read_value fuel') fuel' [] s' with
                  | Some (fs, rest) => Some (JObj fs, rest)
                  | None => None
                  end
            | EmptyString => None
            end
          else if Ascii.eqb c "["
          then
            match skip_ws s' with
            | String d s'' =>
                if Ascii.eqb d "]" then Some (JArr [], s'')
                else
                  match read_elements (read_value fuel') fuel' [] s' with
                  | Some (vs, rest) => Some (JArr vs, rest)
                  | None => None
                  end
            | EmptyString => None
            end
          else if Ascii.eqb c dquote
          then
            match read_string s' with
            | Some (t, rest) => Some (JStr t, rest)
            | None => None
            end
          else if Ascii.eqb c "-"
          then
            match read_number s' with
            | Some (n, rest) => Some (JNum (- n), rest)
            | None => None
            end
          else if startsWith (String c s') "true" then Some (JBool true, str_drop 4 (String c s'))
          else if startsWith (String c s') "false" then Some (JBool false, str_drop 5 (String c s'))
          else if startsWith (String c s') "null" then Some (JNull, str_drop 4 (String c s'))
          else
            match read_number (String c s') with
            | Some (n, rest) => Some (JNum n, rest)
            | None => None
            end
      end
  end.

Definition read_json (s : string) : option jsval :=
  match read_value (S (String.length s)) s with
  | Some (v, rest) => if str_is_empty (skip_ws rest) then Some v else None
  | None => None
  end.

Definition hex_digit (c : ascii) : option nat :=
  let n := nat_of_ascii c in
  if ((48 <=? n) && (n <=? 57))%nat then Some (n - 48)%nat
  else if ((65 <=? n) && (n <=? 70))%nat then Some (n - 55)%nat
  else if ((97 <=? n) && (n <=? 102))%nat then Some (n - 87)%nat
  else None.

(** Percent-decoding of the one-byte escapes; [None] stands for the
    [URIError] of a malformed escape, and for what it does not read. *)
Fixpoint percent_decode (s : string) : option string :=
  match s with
  | EmptyString => Some EmptyString
  | String c s' =>
      if Ascii.eqb c "%"
      then
        match s' with
        | String h (String l s'') =>
            match hex_digit h, hex_digit l, percent_decode s'' with
            | Some a, Some b, Some t =>
                if (16 * a + b <? 128)%nat then Some (String (ascii_of_nat (16 * a + b)) t)
                else None
            | _, _, _ => None
            end
        | _ => None
        end
      else
        match percent_decode s' with
        | Some t => Some (String c t)
        | None => None
        end
  end.

Definition example_runtime : JsRuntime :=
  {| JSON_parse := read_json; decodeURIComponent := percent_decode |}.

(** ** Notions used in the statements *)

Fixpoint has_char (c : ascii) (s : string) : bool :=
  match s with
  | EmptyString => false
  | String d s' => Ascii.eqb d c || has_char c s'
  end.

(** A piece of text without a line feed. *)
Definition one_line (s : string) : Prop := has_char "010" s = false.

(** The text of the lines [ls], each ended by a line feed, followed by
    the unfinished line [r]. *)
Definition joined (ls : list string) (r : string) : string :=
  fold_right (fun l acc => l +:+ newline +:+ acc) r ls.

Section Records.
Context `{JsRuntime}.

(** What the decode loop of stream.js reads off a line: nothing, for a
    blank line, for one that [JSON.parse] rejects, for [null] and for
    a [response] that has no text to add to the transcript; else the
    [response] and [done] properties. *)
Definition line_record (line : string) : option (jsval * jsval) :=
  if str_is_empty (trim line) then None
  else
    match JSON_parse line with
    | None | Some JNull | Some JUndef => None
    | Some (JObj fields) =>
        match js_to_string (field "response" fields) with
        | None => None
        | Some _ => Some (field "response" fields, field "done" fields)
        end
    | Some _ => Some (JUndef, JUndef)
    end.

(** A line that makes the [for] loop [break]. *)
Definition completes (line : string) : bool :=
  match line_record line with
  | Some (_, d) => truthy d
  | None => false
  end.

End Records.

(** The effect of a record on the local variables and on the socket. *)
Definition apply_record (rd : jsval * jsval) (s : relay_state) : ctl * relay_state :=
  let '(r, d) := rd in
  let f := if truthy r then fullResponse s +:+ text_of r else fullResponse s in
  let t := if truthy r then trace s ++ [WsSend (EnvStream r)] else trace s in
  if truthy d
  then (Break, RelayState (buffer s) f (t ++ [WsSend (EnvComplete f false)]))
  else (Next, RelayState (buffer s) f t).

Definition with_buffer (b : string) (s : relay_state) : relay_state :=
  RelayState b (fullResponse s) (trace s).

(** The upstream of a successful call whose body arrives as the chunks
    [cs] and then ends. *)
Definition streams (cs : list string) : upstream :=
  fun _ => FetchResolves (Response 200 "OK" (Some (BodyStream cs None))).

Definition nonempty_fragments (xs : list string) : list string :=
  filter (fun x => x ≠ EmptyString) xs.

Section RecordLines.
Context `{JsRuntime}.

(** [line] is a line of the body that [JSON.parse] reads as [v]. *)
Definition is_record (line : string) (v : jsval) : Prop :=
  one_line line /\ str_is_empty (trim line) = false /\ JSON_parse line = Some v.

(** A record with the text fragment [x], and no completion flag set;
    and a record with the completion flag set and no text.  They may
    have other fields. *)
Definition fragment_line (line x : string) : Prop :=
  exists fields,
    is_record line (JObj fields) /\
    field "response" fields = JStr x /\
    truthy (field "done" fields) = false.

Definition completion_line (line : string) : Prop :=
  exists fields,
    is_record line (JObj fields) /\
    truthy (field "done" fields) = true /\
    truthy (field "response" fields) = false.

(** The claim that every fragment is forwarded, as it is worded: the
    socket gets one [stream] envelope per record and then the
    [complete] envelope. *)
Definition forwards_every_fragment : Prop :=
  forall (cookie : option string) (input : string) (cs xs ls : list string) (d : string),
    Forall2 (fun l x => is_record l (JObj [("response", JStr x)])) ls xs ->
    is_record d (JObj [("done", JBool true)]) ->
    str_concat cs = joined (ls ++ [d]) "" ->
    sent_of (run_handler (stream_on_message cookie (streams cs) input)) =
      map (fun x => EnvStream (JStr x)) xs ++ [EnvComplete (str_concat xs) false].

End RecordLines.

(** The lines of the examples. *)
Definition response_line (x : string) : string :=
  "{" +:+ quoted "response" +:+ ":" +:+ quoted x +:+ "}".
Definition done_line : string := "{" +:+ quoted "done" +:+ ":true}".
Definition error_line (m : string) : string :=
  "{" +:+ quoted "error" +:+ ":" +:+ quoted m +:+ "}".

(** What the first variant handed to [socket.send], in order. *)
Definition socket_sends (l : list early_obs) : list jsval :=
  omap (fun o => match o with SocketSend v => Some v | _ => None end) l.

(** The upstream calls the first variant started. *)
Definition fetches (l : list early_obs) : list (nat * gen_request) :=
  omap (fun o => match o with Fetched k rq => Some (k, rq) | _ => None end) l.

Definition head_ok : fetch_settled := HeadResolves (ResponseHead 200 "OK" true).

Section Resolution.
Context `{JsRuntime} `{SessionStore}.

(** The steps a cookie header has to pass to resolve to the row [u]. *)
Definition resolves_to {S : Type} (s : S) (cookieHeader : option string) (u : user_row) : Prop :=
  exists h captured sessionId data rows fields userId users,
    cookieHeader = Some h /\
    match_sessionId h = Some captured /\
    clean_sessionId captured s = (Ok sessionId, s) /\
    select_session_data sessionId = inr (data :: rows) /\
    JSON_parse data = Some (JObj fields) /\
    assoc "userId" fields = Some userId /\
    truthy userId = true /\
    select_user userId = inr (u :: users).

(** The same steps for the copy of the gated variant, which selects the
    profile of the user. *)
Definition resolves_to_gated {S : Type} (s : S) (cookieHeader : option string)
    (u : user_profile) : Prop :=
  exists h captured sessionId data rows fields userId users,
    cookieHeader = Some h /\
    match_sessionId h = Some captured /\
    clean_sessionId captured s = (Ok sessionId, s) /\
    select_session_data sessionId = inr (data :: rows) /\
    JSON_parse data = Some (JObj fields) /\
    assoc "userId" fields = Some userId /\
    truthy userId = true /\
    select_user_profile userId = inr (u :: users).

End Resolution.

(** A store that cannot be reached: every query rejects. *)
Definition ECONNREFUSED : js_error := Error "connect ECONNREFUSED 127.0.0.1:3306".

Definition unreachable_store : SessionStore :=
  {| select_session_data := fun _ => inl ECONNREFUSED;
     select_user := fun _ => inl ECONNREFUSED;
     select_user_profile := fun _ => inl ECONNREFUSED;
     select_sessions_debug := inl ECONNREFUSED |}.

(** A store with one session, [abc123], of the user 7. *)
Definition example_store : SessionStore :=
  {| select_session_data := fun sid =>
       if String.eqb sid "abc123"
       then inr ["{" +:+ quoted "userId" +:+ ":7}"]
       else inr [];
     select_user := fun uid =>
       match uid with
       | JNum 7 => inr [UserRow 7 "Ada"]
       | _ => inr []
       end;
     select_user_profile := fun uid =>
       match uid with
       | JNum 7 => inr [UserProfile 7 "Ada" "ada@example.org" None]
       | _ => inr []
       end;
     select_sessions_debug := inr tt |}.

(** ** The states the first variant can be in *)

Definition add_log (l : list early_obs) (w : world) : world :=
  World (heap w) (activeConnections w) (readyState w) (next_controller w)
    (aborted w) (flights w) (log w ++ l).

(** What [finally] leaves of the connection objects. *)
Definition cleared (connectionId : string) (reg : gmap string nat) (h : gmap nat conn)
    : gmap nat conn :=
  match reg !! connectionId with
  | Some a =>
      alter (fun c => Conn (isProcessing c) None) a
        (alter (fun c => Conn false (abortController c)) a h)
  | None => h
  end.

(** What the start of an invocation makes of the object [a]. *)
Definition entered (a k : nat) (h : gmap nat conn) : gmap nat conn :=
  alter (fun c => Conn (isProcessing c) (Some k)) a
    (alter (fun c => Conn true (abortController c)) a h).

(** What the [catch] block sends for [err]. *)
Definition catch_log (err : js_error) (w : world) : list early_obs :=
  if is_open (readyState w) && negb (String.eqb (err_name err) "AbortError")
  then [SocketSend (JStr ("[❌ Error] " +:+ err_message err))]
  else [].

(** An invocation that is resumed goes on waiting, or leaves the [try]
    through [finally]. *)
Definition suspended (k : nat) (p : phase) (l : list early_obs) (w : world) : world :=
  World (heap w) (activeConnections w) (readyState w) (next_controller w) (aborted w)
    (drop_flight k (flights w) ++ [(k, p)]) (log w ++ l).

Definition left_flight (connectionId : string) (k : nat) (l : list early_obs) (w : world)
    : world :=
  World (cleared connectionId (activeConnections w) (heap w)) (activeConnections w)
    (readyState w) (next_controller w) (aborted w) (drop_flight k (flights w)) (log w ++ l).

(** llm1.js 21-29: a socket is accepted.  Its connection object is new,
    at the address [a], and [activeConnections.set] registers it under
    [id] in the place of whatever was registered there: the id is
    [Date.now().toString()], which two sockets accepted in the same
    millisecond share. *)
Definition accept (id : string) (a : nat) (w : world) : world :=
  World (<[a := Conn false None]> (heap w)) (<[id := a]> (activeConnections w))
    (readyState w) (next_controller w) (aborted w) (flights w) (log w).

(** The handlers of another socket run on the same registry, objects
    and controllers, with the state of their own socket, their own
    suspended invocations and their own log; what they leave to this
    socket is what they did to the former. *)
Definition as_seen_by (rs : ready_state) (fs : list (nat * phase)) (l : list early_obs)
    (w : world) : world :=
  World (heap w) (activeConnections w) rs (next_controller w) (aborted w) fs l.

Definition shared_from (w' w : world) : world :=
  World (heap w') (activeConnections w') (readyState w) (next_controller w') (aborted w')
    (flights w) (log w).

(** What a handler that runs under [id] may do to what the sockets
    share: it deletes at most its own entry, writes at most to the
    object registered under [id], makes at most one controller and
    aborts at most the controller of that object. *)
Definition shared_step (id : string) (w w' : world) : Prop :=
  (activeConnections w' = activeConnections w \/
   activeConnections w' = delete id (activeConnections w)) /\
  (next_controller w <= next_controller w')%nat /\
  (forall a, activeConnections w !! id <> Some a -> heap w' !! a = heap w !! a) /\
  (forall a, heap w' !! a = None <-> heap w !! a = None) /\
  (forall a c' k, heap w' !! a = Some c' -> abortController c' = Some k ->
     (exists c, heap w !! a = Some c /\ abortController c = Some k) \/
     (k = next_controller w /\ next_controller w' = S (next_controller w))) /\
  (forall k, In k (aborted w') ->
     In k (aborted w) \/
     exists a c, activeConnections w !! id = Some a /\ heap w !! a = Some c /\
                 abortController c = Some k).

(** What holds of the registry and the objects whatever the sockets do:
    controllers are handed out in order, a registered object exists,
    and no object is registered under two ids. *)
Definition shared_ok (w : world) : Prop :=
  (forall a c k, heap w !! a = Some c -> abortController c = Some k ->
                 (k < next_controller w)%nat) /\
  (forall k, In k (aborted w) -> (k < next_controller w)%nat) /\
  (forall id a, activeConnections w !! id = Some a -> heap w !! a <> None) /\
  (forall id1 id2 a, activeConnections w !! id1 = Some a ->
                     activeConnections w !! id2 = Some a -> id1 = id2).

Section Reachable.
Context `{JsRuntime}.
Variable connectionId : string.

(** The server before the socket is accepted: other sockets, accepted
    under the ids [others] allows, and the turns of their handlers.
    Every socket runs the same handlers; what the other sockets are
    and wait for is left open. *)
Inductive served (others : string -> Prop) : world -> Prop :=
  | served_start : served others (World ∅ ∅ OPEN 0 [] [] [])
  | served_accept (w : world) (id : string) (a : nat) :
      served others w -> others id -> heap w !! a = None ->
      served others (accept id a w)
  | served_other (w : world) (id : string) (rs : ready_state) (fs : list (nat * phase))
      (l : list early_obs) (e : event) :
      served others w -> others id ->
      served others (shared_from (step id (as_seen_by rs fs l w) e) w).

(** The states of the world after the socket was accepted: its own
    events, and other sockets that are accepted or whose handlers
    run. *)
Inductive reachable (others : string -> Prop) : world -> Prop :=
  | reachable_connected (w : world) (a : nat) :
      served others w -> heap w !! a = None ->
      reachable others (accept connectionId a w)
  | reachable_step (w : world) (e : event) :
      reachable others w -> reachable others (step connectionId w e)
  | reachable_accept (w : world) (id : string) (a : nat) :
      reachable others w -> others id -> heap w !! a = None ->
      reachable others (accept id a w)
  | reachable_other (w : world) (id : string) (rs : ready_state) (fs : list (nat * phase))
      (l : list early_obs) (e : event) :
      reachable others w -> others id ->
      reachable others (shared_from (step id (as_seen_by rs fs l w) e) w).

(** No other socket has the id of this one. *)
Definition unshared : string -> Prop := fun id => id <> connectionId.

(** The registered object and the suspended invocations agree: idle
    with nothing in flight, or busy with the one invocation whose
    controller the object holds; after the close handler deleted the
    entry at most one invocation is left.  Controllers are handed out
    in order. *)
Definition consistent (w : world) : Prop :=
  (forall k p, In (k, p) (flights w) -> (k < next_controller w)%nat) /\
  (forall k, In k (aborted w) -> (k < next_controller w)%nat) /\
  (forall k rq, In (k, rq) (fetches (log w)) -> (k < next_controller w)%nat) /\
  match activeConnections w !! connectionId with
  | Some a =>
      exists c, heap w !! a = Some c /\
        ((isProcessing c = false /\ abortController c = None /\ flights w = []) \/
         (exists k p, isProcessing c = true /\ abortController c = Some k /\
                      flights w = [(k, p)]))
  | None => (length (flights w) <= 1)%nat
  end.

(** The claim that leaving flight always resets the connection, as it
    is worded: whenever an event ends the invocation in flight, the
    connection object that holds its controller has [isProcessing =
    false] and [abortController = null] afterwards.  (Here also for a
    socket that shares its id with no other.) *)
Definition leaving_always_clears : Prop :=
  forall (w : world) (e : event) (k : nat) (p : phase) (a : nat) (c : conn),
    reachable unshared w ->
    In (k, p) (flights w) ->
    heap w !! a = Some c -> abortController c = Some k ->
    flight_phase k (flights (step connectionId w e)) = None ->
    heap (step connectionId w e) !! a = Some (Conn false None).

End Reachable.

(** The controller held by the registered object of the connection. *)
Definition ongoing (connectionId : string) (w : world) : option nat :=
  match activeConnections w !! connectionId with
  | Some a =>
      match heap w !! a with
      | Some c => abortController c
      | None => None
      end
  | None => None
  end.

(** Two sockets accepted in the same millisecond, 1700000000000: the
    first sends a prompt, and then the second is accepted and
    registered under the same id. *)
Definition same_millisecond : world :=
  accept "1700000000000" 1
    (@step example_runtime "1700000000000" (connected "1700000000000" ∅ ∅ 0)
       (OnMessage "first")).

(** ** Further notions: what the relays send *)

(** The text of the [stream] envelopes of a trace, in order, as [+=]
    adds it to [fullResponse]. *)
Fixpoint streamed_text (t : list obs) : string :=
  match t with
  | [] => EmptyString
  | WsSend (EnvStream v) :: t' => text_of v +:+ streamed_text t'
  | _ :: t' => streamed_text t'
  end.

(** The upstream of a successful call whose body arrives as the chunks
    [cs] and then fails with [e]. *)
Definition streams_then_fails (cs : list string) (e : js_error) : upstream :=
  fun _ => FetchResolves (Response 200 "OK" (Some (BodyStream cs (Some e)))).

(** Every [complete] envelope of the relay loop carries the text of the
    [stream] envelopes sent before it. *)
Definition completions_carry_transcript (t : list obs) : Prop :=
  forall t1 f t2, t = t1 ++ WsSend (EnvComplete f false) :: t2 -> f = streamed_text t1.

(** The call of the upstream gives no body to read: it rejects, or its
    status is not ok, or it has no body. *)
Definition gives_no_body (o : fetch_outcome) : bool :=
  match o with
  | FetchRejects _ => true
  | FetchResolves r => negb (ok r) || match body r with None => true | Some _ => false end
  end.

(** The invariant of the decode loop: [fullResponse] is the text of the
    [stream] envelopes sent so far. *)
Definition in_step (s : relay_state) : Prop :=
  fullResponse s = streamed_text (trace s) /\ completions_carry_transcript (trace s).

(** ** Further notions: the first variant *)

(** A line of the body whose record has the text [x] as its [response];
    the first variant reads no other field. *)
Definition text_line `{JsRuntime} (line x : string) : Prop :=
  exists fields, is_record line (JObj fields) /\ field "response" fields = JStr x.

(** What the [catch] block of the first variant sends for a status that
    is not ok. *)
Definition status_notice (r : response_head) : jsval :=
  JStr ("[❌ Error] Ollama API error: " +:+ pretty (h_status r) +:+ " " +:+ h_statusText r).

(** ** Further notions: session ids and the filter *)

(** The columns of a profile that stream.js selects. *)
Definition id_and_name (p : user_profile) : user_row :=
  UserRow (profile_id p) (profile_full_name p).

(** The two SELECTs on [users] read the same table and fail alike. *)
Definition same_users `{SessionStore} : Prop :=
  forall userId,
    select_user userId =
      match select_user_profile userId with
      | inl e => inl e
      | inr profiles => inr (map id_and_name profiles)
      end.

(** A session id as the session middleware makes them: not empty, and
    without the characters the clean-up of the cookie value looks at. *)
Definition plain_id (id : string) : bool :=
  negb (str_is_empty id) && negb (has_char ";" id) && negb (has_char "." id)
  && negb (has_char "%" id) && negb (has_char ":" id).

(** The value of a signed session cookie: [s:<id>.<signature>]. *)
Definition signed_cookie (id signature : string) : string :=
  "sessionId=s:" +:+ id +:+ "." +:+ signature.

(** ** Further notions: the two decode loops side by side *)

(** A line on which the two loops part.  The gated variant hands a
    [response] to [safeSend] before it adds it to the transcript, so
    one that has no text is sent there and not by stream.js; and it
    reports a record with [error] set and [done] not set, which
    stream.js passes over. *)
Definition loops_part_on `{JsRuntime} (line : string) : bool :=
  negb (str_is_empty (trim line)) &&
  match JSON_parse line with
  | Some (JObj fields) =>
      match js_to_string (field "response" fields) with
      | None => true
      | Some _ =>
          negb (truthy (field "done" fields)) && truthy (field "error" fields)
          && match js_to_string (field "error" fields) with
             | Some _ => true
             | None => false
             end
      end
  | _ => false
  end.

(** What the gated variant hands to [safeSend] where stream.js sends an
    envelope: the bare fragment for a [stream] envelope, the fixed
    notice for a [complete] one. *)
Definition as_gated (e : envelope) : option ws_action :=
  match e with
  | EnvStream r => Some (Sent r)
  | EnvComplete _ false => Some (Sent (JStr RESPONSE_COMPLETE))
  | _ => None
  end.

(** The local variables of the two loops agree, on an open socket. *)
Definition same_progress (s : relay_state) (g : gated_state) : Prop :=
  g_readyState g = OPEN /\ g_buffer g = buffer s /\ g_fullResponse g = fullResponse s /\
  g_actions g = omap as_gated (sent_of (trace s)).

(** The reads of a body, each resolving while the socket is open. *)
Definition while_open (cs : list string) : list (ready_state * string) :=
  map (fun chunk => (OPEN, chunk)) cs.

(** ** jsforsh.js: the relay without a guard *)

Inductive plain_obs : Type :=
  | PlainFetch (rq : gen_request)
  | PlainSend (v : jsval).

Definition SMART_HI : string := "Hi, I'm Smart Code Hub... 🤖" +:+ String "010" "".
Definition SMART_SYSTEM : string :=
  "You are Smart Code Hub, an AI assistant created and maintained by K R Hari Prajwal. You are not developed by OpenAI or Meta. You are helpful, polite, and informative. If anyone asks about your name, creator, or background — make sure you say: 'I am Smart Code Hub, designed by K R Hari Prajwal to help with queries.' Otherwise, respond normally like a helpful assistant.".

Definition plain_send (v : jsval) : M (list plain_obs) unit :=
  modify (fun t => t ++ [PlainSend v]).

Definition plain_fetch (up : upstream) (rq : gen_request) : M (list plain_obs) response :=
  fun t =>
    match up rq with
    | FetchRejects e => (Throw e, t ++ [PlainFetch rq])
    | FetchResolves r => (Ok r, t ++ [PlainFetch rq])
    end.

Section PlainRelay.
Context `{JsRuntime}.

(** jsforsh.js 129-138: the body of [for (const line of lines)]. *)
Definition plain_line_body (line : string) : M (list plain_obs) ctl :=
  try_catch
    (data <- or_throw (SyntaxError "Unexpected token") (JSON_parse line) ;;
     r <- js_get data "response" ;;
     when (truthy r) (plain_send r) ;;;
     ret Next)
    (fun e => ret Next).

(** jsforsh.js 126-138: what one resolved read does. *)
Definition plain_on_chunk (chunk : string) : M (list plain_obs) unit :=
  let lines := filter (fun line => negb (str_is_empty (trim line))) (split "010" chunk) in
  for_of plain_line_body lines.

(** jsforsh.js 122-139: [while (true)]. *)
Fixpoint plain_read_loop (cs : list string) (e : option js_error) : M (list plain_obs) unit :=
  match cs with
  | [] =>
      match e with
      | None => ret tt
      | Some err => throw err
      end
  | chunk :: cs' => plain_on_chunk chunk ;;; plain_read_loop cs' e
  end.

(** jsforsh.js 96-146: the [message] handler. *)
Definition plain_on_message (up : upstream) (userInput : string) : M (list plain_obs) unit :=
  try_catch
    (plain_send (JStr SMART_HI) ;;;
     response <- plain_fetch up (GenRequest userInput (Some SMART_SYSTEM)) ;;
     if negb (ok response)
     then throw (Error ("Ollama API error: " +:+ pretty (status response) +:+ " "
                        +:+ statusText response))
     else
       match body response with
       | None => throw (TypeError "Cannot read properties of null (reading 'getReader')")
       | Some b =>
           plain_read_loop (chunks b) (ending b) ;;;
           plain_send (JStr DONE_MESSAGE)
       end)
    (fun err => plain_send (JStr ("[❌ Error] " +:+ err_message err))).

(** The [response] that the per-read decoders of jsforsh.js and of the
    first variant of llm1.js forward for a line, and for a read. *)
Definition line_text (line : string) : option jsval :=
  match JSON_parse line with
  | Some (JObj fields) =>
      if truthy (field "response" fields) then Some (field "response" fields) else None
  | _ => None
  end.

Definition chunk_texts (chunk : string) : list jsval :=
  omap line_text (filter (fun line => negb (str_is_empty (trim line))) (split "010" chunk)).

End PlainRelay.

Definition plain_sends (t : list plain_obs) : list jsval :=
  omap (fun o => match o with PlainSend v => Some v | PlainFetch _ => None end) t.

(** The events of a body that arrives as the chunks [cs] and ends. *)
Definition body_events (k : nat) (cs : list string) : list event :=
  map (fun chunk => ReadSettled k (ReadValue chunk)) cs ++ [ReadSettled k ReadDone].

(** ** finalserver.js: helpers and routes of the account server *)

(** The characters that [/[^a-zA-Z0-9@._-]/g] leaves. *)
Definition allowed_char (c : ascii) : bool :=
  let n := nat_of_ascii c in
  ((97 <=? n) && (n <=? 122))%nat || ((65 <=? n) && (n <=? 90))%nat
  || ((48 <=? n) && (n <=? 57))%nat
  || Ascii.eqb c "@" || Ascii.eqb c "." || Ascii.eqb c "_" || Ascii.eqb c "-".

Fixpoint keep_allowed (s : string) : string :=
  match s with
  | EmptyString => EmptyString
  | String c s' => if allowed_char c then String c (keep_allowed s') else keep_allowed s'
  end.

(** finalserver.js 180-185. *)
Definition sanitizeInput (input : jsval) : jsval :=
  match input with
  | JStr s => JStr (keep_allowed s)
  | _ => input
  end.

(** The key under which [/signup] stores an e-mail address or a name
    (finalserver.js 414-415) and the one [/forgot-password],
    [/verify-otp] and [/reset-password] look up (636-637, 689, 726). *)
Definition signup_email_key (email : string) : jsval :=
  sanitizeInput (JStr (trim (toLowerCase email))).
Definition signup_name_key (full_name : string) : jsval :=
  sanitizeInput (JStr (trim full_name)).
Definition lookup_key (typed : string) : jsval := sanitizeInput (JStr typed).

(** ToNumber of a numeric column that may be NULL. *)
Definition to_number (x : option Z) : Z :=
  match x with
  | Some n => n
  | None => 0
  end.

Definition oneDay : Z := 1000 * 60 * 60 * 24.

(** finalserver.js 470-491: the streaks that [/login] writes back, from
    the instant of the login, the stored [last_login] and the stored
    streaks.  Instants are milliseconds since the epoch. *)
Definition login_streaks (today : Z) (last_login login_streak longest_login_streak : option Z)
    : option Z * option Z :=
  let newStreak :=
    match last_login with
    | Some lastLogin =>
        let diffDays := (today - lastLogin) / oneDay in
        if diffDays =? 1 then Some (to_number login_streak + 1)
        else if diffDays =? 0 then login_streak
        else Some 1
    | None => Some 1
    end in
  let longestStreak := Some (to_number longest_login_streak) in
  let longestStreak :=
    if to_number newStreak >? to_number longestStreak then newStreak else longestStreak in
  (newStreak, longestStreak).

(** finalserver.js 783-791: when the reminder of a contest is due. *)
Definition reminderTime (contestStart now : Z) : Z :=
  if contestStart - now <=? 30 * 60 * 1000 then now else contestStart - 30 * 60000.

(** *** The one-time password of the password reset *)

Record otp_row : Type := OtpRow {
  reset_password_token : option string;
  reset_password_expires : option Z;
  otp_attempts : option Z;
  otp_locked_until : option Z
}.

(** The UPDATE statements of the two routes. *)
Inductive otp_write : Type :=
  | CountAttempt (attempts : Z) (lockedUntil : option Z)
  | ResetPassword (newPassword : string).

Record http_reply : Type := HttpReply { reply_status : nat; reply_message : string }.

(** [user.otp_locked_until && now < new Date(user.otp_locked_until)]. *)
Definition locked_out (user : otp_row) (now : Z) : bool :=
  match otp_locked_until user with
  | Some t => now <? t
  | None => false
  end.

(** [user.reset_password_token === otp]. *)
Definition token_matches (user : otp_row) (otp : jsval) : bool :=
  match reset_password_token user, otp with
  | Some t, JStr o => String.eqb t o
  | _, _ => false
  end.

(** [new Date(user.reset_password_expires)]; the date of NULL is the
    epoch. *)
Definition expires_at (user : otp_row) : Z := to_number (reset_password_expires user).

(** [toISOString().slice(0, 19)]: the instant, to the second. *)
Definition to_the_second (t : Z) : Z := t / 1000 * 1000.

Section OneTimePassword.
(** Whether [pool.execute] fails on the UPDATE. *)
Variable update_fails : bool.

Definition execute (q : otp_write) : M (list otp_write) unit :=
  fun written =>
    if update_fails then (Throw (Error "Database operation failed"), written)
    else (Ok tt, written ++ [q]).

(** finalserver.js 684-719; [rows] is what the SELECT gave. *)
Definition verify_otp (email username otp : jsval) (rows : js_error + list otp_row) (now : Z)
    : M (list otp_write) http_reply :=
  if negb (truthy email) || negb (truthy username) || negb (truthy otp)
  then ret (HttpReply 400 "Missing fields")
  else
    try_catch
      (rows <- query rows ;;
       match rows with
       | [] => ret (HttpReply 400 "Invalid credentials")
       | user :: _ =>
           if locked_out user now
           then ret (HttpReply 429 "Too many attempts. Try again in 24 hours.")
           else if negb (token_matches user otp)
           then
             let attempts := to_number (otp_attempts user) + 1 in
             let lockedUntil :=
               if attempts >=? 5 then Some (to_the_second (now + 24 * 60 * 60 * 1000))
               else None in
             execute (CountAttempt attempts lockedUntil) ;;;
             ret (HttpReply 400 "Invalid OTP")
           else if now >? expires_at user
           then ret (HttpReply 400 "OTP has expired")
           else ret (HttpReply 200 "OTP verified. Proceed to set new password.")
       end)
      (fun err => ret (HttpReply 500 "Server error")).

(** finalserver.js 721-742, for a new password that is a string; the
    hashing of it does not fail. *)
Definition reset_password (email username otp : jsval) (newPassword : string)
    (rows : js_error + list otp_row) (now : Z) : M (list otp_write) http_reply :=
  if negb (truthy email) || negb (truthy username) || negb (truthy otp)
     || str_is_empty newPassword
  then ret (HttpReply 400 "All fields required")
  else
    try_catch
      (rows <- query rows ;;
       match rows with
       | [] => ret (HttpReply 400 "Invalid user")
       | user :: _ =>
           if negb (token_matches user otp) then ret (HttpReply 400 "Invalid OTP")
           else if now >? expires_at user then ret (HttpReply 400 "OTP expired")
           else
             execute (ResetPassword newPassword) ;;;
             ret (HttpReply 200 "Password reset successful")
       end)
      (fun err => ret (HttpReply 500 "Server error")).

End OneTimePassword.

(** *** The reminder job *)

(** A row of the join of [reminders] with its contest and its user. *)
Record reminder_row : Type := ReminderRow {
  rem_id : nat;
  reminder_time : Z;
  reminder_sent : bool;
  rem_email : string;
  contest_name : string
}.

(** A call of the mail API; [mail_reminder] names the reminder it was
    made for. *)
Record mail : Type := Mail {
  mail_reminder : nat;
  mail_to : string;
  mail_subject : string;
  mail_delivered : bool
}.

Record mail_world : Type := MailWorld {
  reminders : list reminder_row;
  mails : list mail
}.

(** What a run of the job meets: the time of the database, and which of
    its calls fail. *)
Record job_env : Type := JobEnv {
  db_now : Z;
  select_fails : bool;
  update_fails_on : nat -> bool;
  mail_fails_for : nat -> bool
}.

(** [WHERE r.reminder_sent = FALSE AND r.reminder_time <= NOW()]. *)
Definition is_due (now : Z) (r : reminder_row) : bool :=
  negb (reminder_sent r) && (reminder_time r <=? now).

(** [UPDATE reminders SET reminder_sent = TRUE WHERE id = ?]. *)
Definition mark_sent (id : nat) (rows : list reminder_row) : list reminder_row :=
  map (fun r => if Nat.eqb (rem_id r) id
                then ReminderRow (rem_id r) (reminder_time r) true (rem_email r) (contest_name r)
                else r) rows.

Section ReminderJob.
Variable env : job_env.

(** finalserver.js 206-224: [sendEmail] returns whether the mail went
    out, and never throws. *)
Definition sendEmail (reminder : nat) (to subject : string) : M mail_world bool :=
  fun w =>
    (Ok (negb (mail_fails_for env reminder)),
     MailWorld (reminders w)
       (mails w ++ [Mail reminder to subject (negb (mail_fails_for env reminder))])).

(** finalserver.js 296-337: the body of [for (const reminder of reminders)]. *)
Definition reminder_body (reminder : reminder_row) : M mail_world ctl :=
  try_catch
    ((if update_fails_on env (rem_id reminder)
      then throw (Error "Database operation failed")
      else modify (fun w => MailWorld (mark_sent (rem_id reminder) (reminders w)) (mails w))) ;;;
     sendEmail (rem_id reminder) (rem_email reminder)
       ("Reminder: " +:+ contest_name reminder +:+ " starts soon!") ;;;
     ret Next)
    (fun err => ret Next).

(** finalserver.js 282-341. *)
Definition checkAndSendReminders : M mail_world unit :=
  try_catch
    (due <- (if select_fails env then throw (Error "Database operation failed")
             else gets (fun w => filter (fun r => is_due (db_now env) r = true) (reminders w))) ;;
     for_of reminder_body due)
    (fun err => ret tt).

End ReminderJob.

(** The mail that the job sends for a row. *)
Definition reminder_mail (env : job_env) (r : reminder_row) : mail :=
  Mail (rem_id r) (rem_email r) ("Reminder: " +:+ contest_name r +:+ " starts soon!")
    (negb (mail_fails_for env (rem_id r))).

(** The rows of a run whose UPDATE goes through. *)
Definition marked_in (env : job_env) (w : mail_world) : list reminder_row :=
  filter (fun r => update_fails_on env (rem_id r) = false)
    (filter (fun r => is_due (db_now env) r = true) (reminders w)).

(** Runs of the job one after the other. *)
Definition run_jobs (envs : list job_env) (w : mail_world) : mail_world :=
  fold_left (fun w env => snd (checkAndSendReminders env w)) envs w.

(** What the job keeps true: ids name one row each, no reminder was
    mailed twice, and whatever was mailed for is a row marked as sent. *)
Definition mailed_once (w : mail_world) : Prop :=
  NoDup (map rem_id (reminders w)) /\
  NoDup (map mail_reminder (mails w)) /\
  forall m, In m (mails w) ->
    exists r, In r (reminders w) /\ rem_id r = mail_reminder m /\ reminder_sent r = true.

(** ** Tactics *)

Ltac unfold_m :=
  unfold bind, ret, gets, modify, throw, try_catch, try_finally, when, or_throw,
    js_get, ws_send, set_buffer, set_fullResponse in *.

Ltac no_user :=
  exists None; split; [done |]; intros u; split; [done |];
  intros (? & ? & ? & ? & ? & ? & ? & ? & [= <-] & ? & ? & ? & ? & ? & ? & ?);
  congruence.

Ltac unfold_w :=
  unfold send_if_open, emit, set_heap, set_activeConnections, set_readyState, set_flights,
    new_AbortController, abort, get_connection in *;
  unfold_m.


(** * Properties *)

(** ** Lines and reads *)

Lemma app_nil_l (s : string) : "" +:+ s = s.
Proof. reflexivity. Qed.

Lemma app_cons (c : ascii) (a b : string) : String c a +:+ b = String c (a +:+ b).
Proof. reflexivity. Qed.

Lemma app_empty_r (s : string) : s +:+ "" = s.
Proof. induction s as [|c s IH]; [done | by rewrite app_cons, IH]. Qed.

Lemma app_assoc_str (a b c : string) : (a +:+ b) +:+ c = a +:+ (b +:+ c).
Proof. induction a as [|x a IH]; [done | by rewrite !app_cons, IH]. Qed.

Lemma split_at_one_line (s : string) :
  one_line s -> split_at "010" s = (s, []).
Proof.
  unfold one_line. induction s as [|c s IH]; simpl; [done |].
  intros Hc. apply orb_false_iff in Hc as [Hc Hs].
  rewrite (IH Hs), Hc. done.
Qed.

Lemma split_at_line (l rest : string) :
  one_line l ->
  split_at "010" (l +:+ newline +:+ rest) =
    (l, fst (split_at "010" rest) :: snd (split_at "010" rest)).
Proof.
  unfold one_line. induction l as [|c l IH].
  - intros _. rewrite app_nil_l. unfold newline. rewrite app_cons, app_nil_l. simpl.
    by destruct (split_at "010" rest).
  - intros Hc. simpl in Hc. apply orb_false_iff in Hc as [Hc Hl].
    rewrite app_cons. simpl. rewrite (IH Hl), Hc. done.
Qed.

Lemma split_joined (ls : list string) (r : string) :
  Forall one_line ls -> one_line r ->
  split "010" (joined ls r) = ls ++ [r].
Proof.
  intros Hls Hr. unfold split.
  induction Hls as [|l ls Hl Hls IH]; simpl.
  - by rewrite split_at_one_line.
  - rewrite (split_at_line l _ Hl).
    destruct (split_at "010" (joined ls r)) as [a b]. simpl.
    by inversion IH.
Qed.

(** Every text is a sequence of finished lines and an unfinished one. *)
Lemma joined_exists (s : string) :
  exists ls r, s = joined ls r /\ Forall one_line ls /\ one_line r.
Proof.
  induction s as [|c s (ls & r & -> & Hls & Hr)].
  - exists [], "". split; [done | split; [constructor | done]].
  - destruct (Ascii.eqb c "010") eqn:Hc.
    + apply Ascii.eqb_eq in Hc as ->.
      exists ("" :: ls), r. split; [done | split; [| done]].
      constructor; [done | done].
    + destruct ls as [|l ls].
      * exists [], (String c r). split; [done | split; [constructor |]].
        unfold one_line in *. simpl. by rewrite Hc.
      * exists (String c l :: ls), r. split; [done | split; [| done]].
        inversion Hls; subst. constructor; [| done].
        unfold one_line in *. simpl. by rewrite Hc.
Qed.

Lemma joined_app (ls1 ls2 : list string) (r : string) :
  joined (ls1 ++ ls2) r = joined ls1 (joined ls2 r).
Proof. unfold joined. by rewrite fold_right_app. Qed.

Lemma joined_append (ls : list string) (r t : string) :
  joined ls r +:+ t = joined ls (r +:+ t).
Proof.
  induction ls as [|l ls IH]; simpl; [done |].
  by rewrite !app_assoc_str, IH.
Qed.

Lemma pop_snoc {A : Type} (l : list A) (x : A) : pop (l ++ [x]) = (Some x, l).
Proof. unfold pop. by rewrite last_snoc, removelast_last. Qed.

Lemma pop_split_joined (ls : list string) (r : string) :
  Forall one_line ls -> one_line r ->
  pop (split "010" (joined ls r)) = (Some r, ls).
Proof. intros Hls Hr. by rewrite split_joined, pop_snoc. Qed.

(** A decomposition into lines is unique. *)
Lemma joined_inj (ls1 ls2 : list string) (r1 r2 : string) :
  Forall one_line ls1 -> one_line r1 -> Forall one_line ls2 -> one_line r2 ->
  joined ls1 r1 = joined ls2 r2 -> ls1 = ls2 /\ r1 = r2.
Proof.
  intros H1 Hr1 H2 Hr2 Heq.
  assert (ls1 ++ [r1] = ls2 ++ [r2]) as Happ.
  { rewrite <- (split_joined ls1 r1), <- (split_joined ls2 r2) by done. by rewrite Heq. }
  by apply app_inj_tail in Happ.
Qed.


(** ** The decode loop of stream.js *)

(** Only objects and arrays can be without a text, and they are truthy. *)
Lemma no_text_truthy (v : jsval) : js_to_string v = None -> truthy v = true.
Proof. destruct v as [| |[]| | | |]; done. Qed.

Section DecodeLoop.
Context `{JsRuntime}.

Lemma line_body_eq (l : string) (s : relay_state) :
  line_body l s =
    match line_record l with
    | None => (Ok Next, s)
    | Some rd => (Ok (fst (apply_record rd s)), snd (apply_record rd s))
    end.
Proof.
  unfold line_body, line_record.
  destruct (str_is_empty (trim l)); [done |].
  unfold_m. destruct s as [b f t].
  destruct (JSON_parse l) as [[| |?|?|?|?|fields]|]; simpl; try done.
  unfold apply_record, text_of.
  destruct (js_to_string (field "response" fields)) as [text|] eqn:Ht; simpl.
  - destruct (truthy (field "response" fields)) eqn:Hr; simpl;
      destruct (truthy (field "done" fields)) eqn:Hd; simpl; by rewrite ?Hr, ?Hd, ?Ht.
  - by rewrite (no_text_truthy _ Ht).
Qed.

Lemma line_body_with_buffer (l b : string) (s : relay_state) :
  line_body l (with_buffer b s) =
    (fst (line_body l s), with_buffer b (snd (line_body l s))).
Proof.
  rewrite !line_body_eq.
  destruct (line_record l) as [[r d]|]; [| done].
  unfold apply_record, with_buffer. simpl.
  by destruct (truthy r), (truthy d).
Qed.

Lemma for_of_with_buffer (ls : list string) (b : string) (s : relay_state) :
  for_of line_body ls (with_buffer b s) =
    (fst (for_of line_body ls s), with_buffer b (snd (for_of line_body ls s))).
Proof.
  revert s. induction ls as [|l ls IH]; intros s; [done |].
  simpl. unfold bind. rewrite line_body_with_buffer.
  destruct (line_body l s) as [[[|]|e] s1]; simpl; [apply IH | done | done].
Qed.

Lemma for_of_returns (ls : list string) (s : relay_state) :
  fst (for_of line_body ls s) = Ok tt.
Proof.
  revert s. induction ls as [|l ls IH]; intros s; [done |].
  simpl. unfold bind. rewrite line_body_eq.
  destruct (line_record l) as [rd|]; simpl; [| apply IH].
  destruct (fst (apply_record rd s)); [apply IH | done].
Qed.

Lemma line_body_go_on (l : string) (s : relay_state) :
  completes l = false -> fst (line_body l s) = Ok Next.
Proof.
  unfold completes. rewrite line_body_eq.
  destruct (line_record l) as [[r d]|]; [| done].
  intros Hd. unfold apply_record. by rewrite Hd.
Qed.

(** Lines that do not complete the answer are worked off one after the
    other, wherever the reads cut them. *)
Lemma for_of_app (ls1 ls2 : list string) (s : relay_state) :
  Forall (fun l => completes l = false) ls1 ->
  for_of line_body (ls1 ++ ls2) s =
    for_of line_body ls2 (snd (for_of line_body ls1 s)).
Proof.
  intros Hls. revert s. induction Hls as [|l ls1 Hl Hls IH]; intros s; [done |].
  simpl. unfold bind.
  pose proof (line_body_go_on l s Hl) as Hgo.
  destruct (line_body l s) as [r s1]. simpl in Hgo. subst r. apply IH.
Qed.

Lemma on_chunk_eq (chunk : string) (s : relay_state) (ls : list string) (r : string) :
  buffer s +:+ chunk = joined ls r -> Forall one_line ls -> one_line r ->
  on_chunk chunk s = (Ok tt, with_buffer r (snd (for_of line_body ls s))).
Proof.
  intros Heq Hls Hr. unfold on_chunk. unfold_m.
  rewrite Heq, pop_split_joined by done. simpl.
  change (RelayState r (fullResponse s) (trace s)) with (with_buffer r s).
  rewrite for_of_with_buffer.
  pose proof (for_of_returns ls s) as Hret.
  destruct (for_of line_body ls s) as [res s1]. simpl in *. by subst res.
Qed.

Lemma with_buffer_same (s : relay_state) : with_buffer (buffer s) s = s.
Proof. by destruct s. Qed.

Lemma removelast_app_ne {A : Type} (l1 l2 : list A) :
  l2 <> [] -> removelast (l1 ++ l2) = l1 ++ removelast l2.
Proof. intros. by apply removelast_app. Qed.

(** The carry-over buffer: when no line but the last one completes the
    answer, the reads of a body do what one pass over its lines does,
    and leave the unfinished line in the buffer. *)
Lemma read_loop_lines (cs : list string) (s : relay_state) (ls : list string) (r : string) :
  one_line (buffer s) ->
  buffer s +:+ str_concat cs = joined ls r ->
  Forall one_line ls -> one_line r ->
  Forall (fun l => completes l = false) (removelast ls) ->
  read_loop cs None s = (Ok tt, with_buffer r (snd (for_of line_body ls s))).
Proof.
  revert s ls r. induction cs as [|c cs IH]; intros s ls r Hb Heq Hls Hr Hgo.
  - simpl in Heq. rewrite app_empty_r in Heq.
    destruct (joined_inj [] ls (buffer s) r) as [<- <-]; try done.
    simpl. unfold ret. by rewrite with_buffer_same.
  - simpl in Heq.
    destruct (joined_exists (buffer s +:+ c)) as (ls1 & r1 & H1 & Hls1 & Hr1).
    destruct (joined_exists (r1 +:+ str_concat cs)) as (ls2 & r2 & H2 & Hls2 & Hr2).
    assert (joined ls r = joined (ls1 ++ ls2) r2) as Hall.
    { rewrite <- Heq, <- app_assoc_str, H1, joined_append, H2. by rewrite joined_app. }
    apply joined_inj in Hall as [-> ->]; [| done | done | by apply Forall_app | done].
    simpl. unfold bind at 1. rewrite (on_chunk_eq c s ls1 r1) by done.
    destruct ls2 as [|l2 ls2'] eqn:E2.
    + rewrite (IH _ [] r2); [| done | done | done | done | done].
      simpl. unfold ret. simpl. by rewrite app_nil_r.
    + rewrite removelast_app_ne in Hgo by done.
      apply Forall_app in Hgo as [Hgo1 Hgo2].
      rewrite (IH _ (l2 :: ls2') r2); [| done | done | done | done | done].
      rewrite for_of_with_buffer, for_of_app by done. done.
Qed.

End DecodeLoop.


Section Fragments.
Context `{JsRuntime}.

Lemma fragment_line_record (l x : string) :
  fragment_line l x ->
  exists d, line_record l = Some (JStr x, d) /\ truthy d = false.
Proof.
  intros (fields & (_ & Hb & Hp) & Hr & Hd). exists (field "done" fields).
  unfold line_record. by rewrite Hb, Hp, Hr.
Qed.

Lemma completion_line_record (l : string) :
  completion_line l ->
  exists r d, line_record l = Some (r, d) /\ truthy r = false /\ truthy d = true.
Proof.
  intros (fields & (_ & Hb & Hp) & Hd & Hr).
  exists (field "response" fields), (field "done" fields).
  unfold line_record. rewrite Hb, Hp.
  destruct (js_to_string (field "response" fields)) eqn:Ht; [done |].
  apply no_text_truthy in Ht. congruence.
Qed.

Lemma fragment_lines_go_on (ls xs : list string) :
  Forall2 fragment_line ls xs ->
  Forall (fun l => completes l = false) ls /\ Forall one_line ls.
Proof.
  induction 1 as [|l x ls xs Hl _ [IH1 IH2]]; [by split |].
  split; constructor; try done.
  - unfold completes. by destruct (fragment_line_record l x Hl) as (d & -> & Hd).
  - by destruct Hl as (fields & (Hone & _) & _).
Qed.

Lemma nonempty_fragments_cons (x : string) (xs : list string) :
  nonempty_fragments (x :: xs) =
    if str_is_empty x then nonempty_fragments xs else x :: nonempty_fragments xs.
Proof.
  unfold nonempty_fragments. rewrite filter_cons.
  destruct (decide (x <> "")) as [Hx|Hx]; destruct x; simpl; try done.
  by destruct Hx.
Qed.

(** One pass over the lines of [response] records. *)
Lemma for_of_fragments (ls xs : list string) (s : relay_state) :
  Forall2 fragment_line ls xs ->
  for_of line_body ls s =
    (Ok tt,
     RelayState (buffer s) (fullResponse s +:+ str_concat xs)
       (trace s ++ map (fun x => WsSend (EnvStream (JStr x))) (nonempty_fragments xs))).
Proof.
  intros Hls. revert s. induction Hls as [|l x ls xs Hl _ IH]; intros s.
  - simpl. unfold ret. rewrite app_empty_r, app_nil_r. by destruct s.
  - simpl. unfold bind at 1. rewrite line_body_eq.
    destruct (fragment_line_record l x Hl) as (d & -> & Hd).
    unfold apply_record. rewrite Hd. simpl. rewrite nonempty_fragments_cons.
    destruct (str_is_empty x) eqn:Hx; simpl; rewrite IH; simpl.
    + destruct x; [| done]. done.
    + by rewrite app_assoc_str, <- app_assoc.
Qed.

Lemma sent_of_app (t1 t2 : list obs) : sent_of (t1 ++ t2) = sent_of t1 ++ sent_of t2.
Proof. unfold sent_of. apply omap_app. Qed.

Lemma sent_of_streams (xs : list string) :
  sent_of (map (fun x => WsSend (EnvStream (JStr x))) xs) =
    map (fun x => EnvStream (JStr x)) xs.
Proof. induction xs as [|x xs IH]; [done |]. simpl. by rewrite <- IH. Qed.

(** What the read loop does on a body of [response] records and a final
    [done] record, whatever the reads. *)
Lemma read_loop_fragments (cs xs ls : list string) (d : string) (t : list obs) :
  Forall2 fragment_line ls xs ->
  completion_line d ->
  str_concat cs = joined (ls ++ [d]) "" ->
  read_loop cs None (RelayState "" "" t) =
    (Ok tt,
     RelayState "" (str_concat xs)
       (t ++ map (fun x => WsSend (EnvStream (JStr x))) (nonempty_fragments xs)
          ++ [WsSend (EnvComplete (str_concat xs) false)])).
Proof.
  intros Hls Hd Hcs.
  destruct (fragment_lines_go_on ls xs Hls) as [Hgo Hone].
  rewrite (read_loop_lines cs _ (ls ++ [d]) ""); simpl; try done.
  - rewrite for_of_app by done. rewrite (for_of_fragments ls xs) by done. simpl.
    unfold bind. rewrite line_body_eq.
    destruct (completion_line_record d Hd) as (r & dv & -> & Hr & Hdv).
    unfold apply_record. rewrite Hr, Hdv. simpl.
    unfold with_buffer. simpl. by rewrite <- app_assoc.
  - apply Forall_app. split; [done |].
    constructor; [by destruct Hd as (fields & (Hd1 & _) & _) | done].
  - by rewrite removelast_last.
Qed.

End Fragments.


Section RelayTheorems.
Context `{JsRuntime}.

Lemma stream_on_message_streams (cookie : option string) (cs : list string) (input : string) :
  stream_on_message cookie (streams cs) input initial_relay_state =
    try_catch
      (read_loop cs None)
      (fun error => ws_send (EnvError (err_message error)))
      (RelayState "" "" [CallUpstream (GenRequest (trim input) None)]).
Proof. reflexivity. Qed.

Lemma final_on_message_streams (cookie : option string) (cs : list string) (input : string) :
  isCodeRelated (trim input) = true ->
  final_on_message cookie (streams cs) input initial_relay_state =
    try_catch
      (read_loop cs None)
      (fun error => ws_send (EnvError (err_message error)))
      (RelayState "" ""
         [CallUpstream
            (GenRequest (systemPrompt +:+ String "010" (String "010" "User: ") +:+ trim input)
               None)]).
Proof. intros Hc. unfold final_on_message. rewrite Hc. reflexivity. Qed.

(** The records of the claim, with nothing but the one field, are
    fragment and completion lines. *)
Lemma plain_fragment_line (l x : string) :
  is_record l (JObj [("response", JStr x)]) -> fragment_line l x.
Proof. intros Hl. by exists [("response", JStr x)]. Qed.

Lemma plain_completion_line (d : string) :
  is_record d (JObj [("done", JBool true)]) -> completion_line d.
Proof. intros Hd. by exists [("done", JBool true)]. Qed.

(** C1 (amended).  For every body of N lines with the records
    [{response: x_i}] followed by one line with the record
    [{done: true}] (the records may have further fields), each ended by
    a line feed and cut into reads in any way, the relay of stream.js
    sends the non-empty fragments among x_1 .. x_N in order, one
    [stream] envelope each (an empty fragment is not sent), and then
    exactly one [complete] envelope, whose content is
    x_1 ++ ... ++ x_N.  The filtered relay of finalserver.js does the
    same for a prompt that passes its filter. *)
Theorem relay_forwards_fragments (cookie : option string) (input : string)
    (cs xs ls : list string) (d : string) :
  Forall2 fragment_line ls xs ->
  completion_line d ->
  str_concat cs = joined (ls ++ [d]) "" ->
  sent_of (run_handler (stream_on_message cookie (streams cs) input)) =
    map (fun x => EnvStream (JStr x)) (nonempty_fragments xs)
      ++ [EnvComplete (str_concat xs) false] /\
  (isCodeRelated (trim input) = true ->
   sent_of (run_handler (final_on_message cookie (streams cs) input)) =
     map (fun x => EnvStream (JStr x)) (nonempty_fragments xs)
       ++ [EnvComplete (str_concat xs) false]).
Proof.
  intros Hls Hd Hcs. split; [| intros Hcode]; unfold run_handler.
  - rewrite stream_on_message_streams. unfold try_catch.
    rewrite (read_loop_fragments cs xs ls d) by done. simpl.
    rewrite sent_of_app. simpl. rewrite sent_of_streams. done.
  - rewrite final_on_message_streams by done. unfold try_catch.
    rewrite (read_loop_fragments cs xs ls d) by done. simpl.
    rewrite sent_of_app. simpl. rewrite sent_of_streams. done.
Qed.

End RelayTheorems.

Lemma relay_forwards_fragments_witness :
  sent_of (run_handler
    (@stream_on_message example_runtime None
       (streams [str_take 9 (response_line "Hel");
                 str_drop 9 (response_line "Hel") +:+ newline +:+ response_line "" +:+ newline
                   +:+ response_line "lo" +:+ newline +:+ done_line +:+ newline])
       "sort a list")) =
    [EnvStream (JStr "Hel"); EnvStream (JStr "lo"); EnvComplete "Hello" false].
Proof.
  refine (proj1 (@relay_forwards_fragments example_runtime None "sort a list" _
            ["Hel"; ""; "lo"]
            [response_line "Hel"; response_line ""; response_line "lo"] done_line _ _ _)).
  - repeat (constructor; [apply (@plain_fragment_line example_runtime); repeat constructor |]).
    constructor.
  - apply (@plain_completion_line example_runtime). repeat constructor.
  - vm_compute. reflexivity.
Defined.

(** A record with an empty fragment before the completion record: the
    socket gets the [complete] envelope only. *)
Lemma forwards_every_fragment_fails : ~ @forwards_every_fragment example_runtime.
Proof.
  intros Hall.
  specialize (Hall None "sort a list"
                [response_line "" +:+ newline +:+ done_line +:+ newline]
                [""] [response_line ""] done_line).
  assert (sent_of (run_handler
            (@stream_on_message example_runtime None
               (streams [response_line "" +:+ newline +:+ done_line +:+ newline])
               "sort a list")) = [EnvComplete "" false]) as Hrun by (vm_compute; reflexivity).
  rewrite Hrun in Hall.
  assert ([EnvComplete "" false] = [EnvStream (JStr ""); EnvComplete "" false]) as Habs.
  { apply Hall; [| | vm_compute; reflexivity]; repeat constructor. }
  discriminate Habs.
Qed.


Section Malformed.
Context `{JsRuntime}.

Lemma line_record_malformed (bad : string) :
  JSON_parse bad = None -> line_record bad = None.
Proof.
  intros Hbad. unfold line_record. rewrite Hbad.
  by destruct (str_is_empty (trim bad)).
Qed.

Lemma for_of_skip (la lb : list string) (bad : string) (s : relay_state) :
  line_record bad = None ->
  for_of line_body (la ++ bad :: lb) s = for_of line_body (la ++ lb) s.
Proof.
  intros Hbad. revert s. induction la as [|l la IH]; intros s; simpl; unfold bind.
  - by rewrite line_body_eq, Hbad.
  - destruct (line_body l s) as [[[|]|e] s1]; [apply IH | done | done].
Qed.

Lemma removelast_skip_go_on (l1 l2 : list string) (bad : string) :
  completes bad = false ->
  Forall (fun l => completes l = false) (l1 ++ removelast l2) ->
  Forall (fun l => completes l = false) (removelast (l1 ++ bad :: l2)) /\
  Forall (fun l => completes l = false) (removelast (l1 ++ l2)).
Proof.
  intros Hbad Hgo. apply Forall_app in Hgo as [H1 H2].
  rewrite removelast_app_ne by done. split.
  - apply Forall_app. split; [done |].
    destruct l2 as [|l l2]; [constructor |].
    change (removelast (bad :: l :: l2)) with (bad :: removelast (l :: l2)).
    by constructor.
  - destruct l2 as [|l l2].
    + rewrite app_nil_r. clear H2.
      induction H1 as [|a l1 Ha H1 IH]; [constructor |].
      destruct l1 as [|b l1]; [constructor |].
      change (removelast (a :: b :: l1)) with (a :: removelast (b :: l1)).
      by constructor.
    + rewrite removelast_app_ne by done. by apply Forall_app.
Qed.

(** A read never throws: it leaves the unfinished line in the buffer
    and works off the finished ones. *)
Lemma on_chunk_lines (chunk : string) (s : relay_state) :
  exists ls r, buffer s +:+ chunk = joined ls r /\ Forall one_line ls /\ one_line r /\
               on_chunk chunk s = (Ok tt, with_buffer r (snd (for_of line_body ls s))).
Proof.
  destruct (joined_exists (buffer s +:+ chunk)) as (ls & r & Heq & Hls & Hr).
  exists ls, r. repeat split; try done. by apply on_chunk_eq.
Qed.

Lemma read_loop_app (cs1 cs2 : list string) (e : option js_error) (s : relay_state) :
  read_loop (cs1 ++ cs2) e s = read_loop cs2 e (snd (read_loop cs1 None s)).
Proof.
  revert s. induction cs1 as [|c cs1 IH]; intros s; [done |].
  simpl. unfold bind.
  destruct (on_chunk_lines c s) as (ls & r & _ & _ & _ & ->). apply IH.
Qed.

(** Whatever the lines did, the buffer holds the unfinished line of the
    text read so far. *)
Lemma read_loop_buffer (cs : list string) (s : relay_state) (ls : list string) (r : string) :
  one_line (buffer s) ->
  buffer s +:+ str_concat cs = joined ls r -> Forall one_line ls -> one_line r ->
  buffer (snd (read_loop cs None s)) = r.
Proof.
  revert s ls. induction cs as [|c cs IH]; intros s ls Hb Heq Hls Hr.
  - simpl in *. rewrite app_empty_r in Heq.
    by destruct (joined_inj [] ls (buffer s) r) as [_ <-].
  - simpl in Heq. simpl. unfold bind.
    destruct (on_chunk_lines c s) as (l1 & r1 & H1 & Hl1 & Hr1 & ->). simpl.
    destruct (joined_exists (r1 +:+ str_concat cs)) as (l2 & r2 & H2 & Hl2 & Hr2).
    assert (joined ls r = joined (l1 ++ l2) r2) as Hall.
    { rewrite <- Heq, <- app_assoc_str, H1, joined_append, H2. by rewrite joined_app. }
    apply joined_inj in Hall as [_ ->]; [| done | done | by apply Forall_app | done].
    by apply (IH _ l2).
Qed.

(** A malformed line that comes whole within one read. *)
Lemma read_loop_skip_in_read (cs1 cs2 : list string) (a b bad : string)
    (la : list string) (e : option js_error) (s : relay_state) :
  line_record bad = None -> one_line bad -> one_line (buffer s) ->
  Forall one_line la -> buffer s +:+ str_concat cs1 +:+ a = joined la "" ->
  read_loop (cs1 ++ (a +:+ bad +:+ newline +:+ b) :: cs2) e s =
  read_loop (cs1 ++ (a +:+ b) :: cs2) e s.
Proof.
  intros Hbad Hone Hb Hla Heq. rewrite !read_loop_app.
  set (s1 := snd (read_loop cs1 None s)).
  destruct (joined_exists (buffer s +:+ str_concat cs1)) as (l1 & r1 & H1 & Hl1 & Hr1).
  assert (buffer s1 = r1) as Hs1 by (by apply (read_loop_buffer cs1 s l1 r1)).
  destruct (joined_exists (r1 +:+ a)) as (l2 & r2 & H2 & Hl2 & Hr2).
  assert (joined la "" = joined (l1 ++ l2) r2) as Hall.
  { rewrite <- Heq, <- app_assoc_str, H1, joined_append, H2. by rewrite joined_app. }
  apply joined_inj in Hall as [_ <-]; [| done | done | by apply Forall_app | done].
  destruct (joined_exists b) as (lb & rb & -> & Hlb & Hrb).
  simpl. unfold bind.
  rewrite (on_chunk_eq (a +:+ bad +:+ newline +:+ joined lb rb) s1 (l2 ++ bad :: lb) rb);
    [| | by apply Forall_app; split; [| constructor] | done].
  - rewrite (on_chunk_eq (a +:+ joined lb rb) s1 (l2 ++ lb) rb);
      [| | by apply Forall_app | done].
    + by rewrite for_of_skip.
    + rewrite Hs1, <- app_assoc_str, H2, joined_append, joined_app. done.
  - rewrite Hs1, <- app_assoc_str, H2, joined_append, joined_app. done.
Qed.

(** What the read loop does on a body of [response] records around a
    line that the loop reads nothing off, with a final [done] record,
    whatever the reads. *)
Lemma read_loop_around_skipped (cs la lb xa xb : list string) (bad d : string)
    (t : list obs) :
  line_record bad = None -> one_line bad ->
  Forall2 fragment_line la xa -> Forall2 fragment_line lb xb ->
  completion_line d ->
  str_concat cs = joined (la ++ bad :: lb ++ [d]) "" ->
  read_loop cs None (RelayState "" "" t) =
    (Ok tt,
     RelayState "" (str_concat (xa ++ xb))
       (t ++ map (fun x => WsSend (EnvStream (JStr x))) (nonempty_fragments (xa ++ xb))
          ++ [WsSend (EnvComplete (str_concat (xa ++ xb)) false)])).
Proof.
  intros Hrec Hone Hla Hlb Hd Hcs.
  destruct (fragment_lines_go_on la xa Hla) as [Hgoa Honea].
  destruct (fragment_lines_go_on lb xb Hlb) as [Hgob Honeb].
  assert (one_line d) as Honed by (by destruct Hd as (fields & (Hd1 & _) & _)).
  assert (completes bad = false) as Hc by (unfold completes; by rewrite Hrec).
  rewrite (read_loop_lines cs _ (la ++ bad :: lb ++ [d]) ""); simpl; try done.
  - rewrite for_of_skip by done.
    rewrite <- (read_loop_lines [joined (la ++ lb ++ [d]) ""] (RelayState "" "" t)
                  (la ++ lb ++ [d]) ""); simpl; try done.
    + rewrite app_assoc.
      apply (read_loop_fragments [joined ((la ++ lb) ++ [d]) ""] (xa ++ xb) (la ++ lb) d);
        [by apply Forall2_app | done |].
      simpl. by rewrite app_empty_r.
    + by rewrite app_empty_r.
    + repeat (apply Forall_app; split; try done). by constructor.
    + rewrite app_assoc, removelast_last. by apply Forall_app.
  - apply Forall_app. split; [done |]. constructor; [done |].
    apply Forall_app. split; [done | by constructor].
  - change (bad :: lb ++ [d]) with ((bad :: lb) ++ [d]).
    rewrite app_assoc, removelast_last. apply Forall_app. split; [done |].
    by constructor.
Qed.

(** C8.  A line that [JSON.parse] rejects is skipped without a word: the
    body of the loop goes on to the next line with nothing sent and
    nothing changed, so the loop does on the lines around it what it
    does without it.  For the relay as a whole: in a body of [response]
    records with one malformed line among them and a final [done]
    record, cut into reads in any way, every fragment before and after
    the malformed line that is not the empty string is forwarded, in
    order, and the [complete] envelope carries all of them; in any body, a malformed line that
    comes within one read can be taken out without changing what the
    relay does; and in a body in which no line but the last one
    completes the answer, the reads may cut the text anywhere, also
    through the malformed line. *)
Theorem malformed_line_skipped (bad : string) :
  JSON_parse bad = None ->
  (forall s, line_body bad s = (Ok Next, s)) /\
  (forall la lb s,
     for_of line_body (la ++ bad :: lb) s = for_of line_body (la ++ lb) s) /\
  (forall cookie input cs cs' l1 l2,
     one_line bad -> Forall one_line (l1 ++ l2) ->
     Forall (fun l => completes l = false) (l1 ++ removelast l2) ->
     str_concat cs = joined (l1 ++ bad :: l2) "" ->
     str_concat cs' = joined (l1 ++ l2) "" ->
     run_handler (stream_on_message cookie (streams cs) input) =
     run_handler (stream_on_message cookie (streams cs') input)) /\
  (forall cookie input cs1 cs2 a b la,
     one_line bad -> Forall one_line la -> str_concat cs1 +:+ a = joined la "" ->
     run_handler (stream_on_message cookie
                    (streams (cs1 ++ (a +:+ bad +:+ newline +:+ b) :: cs2)) input) =
     run_handler (stream_on_message cookie (streams (cs1 ++ (a +:+ b) :: cs2)) input)) /\
  (forall cookie input cs la lb xa xb d,
     one_line bad ->
     Forall2 fragment_line la xa -> Forall2 fragment_line lb xb -> completion_line d ->
     str_concat cs = joined (la ++ bad :: lb ++ [d]) "" ->
     sent_of (run_handler (stream_on_message cookie (streams cs) input)) =
       map (fun x => EnvStream (JStr x)) (nonempty_fragments (xa ++ xb))
         ++ [EnvComplete (str_concat (xa ++ xb)) false]).
Proof.
  intros Hbad. pose proof (line_record_malformed bad Hbad) as Hrec.
  split; [| split; [| split; [| split]]].
  - intros s. by rewrite line_body_eq, Hrec.
  - intros la lb s. by apply for_of_skip.
  - intros cookie input cs cs' l1 l2 Hone Hlines Hgo Hcs Hcs'.
    assert (completes bad = false) as Hc by (unfold completes; by rewrite Hrec).
    destruct (removelast_skip_go_on l1 l2 bad Hc Hgo) as [Hgo1 Hgo2].
    apply Forall_app in Hlines as [Hl1 Hl2].
    unfold run_handler. rewrite !stream_on_message_streams. unfold try_catch.
    rewrite (read_loop_lines cs _ (l1 ++ bad :: l2) ""); simpl; try done.
    + rewrite (read_loop_lines cs' _ (l1 ++ l2) ""); simpl; try done.
      * by rewrite for_of_skip.
      * by apply Forall_app.
    + apply Forall_app. split; [done | by constructor].
  - intros cookie input cs1 cs2 a b la Hone Hla Heq.
    unfold run_handler. rewrite !stream_on_message_streams. unfold try_catch.
    by rewrite (read_loop_skip_in_read cs1 cs2 a b bad la).
  - intros cookie input cs la lb xa xb d Hone Hla Hlb Hd Hcs.
    unfold run_handler. rewrite stream_on_message_streams. unfold try_catch.
    rewrite (read_loop_around_skipped cs la lb xa xb bad d) by done. simpl.
    rewrite sent_of_app. simpl. by rewrite sent_of_streams.
Qed.

End Malformed.

Lemma malformed_line_skipped_witness :
  sent_of (run_handler
    (@stream_on_message example_runtime None
       (streams [response_line "a" +:+ newline +:+ "<htm";
                 "l>" +:+ newline +:+ response_line "b" +:+ newline +:+ done_line +:+ newline])
       "sort")) =
  [EnvStream (JStr "a"); EnvStream (JStr "b"); EnvComplete "ab" false] /\
  run_handler
    (@stream_on_message example_runtime None
       (streams [response_line "a" +:+ newline +:+ "<htm";
                 "l>" +:+ newline +:+ response_line "b" +:+ newline +:+ done_line +:+ newline])
       "sort") =
  run_handler
    (@stream_on_message example_runtime None
       (streams [response_line "a" +:+ newline +:+ response_line "b" +:+ newline;
                 done_line +:+ newline])
       "sort").
Proof.
  split.
  - refine (proj2 (proj2 (proj2 (proj2 (@malformed_line_skipped example_runtime "<html>" _))))
              None "sort" _ [response_line "a"] [response_line "b"] ["a"] ["b"] done_line
              _ _ _ _ _).
    + reflexivity.
    + reflexivity.
    + repeat constructor.
      exists [("response", JStr "a")]. vm_compute. repeat split; reflexivity.
    + repeat constructor.
      exists [("response", JStr "b")]. vm_compute. repeat split; reflexivity.
    + exists [("done", JBool true)]. vm_compute. repeat split; reflexivity.
    + vm_compute. reflexivity.
  - refine (proj1 (proj2 (proj2 (@malformed_line_skipped example_runtime "<html>" _)))
              None "sort" _ _ [response_line "a"] [response_line "b"; done_line] _ _ _ _ _).
    + reflexivity.
    + reflexivity.
    + repeat constructor.
    + repeat constructor.
    + vm_compute. reflexivity.
    + vm_compute. reflexivity.
Defined.


(** ** Reads that cut a record, and reads after the completion *)

(** C2 (the code departs from it).  The first variant of llm1.js splits
    each read on its own and keeps no buffer: of the record with the
    response x, cut after its first six characters, both pieces are
    rejected by [JSON.parse] and the fragment never reaches the socket,
    while the same bytes in one read are forwarded.  stream.js, which
    carries the unfinished line over, forwards the fragment from the
    two reads; there the cut of the reads still shows after a
    completion record: a record that follows it is dropped when it
    comes in the same read and forwarded when it comes in the next. *)
Theorem first_variant_drops_cut_record :
  let piece1 := str_take 6 (response_line "x") in
  let piece2 := str_drop 6 (response_line "x") +:+ newline in
  socket_sends (log (@run example_runtime "1700000000000" (connected "1700000000000" ∅ ∅ 0)
    [OnMessage "hi"; FetchSettled 0 head_ok;
     ReadSettled 0 (ReadValue piece1); ReadSettled 0 (ReadValue piece2);
     ReadSettled 0 ReadDone]))
  = [JStr HI_MESSAGE; JStr DONE_MESSAGE] /\
  socket_sends (log (@run example_runtime "1700000000000" (connected "1700000000000" ∅ ∅ 0)
    [OnMessage "hi"; FetchSettled 0 head_ok;
     ReadSettled 0 (ReadValue (piece1 +:+ piece2));
     ReadSettled 0 ReadDone]))
  = [JStr HI_MESSAGE; JStr "x"; JStr DONE_MESSAGE] /\
  sent_of (run_handler
    (@stream_on_message example_runtime None (streams [piece1; piece2]) "hi"))
  = [EnvStream (JStr "x")] /\
  sent_of (run_handler (@stream_on_message example_runtime None
    (streams [done_line +:+ newline +:+ response_line "x" +:+ newline]) "hi"))
  = [EnvComplete "" false] /\
  sent_of (run_handler (@stream_on_message example_runtime None
    (streams [done_line +:+ newline; response_line "x" +:+ newline]) "hi"))
  = [EnvComplete "" false; EnvStream (JStr "x")].
Proof. vm_compute. repeat split; reflexivity. Qed.

(** C5 (the code departs from it).  The [break] on a completion record
    leaves the [for] over the lines of one read, not the [while] over
    the reads.  stream.js sends the [complete] envelope with the
    transcript so far and then goes on reading: a record that comes in a
    later read is still forwarded, a second completion record is
    answered by a second [complete] envelope, and only the lines left in
    the same read are dropped.  It does not look at the [error] field.
    The gated variant of llm1.js sends its error notice on a record with
    an [error] field, and likewise goes on with the next read. *)
Theorem reads_continue_after_completion :
  sent_of (run_handler (@stream_on_message example_runtime None
    (streams [done_line +:+ newline; response_line "x" +:+ newline]) "hi"))
  = [EnvComplete "" false; EnvStream (JStr "x")] /\
  sent_of (run_handler (@stream_on_message example_runtime None
    (streams [done_line +:+ newline +:+ response_line "x" +:+ newline]) "hi"))
  = [EnvComplete "" false] /\
  sent_of (run_handler (@stream_on_message example_runtime None
    (streams [response_line "a" +:+ newline +:+ done_line +:+ newline;
              done_line +:+ newline]) "hi"))
  = [EnvStream (JStr "a"); EnvComplete "a" false; EnvComplete "a" false] /\
  sent_of (run_handler (@stream_on_message example_runtime None
    (streams [error_line "boom" +:+ newline; response_line "x" +:+ newline]) "hi"))
  = [EnvStream (JStr "x")] /\
  g_actions (snd (@gated_read_loop example_runtime
    [(OPEN, done_line +:+ newline); (OPEN, response_line "x" +:+ newline)] None
    (GatedState OPEN "" "" [])))
  = [Sent (JStr RESPONSE_COMPLETE); Sent (JStr "x")] /\
  g_actions (snd (@gated_read_loop example_runtime
    [(OPEN, error_line "boom" +:+ newline); (OPEN, response_line "x" +:+ newline)] None
    (GatedState OPEN "" "" [])))
  = [Sent (JStr (error_notice (JStr "boom"))); Sent (JStr "x")].
Proof. vm_compute. repeat split; reflexivity. Qed.


(** ** Session validation *)

Section Validation.
Context `{JsRuntime} `{SessionStore}.

Lemma clean_sessionId_state {S : Type} (captured : string) (s : S) :
  snd (clean_sessionId captured s) = s.
Proof.
  unfold clean_sessionId. unfold_m.
  destruct (startsWith (if startsWith captured "s:" then _ else _) "s%3A"); [| done].
  by destruct (decodeURIComponent _).
Qed.

(** [validateUserSession] returns, and returns a row exactly when every
    step succeeded. *)
Lemma validate_outcome {S : Type} (cookieHeader : option string) (s : S) :
  exists r, validateUserSession cookieHeader s = (Ok r, s) /\
            (forall u, r = Some u <-> resolves_to s cookieHeader u).
Proof.
  unfold validateUserSession, resolves_to.
  destruct cookieHeader as [h|]; cycle 1.
  { exists None. split; [done |]. intros u. split; [done |].
    by intros (? & ? & ? & ? & ? & ? & ? & ? & ? & _). }
  unfold try_catch at 1.
  destruct (str_is_empty h) eqn:Hh.
  { exists None. split; [done |]. intros u. split; [done |].
    intros (? & ? & ? & ? & ? & ? & ? & ? & [= <-] & Hm & _).
    destruct h; done. }
  destruct (match_sessionId h) as [captured|] eqn:Hm; [| no_user].
  unfold bind at 1.
  pose proof (clean_sessionId_state captured s) as Hst.
  destruct (clean_sessionId captured s) as [[sid|e] s1] eqn:Hclean;
    simpl in Hst; subst s1; [| no_user].
  unfold query, bind at 1.
  destruct (select_session_data sid) as [e|[|data rows]] eqn:Hq; [no_user | no_user |].
  unfold ret at 1. unfold or_throw, bind at 1.
  destruct (JSON_parse data) as [sessionData|] eqn:Hp; [| no_user].
  unfold ret at 1. unfold js_get, bind at 1.
  destruct sessionData as [| |?|?|?|?|fields]; try no_user.
  unfold ret at 1.
  unfold field. destruct (assoc "userId" fields) as [uid|] eqn:Hu; [| no_user].
  destruct (truthy uid) eqn:Ht; simpl; [| no_user].
  unfold bind at 1.
  destruct (select_user uid) as [e|[|u0 users]] eqn:Hus; [no_user | no_user |].
  exists (Some u0). split; [done |]. intros u. split.
  - intros [= <-]. by exists h, captured, sid, data, rows, fields, uid, users.
  - intros (? & ? & ? & ? & ? & ? & ? & ? & [= <-] & ? & ? & ? & ? & ? & ? & ?).
    congruence.
Qed.

(** The same for the copy in the gated variant. *)
Lemma validate_gated_outcome {S : Type} (cookieHeader : option string) (s : S) :
  exists r, validateUserSession_gated cookieHeader s = (Ok r, s) /\
            (forall u, r = Some u <-> resolves_to_gated s cookieHeader u).
Proof.
  unfold validateUserSession_gated, resolves_to_gated.
  destruct cookieHeader as [h|]; cycle 1.
  { exists None. split; [done |]. intros u. split; [done |].
    by intros (? & ? & ? & ? & ? & ? & ? & ? & ? & _). }
  unfold try_catch at 1.
  destruct (str_is_empty h) eqn:Hh.
  { exists None. split; [done |]. intros u. split; [done |].
    intros (? & ? & ? & ? & ? & ? & ? & ? & [= <-] & Hm & _).
    destruct h; done. }
  destruct (match_sessionId h) as [captured|] eqn:Hm; [| no_user].
  unfold bind at 1.
  pose proof (clean_sessionId_state captured s) as Hst.
  destruct (clean_sessionId captured s) as [[sid|e] s1] eqn:Hclean;
    simpl in Hst; subst s1; [| no_user].
  unfold query at 1. unfold bind at 1.
  destruct (select_session_data sid) as [e|[|data rows]] eqn:Hq; [no_user | |].
  { unfold ret at 1. unfold_m. unfold query.
    destruct select_sessions_debug as [e0|[]]; no_user. }
  unfold ret at 1. unfold bind at 1, try_catch at 1, or_throw, bind at 1.
  destruct (JSON_parse data) as [sessionData|] eqn:Hp; [| no_user].
  unfold ret at 1. unfold ret at 1. unfold js_get, bind at 1.
  destruct sessionData as [| |?|?|?|?|fields]; try no_user.
  unfold ret at 1.
  unfold field. destruct (assoc "userId" fields) as [uid|] eqn:Hu; [| no_user].
  destruct (truthy uid) eqn:Ht; simpl; [| no_user].
  unfold query, bind at 1.
  destruct (select_user_profile uid) as [e|[|u0 users]] eqn:Hus; [no_user | no_user |].
  exists (Some u0). split; [done |]. intros u. split.
  - intros [= <-]. by exists h, captured, sid, data, rows, fields, uid, users.
  - intros (? & ? & ? & ? & ? & ? & ? & ? & [= <-] & ? & ? & ? & ? & ? & ? & ?).
    congruence.
Qed.

Lemma validate_none {S : Type} (cookieHeader : option string) (s : S) :
  (forall u, ~ resolves_to s cookieHeader u) ->
  validateUserSession cookieHeader s = (Ok None, s).
Proof.
  intros Hno. destruct (validate_outcome cookieHeader s) as ([u|] & Hrun & Hiff); [| done].
  destruct (Hno u). by apply Hiff.
Qed.

(** C4.  [validateUserSession] never raises: for every cookie header it
    returns a user row or [null].  It returns a row only if every step
    succeeded; an absent header, a header without the [sessionId]
    pattern, a session the store does not have, a store that fails, a
    payload that [JSON.parse] rejects, a payload without [userId] (or
    with an empty one) and a user the table does not have all give
    [null]. *)
Theorem validateUserSession_never_raises {S : Type} (cookieHeader : option string) (s : S) :
  (exists r, validateUserSession cookieHeader s = (Ok r, s)) /\
  (forall u, validateUserSession cookieHeader s = (Ok (Some u), s) ->
             resolves_to s cookieHeader u) /\
  (cookieHeader = None -> validateUserSession cookieHeader s = (Ok None, s)) /\
  (forall h, cookieHeader = Some h -> match_sessionId h = None ->
             validateUserSession cookieHeader s = (Ok None, s)) /\
  (forall h captured sessionId,
     cookieHeader = Some h -> match_sessionId h = Some captured ->
     clean_sessionId captured s = (Ok sessionId, s) ->
     (select_session_data sessionId = inr [] ->
      validateUserSession cookieHeader s = (Ok None, s)) /\
     (forall e, select_session_data sessionId = inl e ->
      validateUserSession cookieHeader s = (Ok None, s)) /\
     (forall data rows, select_session_data sessionId = inr (data :: rows) ->
        (JSON_parse data = None ->
         validateUserSession cookieHeader s = (Ok None, s)) /\
        (forall fields, JSON_parse data = Some (JObj fields) ->
           (assoc "userId" fields = None ->
            validateUserSession cookieHeader s = (Ok None, s)) /\
           (forall userId, assoc "userId" fields = Some userId ->
              (truthy userId = false ->
               validateUserSession cookieHeader s = (Ok None, s)) /\
              (select_user userId = inr [] ->
               validateUserSession cookieHeader s = (Ok None, s)) /\
              (forall e, select_user userId = inl e ->
               validateUserSession cookieHeader s = (Ok None, s)))))).
Proof.
  split; [| split; [| split; [| split]]].
  - destruct (validate_outcome cookieHeader s) as (r & Hrun & _). by exists r.
  - intros u Hu. destruct (validate_outcome cookieHeader s) as (r & Hrun & Hiff).
    apply Hiff. congruence.
  - intros ->. done.
  - intros h -> Hm. apply validate_none.
    intros u (? & ? & ? & ? & ? & ? & ? & ? & [= <-] & ? & _). congruence.
  - intros h captured sid -> Hm Hclean. split; [| split].
    + intros Hq. apply validate_none.
      intros u (? & ? & ? & ? & ? & ? & ? & ? & [= <-] & ? & ? & ? & _). congruence.
    + intros e Hq. apply validate_none.
      intros u (? & ? & ? & ? & ? & ? & ? & ? & [= <-] & ? & ? & ? & _). congruence.
    + intros data rows Hq. split.
      * intros Hp. apply validate_none.
        intros u (? & ? & ? & ? & ? & ? & ? & ? & [= <-] & ? & ? & ? & ? & _). congruence.
      * intros fields Hp. split.
        -- intros Hu. apply validate_none.
           intros u (? & ? & ? & ? & ? & ? & ? & ? & [= <-] & ? & ? & ? & ? & ? & _).
           congruence.
        -- intros uid Hu. split; [| split]; [intros Hfalsy | intros Hus | intros e Hus];
             apply validate_none;
             intros u (? & ? & ? & ? & ? & ? & ? & ? & [= <-] & ? & ? & ? & ? & ? & ? & ?);
             congruence.
Qed.

End Validation.

Lemma validateUserSession_never_raises_witness :
  @validateUserSession example_runtime example_store unit (Some "foo=bar") tt = (Ok None, tt) /\
  @validateUserSession example_runtime example_store unit (Some "sessionId=s:nobody.sig") tt
    = (Ok None, tt).
Proof.
  split.
  - refine (proj1 (proj2 (proj2 (proj2
      (@validateUserSession_never_raises example_runtime example_store unit
         (Some "foo=bar") tt)))) "foo=bar" _ _); reflexivity.
  - refine (proj1 (proj2 (proj2 (proj2 (proj2
      (@validateUserSession_never_raises example_runtime example_store unit
         (Some "sessionId=s:nobody.sig") tt)))) "sessionId=s:nobody.sig" "s:nobody.sig" "nobody"
         _ _ _) _); reflexivity.
Defined.


(** ** The handshake of the gated variant *)

Section Handshake.
Context `{JsRuntime} `{SessionStore}.

Lemma gated_authenticate_outcome (cookie : option string) (s : gated_state) :
  exists r, validateUserSession_gated cookie s = (Ok r, s) /\
    gated_authenticate cookie s =
      match r with
      | Some u => (Ok (Some u), snd (safeSend (JStr (greeting u)) s))
      | None =>
          (Ok None,
           snd (ws_close 1008 "Authentication required" (snd (safeSend (JStr LOGIN_NOTICE) s))))
      end.
Proof.
  destruct (validate_gated_outcome cookie s) as (r & Hrun & _).
  exists r. split; [done |].
  unfold gated_authenticate, try_catch, bind. rewrite Hrun.
  destruct r as [u|]; unfold safeSend; destruct (is_open (g_readyState s)); done.
Qed.

(** C7 (the code departs from it).  [validateUserSession] catches the
    rejection of its own queries and returns [null], so the handshake
    cannot tell a store that fails from a missing session: with a store
    that rejects every query the connection is closed with 1008,
    "Authentication required", as for a visitor without a session.  No
    handshake closes with 1011, whatever the cookie and the store. *)
Theorem store_failure_closes_1008 (cookie : option string) (s : gated_state) :
  (forall code reason,
     In (Closed code reason) (g_actions (snd (gated_authenticate cookie s))) ->
     In (Closed code reason) (g_actions s) \/ code = 1008%nat) /\
  ((forall sessionId, exists e, select_session_data sessionId = inl e) ->
   g_readyState s = OPEN ->
   gated_authenticate cookie s =
     (Ok None,
      GatedState CLOSING (g_buffer s) (g_fullResponse s)
        (g_actions s ++ [Sent (JStr LOGIN_NOTICE); Closed 1008 "Authentication required"]))).
Proof.
  destruct (gated_authenticate_outcome cookie s) as (r & Hrun & Hauth).
  split.
  - intros code reason. rewrite Hauth.
    destruct r as [u|]; unfold safeSend, ws_close, modify;
      destruct (is_open (g_readyState s)); simpl; rewrite ?in_app_iff; simpl;
      intros Hin; repeat destruct Hin as [Hin|Hin]; try (by left); try done;
      right; congruence.
  - intros Hdown Hopen. rewrite Hauth.
    destruct r as [u|].
    + destruct (validate_gated_outcome cookie s) as (r' & Hrun' & Hiff).
      assert (r' = Some u) as -> by congruence.
      destruct (proj1 (Hiff u) eq_refl)
        as (? & ? & sid & ? & ? & ? & ? & ? & _ & _ & _ & Hq & _).
      destruct (Hdown sid) as [e He]. congruence.
    + unfold safeSend, ws_close, modify. rewrite Hopen. simpl.
      by rewrite <- app_assoc.
Qed.

End Handshake.

Lemma store_failure_closes_1008_witness :
  g_actions (snd (@gated_authenticate example_runtime unreachable_store
                    (Some "sessionId=s:abc123.sig") (GatedState OPEN "" "" [])))
  = [Sent (JStr LOGIN_NOTICE); Closed 1008 "Authentication required"].
Proof.
  rewrite (proj2 (@store_failure_closes_1008 example_runtime unreachable_store
                    (Some "sessionId=s:abc123.sig") (GatedState OPEN "" "" []))).
  - reflexivity.
  - intros sid. exists ECONNREFUSED. reflexivity.
  - reflexivity.
Defined.


(** ** What a relay calls and what it ignores *)

Section Calls.
Context `{JsRuntime}.

Lemma calls_of_app (t1 t2 : list obs) : calls_of (t1 ++ t2) = calls_of t1 ++ calls_of t2.
Proof. unfold calls_of. apply omap_app. Qed.

Lemma calls_of_ws_send (e : envelope) (s : relay_state) :
  calls_of (trace (snd (ws_send e s))) = calls_of (trace s).
Proof. unfold ws_send, modify. simpl. by rewrite calls_of_app, app_nil_r. Qed.

Lemma calls_of_line_body (l : string) (s : relay_state) :
  calls_of (trace (snd (line_body l s))) = calls_of (trace s).
Proof.
  rewrite line_body_eq. destruct (line_record l) as [[r d]|]; [| done].
  unfold apply_record. destruct (truthy r), (truthy d); simpl;
    rewrite ?calls_of_app; simpl; by rewrite ?app_nil_r.
Qed.

Lemma calls_of_for_of (ls : list string) (s : relay_state) :
  calls_of (trace (snd (for_of line_body ls s))) = calls_of (trace s).
Proof.
  revert s. induction ls as [|l ls IH]; intros s; [done |].
  simpl. unfold bind. pose proof (calls_of_line_body l s) as Hl.
  destruct (line_body l s) as [[[|]|e] s1]; simpl in *; [by rewrite IH | done | done].
Qed.

Lemma calls_of_on_chunk (chunk : string) (s : relay_state) :
  calls_of (trace (snd (on_chunk chunk s))) = calls_of (trace s).
Proof.
  unfold on_chunk. unfold_m.
  destruct (pop (split "010" (buffer s +:+ chunk))) as [last_line lines]. simpl.
  by rewrite calls_of_for_of.
Qed.

Lemma calls_of_read_loop (cs : list string) (e : option js_error) (s : relay_state) :
  calls_of (trace (snd (read_loop cs e s))) = calls_of (trace s).
Proof.
  revert s. induction cs as [|c cs IH]; intros s; simpl.
  - by destruct e.
  - unfold bind. pose proof (calls_of_on_chunk c s) as Hc.
    destruct (on_chunk c s) as [[[]|err] s1]; simpl in *; [by rewrite IH | done].
Qed.

Lemma calls_of_relay_response (r : response) (s : relay_state) :
  calls_of (trace (snd (relay_response r s))) = calls_of (trace s).
Proof.
  unfold relay_response.
  destruct (negb (ok r)); [apply calls_of_ws_send |].
  destruct (body r) as [b|]; [| apply calls_of_ws_send].
  unfold bind, set_buffer, set_fullResponse, modify. by rewrite calls_of_read_loop.
Qed.

(** A handler that gets as far as [fetch] calls the backend once. *)
Lemma calls_of_fetch_then_relay (up : upstream) (rq : gen_request) :
  calls_of (trace (snd (try_catch (r <- fetch up rq ;; relay_response r)
                          (fun error => ws_send (EnvError (err_message error)))
                          initial_relay_state))) = [rq].
Proof.
  unfold try_catch, bind, fetch.
  destruct (up rq) as [e|r]; [by rewrite calls_of_ws_send |].
  pose proof (calls_of_relay_response r
                (RelayState (buffer initial_relay_state) (fullResponse initial_relay_state)
                   (trace initial_relay_state ++ [CallUpstream rq]))) as Hr.
  destruct (relay_response r _) as [[[]|err] s1]; [done |].
  by rewrite calls_of_ws_send.
Qed.

End Calls.








Section Filter.
Context `{JsRuntime}.


(** C10.  The relay of stream.js does not look at the handshake: for
    every two Cookie headers, present or not, it does the same with the
    same prompt and the same upstream; and whatever the header, the
    prompt goes to the backend, also when [validateUserSession] of the
    same file yields no user for it. *)
Theorem stream_relay_ignores_cookie (cookie1 cookie2 : option string) (up : upstream)
    (input : string) :
  run_handler (stream_on_message cookie1 up input) =
  run_handler (stream_on_message cookie2 up input) /\
  calls_of (run_handler (stream_on_message cookie1 up input)) =
    [GenRequest (trim input) None].
Proof.
  split; [reflexivity |].
  unfold run_handler, stream_on_message. apply calls_of_fetch_then_relay.
Qed.

End Filter.



(** ** The first variant of llm1.js: single flight and cancellation *)

Lemma add_log_nil (w : world) : add_log [] w = w.
Proof. destruct w. unfold add_log. simpl. by rewrite app_nil_r. Qed.

Lemma add_log_app (l1 l2 : list early_obs) (w : world) :
  add_log l2 (add_log l1 w) = add_log (l1 ++ l2) w.
Proof. unfold add_log. simpl. by rewrite app_assoc. Qed.

Lemma fetches_app (l1 l2 : list early_obs) : fetches (l1 ++ l2) = fetches l1 ++ fetches l2.
Proof. unfold fetches. apply omap_app. Qed.

Section Segments.
Context `{JsRuntime}.
Variable connectionId : string.

Lemma early_line_body_log (line : string) (w : world) :
  exists c l, early_line_body line w = (Ok c, add_log l w) /\ fetches l = [].
Proof.
  unfold early_line_body. unfold_w.
  destruct (is_open (readyState w)) eqn:Hopen; simpl.
  - destruct (JSON_parse line) as [[| |?|?|?|?|fields]|]; simpl;
      try (exists Next, []; by rewrite add_log_nil).
    rewrite Hopen, andb_true_r.
    destruct (truthy _); [| exists Next, []; by rewrite add_log_nil].
    by eexists Next, [_].
  - exists Break, []. by rewrite add_log_nil.
Qed.

Lemma for_of_early_log (ls : list string) (w : world) :
  exists l, for_of early_line_body ls w = (Ok tt, add_log l w) /\ fetches l = [].
Proof.
  revert w. induction ls as [|line ls IH]; intros w.
  - exists []. by rewrite add_log_nil.
  - simpl. unfold bind.
    destruct (early_line_body_log line w) as (c & l & -> & Hl).
    destruct c.
    + destruct (IH (add_log l w)) as (l' & -> & Hl').
      exists (l ++ l'). rewrite add_log_app, fetches_app, Hl, Hl'. done.
    + by exists l.
Qed.

Lemma after_loop_log (w : world) :
  exists l, after_loop w = (Ok None, add_log l w) /\ fetches l = [].
Proof.
  unfold after_loop. unfold_w.
  destruct (is_open (readyState w)); simpl.
  - by eexists [_].
  - exists []. by rewrite add_log_nil.
Qed.

Lemma loop_top_log (k : nat) (w : world) :
  exists r l, loop_top k w = (Ok r, add_log l w) /\ fetches l = [].
Proof.
  unfold loop_top, after_loop. unfold_w.
  destruct (is_open (readyState w)) eqn:Hopen; simpl.
  - exists (Some AwaitRead), []. by rewrite add_log_nil.
  - rewrite Hopen. simpl. by eexists None, [_].
Qed.

Lemma segment_fetched_log (k : nat) (o : fetch_settled) (w : world) :
  exists r l, segment_fetched k o w = (r, add_log l w) /\ fetches l = [] /\
              (forall e, o = HeadRejects e -> r = Throw e /\ l = []).
Proof.
  unfold segment_fetched. destruct o as [e|r].
  - exists (Throw e), []. rewrite add_log_nil. split; [done | split; [done |]].
    by intros ? [= ->].
  - destruct (negb (h_ok r)); [eexists (Throw _), []; by rewrite add_log_nil |].
    destruct (negb (h_has_body r)); [eexists (Throw _), []; by rewrite add_log_nil |].
    destruct (loop_top_log k w) as (r' & l & -> & Hl). by exists (Ok r'), l.
Qed.

Lemma segment_read_log (k : nat) (o : read_outcome) (w : world) :
  exists r l, segment_read k o w = (r, add_log l w) /\ fetches l = [] /\
              (forall e, o = ReadRejects e -> r = Throw e /\ l = []).
Proof.
  unfold segment_read. destruct o as [chunk| |e].
  - unfold bind.
    destruct (for_of_early_log
                (filter (fun line => negb (str_is_empty (trim line))) (split "010" chunk)) w)
      as (l & -> & Hl).
    destruct (loop_top_log k (add_log l w)) as (r' & l' & -> & Hl').
    exists (Ok r'), (l ++ l'). rewrite add_log_app, fetches_app, Hl, Hl'. done.
  - destruct (after_loop_log w) as (l & -> & Hl). by exists (Ok None), l.
  - exists (Throw e), []. rewrite add_log_nil. split; [done | split; [done |]].
    by intros ? [= ->].
Qed.

Lemma catch_block_log (err : js_error) (w : world) :
  catch_block err w = (Ok tt, add_log (catch_log err w) w).
Proof.
  unfold catch_block, catch_log. unfold_w.
  destruct (is_open (readyState w) && negb (err_name err =? "AbortError")%string); simpl;
    [done | by rewrite add_log_nil].
Qed.

Lemma finally_block_eq (w : world) :
  finally_block connectionId w =
    (Ok tt,
     World (cleared connectionId (activeConnections w) (heap w)) (activeConnections w)
       (readyState w) (next_controller w) (aborted w) (flights w) (log w)).
Proof.
  unfold finally_block, cleared. unfold_w. unfold set_heap, modify.
  destruct (activeConnections w !! connectionId); [done | by destruct w].
Qed.

Lemma in_try_log (k : nat) (segment : M world (option phase)) (w : world)
    (r : result (option phase)) (l : list early_obs) :
  segment w = (r, add_log l w) ->
  in_try connectionId k segment w =
    (Ok tt,
     match r with
     | Ok (Some p) => suspended k p l w
     | Ok None => left_flight connectionId k l w
     | Throw err => left_flight connectionId k (l ++ catch_log err w) w
     end).
Proof.
  intros Hseg. unfold in_try. rewrite Hseg.
  destruct r as [[p|]|err].
  - done.
  - unfold bind, try_finally, set_flights, modify, ret. by rewrite finally_block_eq.
  - unfold bind, try_finally, set_flights, modify. rewrite catch_block_log, finally_block_eq.
    unfold left_flight, add_log, catch_log. simpl. by rewrite app_assoc.
Qed.

End Segments.


Section Steps.
Context `{JsRuntime}.
Variable connectionId : string.

Lemma step_message_busy (w : world) (userInput : string) (a : nat) (c : conn) :
  activeConnections w !! connectionId = Some a -> heap w !! a = Some c ->
  isProcessing c = true ->
  step connectionId w (OnMessage userInput) = w.
Proof.
  intros Ha Hc Hbusy. unfold step, dispatch, on_message. unfold_w.
  by rewrite Ha, Hc, Hbusy.
Qed.

Lemma step_message_closed (w : world) (userInput : string) :
  activeConnections w !! connectionId = None ->
  exists err, step connectionId w (OnMessage userInput) = add_log [UnhandledRejection err] w.
Proof.
  intros Ha. unfold step, dispatch, on_message. unfold_w.
  rewrite Ha. by eexists.
Qed.

(** A prompt on a connection whose entry or object is gone: the handler
    rejects on [connection.isProcessing] and does nothing else. *)
Lemma step_message_gone (w : world) (userInput : string) :
  match activeConnections w !! connectionId with
  | Some a => heap w !! a = None
  | None => True
  end ->
  exists err, step connectionId w (OnMessage userInput) = add_log [UnhandledRejection err] w.
Proof.
  intros Hgone. unfold step, dispatch, on_message. unfold_w.
  destruct (activeConnections w !! connectionId) as [a|]; [rewrite Hgone |]; by eexists.
Qed.

Lemma step_message_idle (w : world) (userInput : string) (a : nat) (c : conn) :
  activeConnections w !! connectionId = Some a -> heap w !! a = Some c ->
  isProcessing c = false ->
  step connectionId w (OnMessage userInput) =
    World (entered a (next_controller w) (heap w)) (activeConnections w)
      (readyState w) (S (next_controller w)) (aborted w)
      (drop_flight (next_controller w) (flights w) ++ [(next_controller w, AwaitFetch)])
      (log w ++ (if is_open (readyState w) then [SocketSend (JStr HI_MESSAGE)] else [])
         ++ [Fetched (next_controller w) (GenRequest userInput (Some STRATIFY_SYSTEM))]).
Proof.
  intros Ha Hc Hidle. unfold step, dispatch, on_message. unfold_w.
  rewrite Ha, Hc, Hidle. unfold in_try, segment_start. unfold_w. simpl.
  unfold entered. destruct (is_open (readyState w)); simpl; by rewrite <- ?app_assoc.
Qed.

Lemma flight_phase_In (k : nat) (fs : list (nat * phase)) (p : phase) :
  flight_phase k fs = Some p -> In (k, p) fs.
Proof.
  induction fs as [|[k' p'] fs IH]; [done |]. simpl.
  destruct (Nat.eqb k k') eqn:E.
  - apply Nat.eqb_eq in E as ->. intros [= ->]. by left.
  - intros Hp. right. by apply IH.
Qed.

(** A settled [fetch] resumes nothing, or the invocation waiting for it,
    which then waits for a read or leaves. *)
Lemma step_fetch_settled (w : world) (k : nat) (o : fetch_settled) :
  step connectionId w (FetchSettled k o) = w \/
  In (k, AwaitFetch) (flights w) /\
  ((exists p l, step connectionId w (FetchSettled k o) = suspended k p l w /\ fetches l = [] /\
                forall e, o <> HeadRejects e) \/
   (exists l, step connectionId w (FetchSettled k o) = left_flight connectionId k l w /\
              fetches l = [] /\
              forall e, o = HeadRejects e -> l = catch_log e w)).
Proof.
  unfold step, dispatch, bind, gets.
  destruct (flight_phase k (flights w)) as [[|]|] eqn:Hp; [| by left | by left].
  right. split; [by apply flight_phase_In |].
  destruct (segment_fetched_log k o w) as (r & l & Hseg & Hl & Hrej).
  rewrite (in_try_log connectionId k _ w r l Hseg).
  destruct r as [[p|]|err].
  - left. exists p, l. split; [done | split; [done |]].
    intros e ->. by destruct (Hrej e eq_refl).
  - right. exists l. split; [done | split; [done |]].
    intros e ->. by destruct (Hrej e eq_refl).
  - right. exists (l ++ catch_log err w). split; [done |]. split.
    + rewrite fetches_app, Hl. unfold catch_log. by destruct (_ && _).
    + intros e ->. destruct (Hrej e eq_refl) as [[= ->] ->]. done.
Qed.

Lemma step_read_settled (w : world) (k : nat) (o : read_outcome) :
  step connectionId w (ReadSettled k o) = w \/
  In (k, AwaitRead) (flights w) /\
  ((exists p l, step connectionId w (ReadSettled k o) = suspended k p l w /\ fetches l = [] /\
                forall e, o <> ReadRejects e) \/
   (exists l, step connectionId w (ReadSettled k o) = left_flight connectionId k l w /\
              fetches l = [] /\
              forall e, o = ReadRejects e -> l = catch_log e w)).
Proof.
  unfold step, dispatch, bind, gets.
  destruct (flight_phase k (flights w)) as [[|]|] eqn:Hp; [by left | | by left].
  right. split; [by apply flight_phase_In |].
  destruct (segment_read_log k o w) as (r & l & Hseg & Hl & Hrej).
  rewrite (in_try_log connectionId k _ w r l Hseg).
  destruct r as [[p|]|err].
  - left. exists p, l. split; [done | split; [done |]].
    intros e ->. by destruct (Hrej e eq_refl).
  - right. exists l. split; [done | split; [done |]].
    intros e ->. by destruct (Hrej e eq_refl).
  - right. exists (l ++ catch_log err w). split; [done |]. split.
    + rewrite fetches_app, Hl. unfold catch_log. by destruct (_ && _).
    + intros e ->. destruct (Hrej e eq_refl) as [[= ->] ->]. done.
Qed.

Lemma abort_ongoing_eq (w : world) :
  abort_ongoing connectionId w =
    (Ok tt,
     World (heap w) (activeConnections w) (readyState w) (next_controller w)
       (aborted w ++ match ongoing connectionId w with Some k => [k] | None => [] end)
       (flights w) (log w)).
Proof.
  unfold abort_ongoing, ongoing. unfold_w.
  destruct (activeConnections w !! connectionId) as [a|]; simpl;
    [| by rewrite app_nil_r; destruct w].
  destruct (heap w !! a) as [c|]; simpl; [| by rewrite app_nil_r; destruct w].
  destruct (abortController c); simpl; [done | by rewrite app_nil_r; destruct w].
Qed.

Lemma step_close (w : world) :
  step connectionId w OnClose =
    World (heap w) (delete connectionId (activeConnections w)) CLOSED (next_controller w)
      (aborted w ++ match ongoing connectionId w with Some k => [k] | None => [] end)
      (flights w) (log w).
Proof.
  unfold step, dispatch, on_close, bind, set_readyState, modify at 1.
  rewrite abort_ongoing_eq. done.
Qed.

Lemma step_error (w : world) (e : js_error) :
  step connectionId w (OnError e) =
    World (heap w) (activeConnections w) (readyState w) (next_controller w)
      (aborted w ++ match ongoing connectionId w with Some k => [k] | None => [] end)
      (flights w) (log w).
Proof. unfold step, dispatch, on_error. by rewrite abort_ongoing_eq. Qed.

End Steps.


Section Invariant.
Context `{JsRuntime}.
Variable connectionId : string.

Lemma cleared_lookup (reg : gmap string nat) (h : gmap nat conn) (a : nat) :
  reg !! connectionId = Some a ->
  cleared connectionId reg h !! a = (fun _ => Conn false None) <$> h !! a.
Proof.
  intros Ha. unfold cleared. rewrite Ha, !lookup_alter_eq. by destruct (h !! a).
Qed.

Lemma entered_lookup (a k : nat) (h : gmap nat conn) (c : conn) :
  h !! a = Some c -> entered a k h !! a = Some (Conn true (Some k)).
Proof. intros Hc. unfold entered. rewrite !lookup_alter_eq, Hc. done. Qed.

Lemma drop_flight_one (k : nat) (p : phase) : drop_flight k [(k, p)] = [].
Proof. unfold drop_flight. rewrite filter_cons. simpl. by case_decide. Qed.

Lemma In_flight_phase (k : nat) (p : phase) (fs : list (nat * phase)) :
  In (k, p) fs -> flight_phase k fs <> None.
Proof.
  induction fs as [|[k' p'] fs IH]; [done |]. simpl.
  intros [[= -> ->]|Hin]; [by rewrite Nat.eqb_refl |].
  destruct (Nat.eqb k k'); [done | by apply IH].
Qed.

(** With the object and the invocations in agreement, an invocation in
    flight is the only one. *)
Lemma consistent_flight (w : world) (k : nat) (p : phase) :
  consistent connectionId w -> In (k, p) (flights w) -> flights w = [(k, p)].
Proof.
  intros (_ & _ & _ & Hreg) Hin.
  destruct (activeConnections w !! connectionId) as [a|].
  - destruct Hreg as (c & _ & [(_ & _ & Hfs)|(k' & p' & _ & _ & Hfs)]); rewrite Hfs in Hin.
    + done.
    + destruct Hin as [[= -> ->]|[]]. done.
  - destruct (flights w) as [|f [|f' fs]]; [done | | simpl in Hreg; lia].
    destruct Hin as [->|[]]. done.
Qed.

Lemma consistent_busy (w : world) (a : nat) (c : conn) :
  consistent connectionId w ->
  activeConnections w !! connectionId = Some a -> heap w !! a = Some c ->
  isProcessing c = true ->
  exists k p, abortController c = Some k /\ flights w = [(k, p)].
Proof.
  intros (_ & _ & _ & Hreg) Ha Hc Hbusy. rewrite Ha in Hreg.
  destruct Hreg as (c' & Hc' & Hreg). assert (c' = c) as -> by congruence.
  destruct Hreg as [(Hidle & _)|(k & p & _ & Hk & Hfs)]; [congruence |].
  by exists k, p.
Qed.

Lemma consistent_idle (w : world) (a : nat) (c : conn) :
  consistent connectionId w ->
  activeConnections w !! connectionId = Some a -> heap w !! a = Some c ->
  isProcessing c = false ->
  abortController c = None /\ flights w = [].
Proof.
  intros (_ & _ & _ & Hreg) Ha Hc Hidle. rewrite Ha in Hreg.
  destruct Hreg as (c' & Hc' & Hreg). assert (c' = c) as -> by congruence.
  destruct Hreg as [(_ & Hk & Hfs)|(k & p & Hbusy & _)]; [done | congruence].
Qed.

Lemma consistent_registered (w : world) (a : nat) :
  consistent connectionId w -> activeConnections w !! connectionId = Some a ->
  exists c, heap w !! a = Some c.
Proof.
  intros (_ & _ & _ & Hreg) Ha. rewrite Ha in Hreg.
  destruct Hreg as (c & Hc & _). by exists c.
Qed.

(** The controller the close and error handlers abort is the one of
    the invocation in flight. *)
Lemma consistent_ongoing (w : world) (k : nat) :
  consistent connectionId w -> ongoing connectionId w = Some k ->
  exists p, flights w = [(k, p)].
Proof.
  intros Hw. unfold ongoing.
  destruct (activeConnections w !! connectionId) as [a|] eqn:Ha; [| done].
  destruct (heap w !! a) as [c|] eqn:Hc; [| done].
  intros Hk. destruct (isProcessing c) eqn:Hbusy.
  - destruct (consistent_busy w a c Hw Ha Hc Hbusy) as (k' & p & Hk' & Hfs).
    exists p. congruence.
  - destruct (consistent_idle w a c Hw Ha Hc Hbusy) as [Hnone _]. congruence.
Qed.

Lemma consistent_connected (h : gmap nat conn) (reg : gmap string nat) (a : nat) :
  consistent connectionId (connected connectionId h reg a).
Proof.
  unfold consistent, connected. simpl.
  rewrite lookup_insert_eq. repeat split; try done.
  exists (Conn false None). rewrite lookup_insert_eq. split; [done | by left].
Qed.

Lemma consistent_suspended (w : world) (k : nat) (p0 p : phase) (l : list early_obs) :
  consistent connectionId w -> In (k, p0) (flights w) -> fetches l = [] ->
  consistent connectionId (suspended k p l w).
Proof.
  intros Hw Hin Hl. pose proof (consistent_flight w k p0 Hw Hin) as Hfs.
  destruct Hw as (Hf & Ha & Hlog & Hreg).
  unfold consistent, suspended. simpl. rewrite Hfs, drop_flight_one. simpl.
  split; [| split; [done | split]].
  - intros k1 p1 [[= <- <-]|[]]. by apply (Hf k p0).
  - intros k1 rq. rewrite fetches_app, Hl, app_nil_r. apply Hlog.
  - destruct (activeConnections w !! connectionId) as [a|]; [| done].
    destruct Hreg as (c & Hc & [(_ & _ & Hnil)|(k' & p' & Hb & Hk & Hfs')]); [congruence |].
    exists c. split; [done |]. right. exists k, p.
    rewrite Hfs in Hfs'. injection Hfs' as <- <-. done.
Qed.

Lemma consistent_left_flight (w : world) (k : nat) (p0 : phase) (l : list early_obs) :
  consistent connectionId w -> In (k, p0) (flights w) -> fetches l = [] ->
  consistent connectionId (left_flight connectionId k l w).
Proof.
  intros Hw Hin Hl. pose proof (consistent_flight w k p0 Hw Hin) as Hfs.
  destruct Hw as (Hf & Ha & Hlog & Hreg).
  unfold consistent, left_flight. simpl. rewrite Hfs, drop_flight_one.
  split; [done | split; [done | split]].
  - intros k1 rq. rewrite fetches_app, Hl, app_nil_r. apply Hlog.
  - destruct (activeConnections w !! connectionId) as [a|] eqn:Hreg'; simpl; [| lia].
    destruct Hreg as (c & Hc & _).
    exists (Conn false None). rewrite (cleared_lookup _ _ a Hreg'), Hc.
    split; [done | by left].
Qed.

Lemma consistent_aborting (w : world) (reg : gmap string nat) (rs : ready_state) :
  consistent connectionId w ->
  (reg = activeConnections w \/ reg = delete connectionId (activeConnections w)) ->
  consistent connectionId
    (World (heap w) reg rs (next_controller w)
       (aborted w ++ match ongoing connectionId w with Some k => [k] | None => [] end)
       (flights w) (log w)).
Proof.
  intros Hw Hreg'. pose proof Hw as (Hf & Ha & Hlog & Hreg).
  unfold consistent. simpl.
  split; [done | split; [| split; [done |]]].
  - intros k [Hin|Hin]%in_app_iff; [by apply Ha |].
    destruct (ongoing connectionId w) as [k'|] eqn:Hk; [| done].
    destruct Hin as [<-|[]].
    destruct (consistent_ongoing w k' Hw Hk) as [p Hfs].
    apply (Hf k' p). rewrite Hfs. by left.
  - destruct Hreg' as [->| ->]; [done |].
    rewrite lookup_delete_eq.
    destruct (activeConnections w !! connectionId) as [a|]; [| done].
    destruct Hreg as (c & _ & [(_ & _ & ->)|(k1 & p & _ & _ & ->)]); simpl; lia.
Qed.

Lemma consistent_step (w : world) (e : event) :
  consistent connectionId w -> consistent connectionId (step connectionId w e).
Proof.
  intros Hw. destruct e as [userInput|k o|k o| | |err].
  - destruct (activeConnections w !! connectionId) as [a|] eqn:Ha.
    + destruct (consistent_registered w a Hw Ha) as [c Hc].
      destruct (isProcessing c) eqn:Hbusy.
      * by rewrite (step_message_busy connectionId w userInput a c).
      * rewrite (step_message_idle connectionId w userInput a c) by done.
        destruct (consistent_idle w a c Hw Ha Hc Hbusy) as [_ Hfs].
        destruct Hw as (Hf & Hab & Hlog & Hreg).
        unfold consistent. simpl. rewrite Hfs. simpl.
        split; [| split; [| split]].
        -- intros k p [[= <- <-]|[]]. lia.
        -- intros k Hk. specialize (Hab k Hk). lia.
        -- intros k rq. rewrite !fetches_app. simpl.
           assert (fetches (if is_open (readyState w) then [SocketSend (JStr HI_MESSAGE)] else [])
                   = []) as -> by (by destruct (is_open _)).
           simpl. rewrite in_app_iff. intros [Hin|[[= <- <-]|[]]]; [| lia].
           specialize (Hlog k rq Hin). lia.
        -- rewrite Ha. eexists. rewrite (entered_lookup _ _ _ c Hc).
           split; [done |]. right. by eexists _, _.
    + destruct (step_message_closed connectionId w userInput Ha) as [err ->].
      destruct Hw as (Hf & Hab & Hlog & Hreg).
      unfold consistent, add_log. simpl. rewrite Ha in *.
      repeat split; try done.
      intros k rq. rewrite fetches_app. simpl. rewrite app_nil_r. apply Hlog.
  - destruct (step_fetch_settled connectionId w k o)
      as [->|(Hin & [(p & l & -> & Hl & _)|(l & -> & Hl & _)])]; [done | |].
    + by apply (consistent_suspended w k AwaitFetch).
    + by apply (consistent_left_flight w k AwaitFetch).
  - destruct (step_read_settled connectionId w k o)
      as [->|(Hin & [(p & l & -> & Hl & _)|(l & -> & Hl & _)])]; [done | |].
    + by apply (consistent_suspended w k AwaitRead).
    + by apply (consistent_left_flight w k AwaitRead).
  - done.
  - rewrite step_close. apply consistent_aborting; [done | by right].
  - rewrite step_error. apply consistent_aborting; [done | by left].
Qed.

End Invariant.


(** ** Other sockets *)

Section Shared.
Context `{JsRuntime}.
Variable id : string.

Lemma shared_step_same (w w' : world) :
  heap w' = heap w -> activeConnections w' = activeConnections w ->
  next_controller w' = next_controller w -> aborted w' = aborted w ->
  shared_step id w w'.
Proof.
  intros Hh Hr Hn Ha. unfold shared_step. rewrite Hh, Hr, Hn, Ha.
  split; [by left |]. split; [done |]. split; [done |]. split; [done |].
  split; [| by left]. intros a c' k Hc Hk. left. by exists c'.
Qed.

Lemma shared_step_left_flight (w : world) (k : nat) (l : list early_obs) :
  shared_step id w (left_flight id k l w).
Proof.
  destruct (activeConnections w !! id) as [a0|] eqn:Ha0.
  - unfold shared_step, left_flight, cleared. simpl. rewrite Ha0.
    split; [by left |]. split; [done |]. split; [| split; [| split]].
    + intros a Hne. rewrite !lookup_alter_ne by congruence. done.
    + intros a. by rewrite !lookup_alter_None.
    + intros a c' k0 Hc Hk. destruct (decide (a = a0)) as [->|Hne].
      * rewrite !lookup_alter_eq in Hc. destruct (heap w !! a0); simpl in Hc; [| done].
        injection Hc as <-. done.
      * rewrite !lookup_alter_ne in Hc by done. left. by exists c'.
    + by left.
  - apply shared_step_same; try done. unfold left_flight, cleared. simpl. by rewrite Ha0.
Qed.

Lemma shared_step_entered (w w' : world) (a0 : nat) :
  activeConnections w !! id = Some a0 ->
  heap w' = entered a0 (next_controller w) (heap w) ->
  activeConnections w' = activeConnections w ->
  next_controller w' = S (next_controller w) -> aborted w' = aborted w ->
  shared_step id w w'.
Proof.
  intros Ha0 Hh Hr Hn Ha. unfold shared_step. rewrite Hh, Hr, Hn, Ha. unfold entered.
  split; [by left |]. split; [lia |]. split; [| split; [| split]].
  - intros a Hne. rewrite !lookup_alter_ne by congruence. done.
  - intros a. by rewrite !lookup_alter_None.
  - intros a c' k0 Hc Hk. destruct (decide (a = a0)) as [->|Hne].
    + rewrite !lookup_alter_eq in Hc. destruct (heap w !! a0); simpl in Hc; [| done].
      injection Hc as <-. simpl in Hk. injection Hk as <-. by right.
    + rewrite !lookup_alter_ne in Hc by done. left. by exists c'.
  - by left.
Qed.

Lemma shared_step_aborting (w w' : world) :
  heap w' = heap w ->
  (activeConnections w' = activeConnections w \/
   activeConnections w' = delete id (activeConnections w)) ->
  next_controller w' = next_controller w ->
  aborted w' = aborted w ++ match ongoing id w with Some k => [k] | None => [] end ->
  shared_step id w w'.
Proof.
  intros Hh Hr Hn Ha. unfold shared_step. rewrite Hh, Hn, Ha.
  split; [done |]. split; [done |]. split; [done |]. split; [done |]. split.
  - intros a c' k Hc Hk. left. by exists c'.
  - intros k [Hin|Hin]%in_app_iff; [by left |]. right.
    unfold ongoing in Hin.
    destruct (activeConnections w !! id) as [a|] eqn:Hreg; [| done].
    destruct (heap w !! a) as [c|] eqn:Hc; [| done].
    destruct (abortController c) as [k'|] eqn:Hk; [| done].
    destruct Hin as [<-|[]]. by exists a, c.
Qed.

(** What one turn of the handlers registered under [id] does to what
    the sockets share. *)
Lemma step_shared (w : world) (e : event) : shared_step id w (step id w e).
Proof.
  destruct e as [userInput|k o|k o| | |err].
  - destruct (activeConnections w !! id) as [a|] eqn:Ha.
    + destruct (heap w !! a) as [c|] eqn:Hc.
      * destruct (isProcessing c) eqn:Hbusy.
        -- rewrite (step_message_busy id w userInput a c) by done.
           by apply shared_step_same.
        -- rewrite (step_message_idle id w userInput a c) by done.
           by apply (shared_step_entered _ _ a).
      * destruct (step_message_gone id w userInput) as [err ->]; [by rewrite Ha |].
        by apply shared_step_same.
    + destruct (step_message_gone id w userInput) as [err ->]; [by rewrite Ha |].
      by apply shared_step_same.
  - destruct (step_fetch_settled id w k o)
      as [->|(_ & [(p & l & -> & _)|(l & -> & _)])].
    + by apply shared_step_same.
    + by apply shared_step_same.
    + apply shared_step_left_flight.
  - destruct (step_read_settled id w k o)
      as [->|(_ & [(p & l & -> & _)|(l & -> & _)])].
    + by apply shared_step_same.
    + by apply shared_step_same.
    + apply shared_step_left_flight.
  - by apply shared_step_same.
  - rewrite step_close. apply shared_step_aborting; try done. by right.
  - rewrite step_error. apply shared_step_aborting; try done. by left.
Qed.

Lemma shared_ok_step (w w' : world) : shared_ok w -> shared_step id w w' -> shared_ok w'.
Proof.
  intros (Hctl & Hab & Hobj & Hinj) (Hreg & Hnext & Hoff & Hdom & Hnew & Hab').
  assert (forall i a, activeConnections w' !! i = Some a -> activeConnections w !! i = Some a)
    as Hsub.
  { intros i a. destruct Hreg as [-> | ->]; [done |].
    by intros [_ Hi]%lookup_delete_Some. }
  split; [| split; [| split]].
  - intros a c' k Hc Hk.
    destruct (Hnew a c' k Hc Hk) as [(c & Hc0 & Hk0)|[-> ->]]; [| lia].
    specialize (Hctl a c k Hc0 Hk0). lia.
  - intros k Hin. destruct (Hab' k Hin) as [Hold|(a & c & _ & Hc & Hk)].
    + specialize (Hab k Hold). lia.
    + specialize (Hctl a c k Hc Hk). lia.
  - intros i a Hi. rewrite Hdom. by apply (Hobj i), Hsub.
  - intros i1 i2 a H1 H2. apply (Hinj i1 i2 a); by apply Hsub.
Qed.

Lemma shared_ok_accept (a : nat) (w : world) :
  heap w !! a = None -> shared_ok w -> shared_ok (accept id a w).
Proof.
  intros Hfresh (Hctl & Hab & Hobj & Hinj). unfold shared_ok, accept. simpl.
  split; [| split; [done | split]].
  - intros a' c k. destruct (decide (a' = a)) as [->|Hne].
    + rewrite lookup_insert_eq. by intros [= <-].
    + rewrite lookup_insert_ne by done. apply Hctl.
  - intros i a'. destruct (decide (i = id)) as [->|Hne].
    + rewrite lookup_insert_eq. intros [= <-]. by rewrite lookup_insert_eq.
    + rewrite lookup_insert_ne by done. intros Hi.
      rewrite lookup_insert_ne; [by apply (Hobj i) |].
      intros <-. by apply (Hobj i a).
  - intros i1 i2 a'.
    destruct (decide (i1 = id)) as [->|Hne1]; destruct (decide (i2 = id)) as [->|Hne2];
      rewrite ?lookup_insert_eq, ?lookup_insert_ne by done; try done.
    + intros [= <-] Hi. by destruct (Hobj i2 a).
    + intros Hi [= <-]. by destruct (Hobj i1 a).
    + apply Hinj.
Qed.

End Shared.

Section Alone.
Context `{JsRuntime}.
Variable connectionId : string.

Lemma served_shared_ok (others : string -> Prop) (w : world) :
  served others w ->
  shared_ok w /\ readyState w = OPEN /\ flights w = [] /\ log w = [].
Proof.
  induction 1 as [|w id a _ (Hok & Hrs & Hfs & Hl) _ Hfresh
                  |w id rs fs l e _ (Hok & Hrs & Hfs & Hl) _].
  - repeat split; try done; intros *; by rewrite ?lookup_empty.
  - split; [by apply shared_ok_accept | done].
  - split; [| done].
    apply (shared_ok_step id (as_seen_by rs fs l w)); [exact Hok | apply step_shared].
Qed.

(** The first socket of the server. *)
Lemma reachable_first (others : string -> Prop) :
  reachable connectionId others (connected connectionId ∅ ∅ 0).
Proof.
  apply (reachable_connected connectionId others (World ∅ ∅ OPEN 0 [] [] []) 0%nat);
    [apply served_start | apply lookup_empty].
Qed.

Lemma reachable_shared_ok (others : string -> Prop) (w : world) :
  reachable connectionId others w -> shared_ok w.
Proof.
  induction 1 as [w a Hs Hfresh|w e _ IH|w id a _ IH _ Hfresh|w id rs fs l e _ IH _].
  - apply shared_ok_accept; [done |]. by apply (served_shared_ok others).
  - apply (shared_ok_step connectionId w); [done | apply step_shared].
  - by apply shared_ok_accept.
  - apply (shared_ok_step id (as_seen_by rs fs l w)); [exact IH | apply step_shared].
Qed.

Lemma consistent_accepted (others : string -> Prop) (w : world) (a : nat) :
  served others w -> heap w !! a = None ->
  consistent connectionId (accept connectionId a w).
Proof.
  intros ((_ & Hab & _) & _ & Hfs & Hl)%served_shared_ok Hfresh.
  unfold consistent, accept. simpl. rewrite Hfs, Hl, lookup_insert_eq.
  split; [done | split; [done | split; [done |]]].
  exists (Conn false None). rewrite lookup_insert_eq. split; [done | by left].
Qed.

(** Another socket that is accepted under another id leaves the
    connection as it is. *)
Lemma consistent_accept (w : world) (id : string) (a : nat) :
  id <> connectionId -> heap w !! a = None ->
  consistent connectionId w -> consistent connectionId (accept id a w).
Proof.
  intros Hne Hfresh (Hf & Hab & Hlog & Hreg). unfold consistent, accept. simpl.
  split; [done | split; [done | split; [done |]]].
  rewrite lookup_insert_ne by done.
  destruct (activeConnections w !! connectionId) as [a0|]; [| done].
  destruct Hreg as (c & Hc & Hreg). exists c. split; [| done].
  rewrite lookup_insert_ne; [done | congruence].
Qed.

(** So do the handlers of a socket with another id. *)
Lemma consistent_other (w w1 : world) (id : string) (rs : ready_state)
    (fs : list (nat * phase)) (l : list early_obs) :
  id <> connectionId -> shared_ok w -> consistent connectionId w ->
  shared_step id (as_seen_by rs fs l w) w1 ->
  consistent connectionId (shared_from w1 w).
Proof.
  intros Hne Hok (Hf & Hab & Hlog & Hreg) Hstep.
  pose proof (shared_ok_step id (as_seen_by rs fs l w) w1 Hok Hstep) as (_ & Hab1 & _).
  destruct Hok as (_ & _ & _ & Hinj).
  destruct Hstep as (Hreg1 & Hnext & Hoff & _). simpl in *.
  unfold consistent, shared_from. simpl.
  split; [| split; [done | split]].
  - intros k p Hin. specialize (Hf k p Hin). lia.
  - intros k rq Hin. specialize (Hlog k rq Hin). lia.
  - assert (activeConnections w1 !! connectionId = activeConnections w !! connectionId)
      as ->.
    { destruct Hreg1 as [-> | ->]; [done |]. by rewrite lookup_delete_ne. }
    destruct (activeConnections w !! connectionId) as [a0|] eqn:Ha0; [| done].
    destruct Hreg as (c & Hc & Hreg). exists c. split; [| done].
    rewrite Hoff; [done |]. intros Hid. by destruct Hne; apply (Hinj id connectionId a0).
Qed.

(** A connection that shares its id with no other socket is always in
    agreement with its invocations. *)
Lemma reachable_consistent (w : world) :
  reachable connectionId (unshared connectionId) w -> consistent connectionId w.
Proof.
  induction 1 as [w a Hs Hfresh|w e _ IH|w id a Hw IH Hid Hfresh|w id rs fs l e Hw IH Hid].
  - by apply (consistent_accepted (unshared connectionId)).
  - by apply consistent_step.
  - by apply consistent_accept.
  - apply (consistent_other w _ id rs fs l); [done | | done | apply step_shared].
    by apply (reachable_shared_ok (unshared connectionId)).
Qed.

End Alone.


Section SingleFlight.
Context `{JsRuntime}.
Variable connectionId : string.

(** An event that ends the one invocation in flight leaves the object
    of a registered connection idle, with both fields reset. *)
Lemma leaving_clears (w : world) (e : event) (k : nat) (p : phase) (a : nat) :
  consistent connectionId w ->
  In (k, p) (flights w) ->
  flight_phase k (flights (step connectionId w e)) = None ->
  activeConnections w !! connectionId = Some a ->
  heap (step connectionId w e) !! a = Some (Conn false None) /\
  activeConnections (step connectionId w e) !! connectionId = Some a /\
  flights (step connectionId w e) = [].
Proof.
  intros Hw Hin Hgone Ha.
  pose proof (consistent_flight connectionId w k p Hw Hin) as Hfs.
  destruct (consistent_registered connectionId w a Hw Ha) as [c Hc].
  assert (forall w', flights w' = flights w ->
                     flight_phase k (flights w') = None -> False) as Hsame.
  { intros w' -> Hnone. by apply (In_flight_phase k p (flights w)). }
  assert (forall k' p0 l,
            In (k', p0) (flights w) ->
            heap (left_flight connectionId k' l w) !! a = Some (Conn false None) /\
            activeConnections (left_flight connectionId k' l w) !! connectionId = Some a /\
            flights (left_flight connectionId k' l w) = []) as Hleft.
  { intros k' p0 l Hin'. rewrite Hfs in Hin'. destruct Hin' as [[= -> ->]|[]].
    unfold left_flight. simpl.
    rewrite (cleared_lookup connectionId _ _ a Ha), Hc, Hfs, drop_flight_one. done. }
  assert (forall k' p0 p' l,
            In (k', p0) (flights w) ->
            flight_phase k (flights (suspended k' p' l w)) = None -> False) as Hsusp.
  { intros k' p0 p' l Hin'. rewrite Hfs in Hin'. destruct Hin' as [[= -> ->]|[]].
    unfold suspended. simpl. rewrite Hfs, drop_flight_one. simpl.
    by rewrite Nat.eqb_refl. }
  destruct e as [userInput|k' o|k' o| | |err].
  - destruct (isProcessing c) eqn:Hbusy.
    + rewrite (step_message_busy connectionId w userInput a c) in Hgone by done.
      destruct (Hsame w eq_refl Hgone).
    + destruct (consistent_idle connectionId w a c Hw Ha Hc Hbusy) as [_ Hnil].
      rewrite Hnil in Hin. destruct Hin.
  - destruct (step_fetch_settled connectionId w k' o)
      as [Heq|(Hin' & [(p' & l & Heq & _)|(l & Heq & _)])]; rewrite Heq in *.
    + destruct (Hsame w eq_refl Hgone).
    + destruct (Hsusp k' AwaitFetch p' l Hin' Hgone).
    + by apply (Hleft k' AwaitFetch).
  - destruct (step_read_settled connectionId w k' o)
      as [Heq|(Hin' & [(p' & l & Heq & _)|(l & Heq & _)])]; rewrite Heq in *.
    + destruct (Hsame w eq_refl Hgone).
    + destruct (Hsusp k' AwaitRead p' l Hin' Hgone).
    + by apply (Hleft k' AwaitRead).
  - destruct (Hsame (step connectionId w SocketClosing) eq_refl Hgone).
  - rewrite step_close in Hgone. destruct (Hsame _ eq_refl Hgone).
  - rewrite step_error in Hgone. destruct (Hsame _ eq_refl Hgone).
Qed.

(** C3 (amended).  In every state that a connection whose id no other
    socket shares can reach, whatever the other sockets do: a prompt
    that arrives while [isProcessing] is set changes nothing, so it
    starts no second call; a prompt that arrives while it is not set
    sets it, installs a controller that was never used before and
    starts one call; the flag is set only while the one invocation that
    holds this controller is in flight; and whatever ends that
    invocation (the stream ends, an error is thrown, the request is
    aborted) runs [finally], which resets both fields of a connection
    that is still in the registry, so that it takes the next prompt.
    (When the socket closed in flight the close handler has deleted the
    entry, and [finally] resets nothing.) *)
Theorem single_flight_guard (w : world) :
  reachable connectionId (unshared connectionId) w ->
  (length (flights w) <= 1)%nat /\
  (forall a c,
     activeConnections w !! connectionId = Some a -> heap w !! a = Some c ->
     isProcessing c = true ->
     exists k p, abortController c = Some k /\ flights w = [(k, p)]) /\
  (forall a c userInput,
     activeConnections w !! connectionId = Some a -> heap w !! a = Some c ->
     isProcessing c = true ->
     step connectionId w (OnMessage userInput) = w) /\
  (forall a c userInput,
     activeConnections w !! connectionId = Some a -> heap w !! a = Some c ->
     isProcessing c = false ->
     let w' := step connectionId w (OnMessage userInput) in
     heap w' !! a = Some (Conn true (Some (next_controller w))) /\
     flights w' = [(next_controller w, AwaitFetch)] /\
     fetches (log w') =
       fetches (log w) ++ [(next_controller w, GenRequest userInput (Some STRATIFY_SYSTEM))] /\
     ~ In (next_controller w) (aborted w') /\
     (forall rq, ~ In (next_controller w, rq) (fetches (log w)))) /\
  (forall e k p a,
     In (k, p) (flights w) ->
     flight_phase k (flights (step connectionId w e)) = None ->
     activeConnections w !! connectionId = Some a ->
     let w' := step connectionId w e in
     heap w' !! a = Some (Conn false None) /\
     activeConnections w' !! connectionId = Some a /\
     flights w' = [] /\
     forall userInput,
       fetches (log (step connectionId w' (OnMessage userInput))) =
         fetches (log w') ++ [(next_controller w', GenRequest userInput (Some STRATIFY_SYSTEM))]).
Proof.
  intros Hreach. pose proof (reachable_consistent connectionId w Hreach) as Hw.
  split; [| split; [| split; [| split]]].
  - destruct Hw as (_ & _ & _ & Hreg).
    destruct (activeConnections w !! connectionId) as [a|]; [| done].
    destruct Hreg as (c & _ & [(_ & _ & ->)|(k & p & _ & _ & ->)]); simpl; lia.
  - intros a c Ha Hc Hbusy. by apply (consistent_busy connectionId w a c).
  - intros a c userInput Ha Hc Hbusy.
    by apply (step_message_busy connectionId w userInput a c).
  - intros a c userInput Ha Hc Hidle w'. subst w'.
    rewrite (step_message_idle connectionId w userInput a c) by done. simpl.
    destruct (consistent_idle connectionId w a c Hw Ha Hc Hidle) as [_ Hfs].
    destruct Hw as (Hf & Hab & Hlog & _).
    rewrite (entered_lookup _ _ _ c Hc), Hfs. simpl.
    split; [done | split; [done | split; [| split]]].
    + rewrite !fetches_app. by destruct (is_open (readyState w)).
    + intros Hin. specialize (Hab _ Hin). lia.
    + intros rq Hin. specialize (Hlog _ _ Hin). lia.
  - intros e k p a Hin Hgone Ha w'. subst w'.
    destruct (leaving_clears w e k p a Hw Hin Hgone Ha) as (Hc' & Ha' & Hfs').
    split; [done | split; [done | split; [done |]]]. intros userInput.
    rewrite (step_message_idle connectionId _ userInput a (Conn false None)) by done.
    simpl. rewrite !fetches_app. by destruct (is_open _).
Qed.

(** X25.  In every state that a connection whose id no other socket
    shares can reach, whatever the other sockets do: when the socket closes
    while an invocation is in flight, the close handler calls [abort] on
    the controller of that invocation (and deletes the entry); and a
    rejection whose name is AbortError, of the fetch or of a read, adds
    nothing to what was sent on the socket. *)
Theorem close_aborts_request (w : world) :
  reachable connectionId (unshared connectionId) w ->
  (forall k p a,
     In (k, p) (flights w) -> activeConnections w !! connectionId = Some a ->
     In k (aborted (step connectionId w OnClose)) /\
     activeConnections (step connectionId w OnClose) !! connectionId = None /\
     readyState (step connectionId w OnClose) = CLOSED) /\
  (forall k err,
     err_name err = "AbortError" ->
     socket_sends (log (step connectionId w (FetchSettled k (HeadRejects err))))
       = socket_sends (log w) /\
     socket_sends (log (step connectionId w (ReadSettled k (ReadRejects err))))
       = socket_sends (log w)).
Proof.
  intros Hreach. pose proof (reachable_consistent connectionId w Hreach) as Hw.
  split.
  - intros k p a Hin Ha. rewrite step_close. simpl. rewrite lookup_delete_eq.
    split; [| done].
    pose proof (consistent_flight connectionId w k p Hw Hin) as Hfs.
    destruct (consistent_registered connectionId w a Hw Ha) as [c Hc].
    unfold ongoing. rewrite Ha, Hc.
    destruct (isProcessing c) eqn:Hbusy.
    + destruct (consistent_busy connectionId w a c Hw Ha Hc Hbusy) as (k' & p' & -> & Hfs').
      rewrite Hfs in Hfs'. injection Hfs' as <- <-.
      apply in_app_iff. right. by left.
    + destruct (consistent_idle connectionId w a c Hw Ha Hc Hbusy) as [_ Hnil]. congruence.
  - intros k err Hname.
    assert (catch_log err w = []) as Hquiet.
    { unfold catch_log. rewrite Hname. simpl. by rewrite andb_false_r. }
    split.
    + destruct (step_fetch_settled connectionId w k (HeadRejects err))
        as [->|(_ & [(p & l & _ & _ & Hno)|(l & -> & _ & Hl)])]; [done | | ].
      * by destruct (Hno err).
      * rewrite (Hl err eq_refl), Hquiet. unfold left_flight. simpl. by rewrite app_nil_r.
    + destruct (step_read_settled connectionId w k (ReadRejects err))
        as [->|(_ & [(p & l & _ & _ & Hno)|(l & -> & _ & Hl)])]; [done | | ].
      * by destruct (Hno err).
      * rewrite (Hl err eq_refl), Hquiet. unfold left_flight. simpl. by rewrite app_nil_r.
Qed.

End SingleFlight.

Lemma single_flight_guard_witness :
  let w1 := @step example_runtime "1700000000000" (connected "1700000000000" ∅ ∅ 0)
              (OnMessage "first") in
  @step example_runtime "1700000000000" w1 (OnMessage "second") = w1.
Proof.
  intros w1.
  refine (proj1 (proj2 (proj2 (@single_flight_guard example_runtime "1700000000000" w1 _)))
            0%nat (Conn true (Some 0%nat)) "second" _ _ _).
  - apply reachable_step, reachable_first.
  - vm_compute. reflexivity.
  - vm_compute. reflexivity.
  - reflexivity.
Defined.

(** The socket closes while the first prompt waits for [fetch]; the
    fetch then rejects with an AbortError.  The invocation is over, and
    the connection object still has its flag and its controller. *)
Lemma leaving_always_clears_fails :
  ~ @leaving_always_clears example_runtime "1700000000000".
Proof.
  intros Hall.
  specialize (Hall
    (@run example_runtime "1700000000000" (connected "1700000000000" ∅ ∅ 0)
       [OnMessage "first"; OnClose])
    (FetchSettled 0 (HeadRejects (JsError "AbortError" "This operation was aborted")))
    0%nat AwaitFetch 0%nat (Conn true (Some 0%nat))).
  assert (heap (@step example_runtime "1700000000000"
            (@run example_runtime "1700000000000" (connected "1700000000000" ∅ ∅ 0)
               [OnMessage "first"; OnClose])
            (FetchSettled 0 (HeadRejects (JsError "AbortError" "This operation was aborted"))))
          !! 0%nat = Some (Conn true (Some 0%nat))) as Hrun by (vm_compute; reflexivity).
  rewrite Hrun in Hall.
  assert (Some (Conn true (Some 0%nat)) = Some (Conn false None)) as Habs.
  { apply Hall.
    - apply reachable_step, reachable_step, reachable_first.
    - vm_compute. by left.
    - vm_compute. reflexivity.
    - reflexivity.
    - vm_compute. reflexivity. }
  discriminate Habs.
Qed.

Lemma close_aborts_request_witness :
  let w1 := @step example_runtime "1700000000000" (connected "1700000000000" ∅ ∅ 0)
              (OnMessage "first") in
  In 0%nat (aborted (@step example_runtime "1700000000000" w1 OnClose)).
Proof.
  intros w1.
  refine (proj1 (proj1 (@close_aborts_request example_runtime "1700000000000" w1 _)
                   0%nat AwaitFetch 0%nat _ _)).
  - apply reachable_step, reachable_first.
  - vm_compute. by left.
  - vm_compute. reflexivity.
Defined.

(** C6 (the code diverges).  The registry is keyed by the millisecond
    of the accept.  A socket sends a prompt, and a second socket is
    accepted in the same millisecond: its object takes the place of the
    first one in the registry.  The first socket then closes while its
    request is in flight: the close handler finds the object of the
    second socket, which holds no controller, and aborts nothing; the
    request stays in flight. *)
Theorem close_misses_shared_id :
  @reachable example_runtime "1700000000000" (fun _ => True) same_millisecond /\
  flights same_millisecond = [(0%nat, AwaitFetch)] /\
  aborted (@step example_runtime "1700000000000" same_millisecond OnClose) = [] /\
  flights (@step example_runtime "1700000000000" same_millisecond OnClose)
    = [(0%nat, AwaitFetch)].
Proof.
  split; [| by vm_compute].
  apply reachable_accept; [| done | by vm_compute].
  apply reachable_step, reachable_first.
Qed.

(** In the same state a second prompt of the first socket passes the
    guard, on the object of the second socket, while the first request
    is in flight. *)
Lemma second_prompt_on_shared_id :
  flights (@step example_runtime "1700000000000" same_millisecond (OnMessage "second"))
    = [(0%nat, AwaitFetch); (1%nat, AwaitFetch)].
Proof. by vm_compute. Qed.


(** * Further properties of the relays *)

(** ** stream.js and finalserver.js: reads, failures, transcript *)

Section RelayReads.
Context `{JsRuntime}.

Lemma one_line_app (a b : string) : one_line a -> one_line b -> one_line (a +:+ b).
Proof.
  unfold one_line. intros Ha Hb. induction a as [|c a IH]; [done |].
  rewrite app_cons. simpl in *. apply orb_false_iff in Ha as [-> Ha]. by apply IH.
Qed.

Lemma read_loop_returns (cs : list string) (s : relay_state) :
  fst (read_loop cs None s) = Ok tt.
Proof.
  revert s. induction cs as [|c cs IH]; intros s; [done |].
  simpl. unfold bind.
  destruct (on_chunk_lines c s) as (ls & r & _ & _ & _ & ->). apply IH.
Qed.

(** X1.  The carry-over buffer makes the relay of stream.js (and of
    finalserver.js, for a prompt that passes the filter) blind to how
    the body is cut into reads, for every body in which no line but the
    last one carries the completion flag: two bodies with the same
    bytes give the same run. *)
Theorem reads_do_not_matter (cookie : option string) (input : string)
    (cs cs' ls : list string) (r : string) :
  str_concat cs = joined ls r -> Forall one_line ls -> one_line r ->
  Forall (fun l => completes l = false) (removelast ls) ->
  str_concat cs' = str_concat cs ->
  run_handler (stream_on_message cookie (streams cs) input) =
  run_handler (stream_on_message cookie (streams cs') input) /\
  run_handler (final_on_message cookie (streams cs) input) =
  run_handler (final_on_message cookie (streams cs') input).
Proof.
  intros Hcs Hls Hr Hgo Hcs'. rewrite Hcs in Hcs'.
  assert (forall t, read_loop cs None (RelayState "" "" t)
                    = read_loop cs' None (RelayState "" "" t)) as Hsame.
  { intros t.
    rewrite (read_loop_lines cs _ ls r), (read_loop_lines cs' _ ls r); done. }
  split.
  - unfold run_handler. rewrite !stream_on_message_streams. unfold try_catch.
    by rewrite Hsame.
  - unfold run_handler.
    destruct (isCodeRelated (trim input)) eqn:Hcode.
    + rewrite !final_on_message_streams by done. unfold try_catch. by rewrite Hsame.
    + unfold final_on_message. by rewrite Hcode.
Qed.

(** X2.  A last piece of the body that has no line feed is never
    decoded: whatever it is, also a whole completion record, the relay
    does what it does without it. *)
Theorem unfinished_line_is_dropped (cookie : option string) (input : string)
    (cs : list string) (r : string) :
  one_line r ->
  run_handler (stream_on_message cookie (streams (cs ++ [r])) input) =
  run_handler (stream_on_message cookie (streams cs) input).
Proof.
  intros Hr. unfold run_handler. rewrite !stream_on_message_streams. unfold try_catch.
  rewrite read_loop_app.
  set (s0 := RelayState "" "" [CallUpstream (GenRequest (trim input) None)]).
  destruct (joined_exists (buffer s0 +:+ str_concat cs)) as (ls & b & Hb & Hls & Hone).
  pose proof (read_loop_buffer cs s0 ls b eq_refl Hb Hls Hone) as Hbuf.
  pose proof (read_loop_returns cs s0) as Hret.
  destruct (read_loop cs None s0) as [res s1]. simpl in *. subst res b.
  unfold bind. rewrite (on_chunk_eq r s1 [] (buffer s1 +:+ r)); simpl; try done.
  by apply one_line_app.
Qed.

End RelayReads.

Lemma reads_do_not_matter_witness :
  run_handler (@stream_on_message example_runtime None
    (streams [response_line "ab" +:+ newline +:+ done_line +:+ newline]) "sort") =
  run_handler (@stream_on_message example_runtime None
    (streams [str_take 3 (response_line "ab"); str_drop 3 (response_line "ab");
              newline +:+ str_take 5 done_line; str_drop 5 done_line +:+ newline]) "sort").
Proof.
  refine (proj1 (@reads_do_not_matter example_runtime None "sort" _ _
                   [response_line "ab"; done_line] "" _ _ _ _ _)).
  - vm_compute. reflexivity.
  - repeat constructor.
  - reflexivity.
  - repeat constructor.
  - vm_compute. reflexivity.
Defined.

Lemma unfinished_line_is_dropped_witness :
  sent_of (run_handler (@stream_on_message example_runtime None
    (streams [response_line "ab" +:+ newline; done_line]) "sort")) =
  [EnvStream (JStr "ab")].
Proof.
  pose proof (@unfinished_line_is_dropped example_runtime None "sort"
                [response_line "ab" +:+ newline] done_line eq_refl) as Hdrop.
  change ([response_line "ab" +:+ newline] ++ [done_line])
    with [response_line "ab" +:+ newline; done_line] in Hdrop.
  rewrite Hdrop. vm_compute. reflexivity.
Defined.


Lemma streamed_text_app (a b : list obs) :
  streamed_text (a ++ b) = streamed_text a +:+ streamed_text b.
Proof.
  induction a as [|[rq|[v|f fl|m]] a IH]; simpl; try done.
  by rewrite IH, app_assoc_str.
Qed.

Lemma carry_nil : completions_carry_transcript [].
Proof. intros [|? ?] f t2 Heq; discriminate. Qed.

Lemma carry_snoc (t : list obs) (x : obs) :
  completions_carry_transcript t ->
  (forall f, x = WsSend (EnvComplete f false) -> f = streamed_text t) ->
  completions_carry_transcript (t ++ [x]).
Proof.
  intros Ht Hx t1 f t2 Heq.
  destruct t2 as [|y t2' _] using rev_ind.
  - apply app_inj_tail in Heq as [-> ->]. by apply Hx.
  - change (t1 ++ WsSend (EnvComplete f false) :: t2' ++ [y])
      with (t1 ++ (WsSend (EnvComplete f false) :: t2') ++ [y]) in Heq.
    rewrite app_assoc in Heq. apply app_inj_tail in Heq as [-> _].
    by apply (Ht t1 f t2').
Qed.

Section RelayTranscript.
Context `{JsRuntime}.

Lemma line_body_in_step (l : string) (s : relay_state) :
  in_step s -> in_step (snd (line_body l s)).
Proof.
  intros [Hf Ht]. rewrite line_body_eq.
  destruct (line_record l) as [[r d]|]; [| done].
  destruct s as [b f t]. simpl in Hf, Ht. subst f.
  assert (streamed_text (t ++ [WsSend (EnvStream r)])
          = streamed_text t +:+ text_of r) as Hstream.
  { rewrite streamed_text_app. simpl. by rewrite app_empty_r. }
  assert (forall t' : list obs,
            streamed_text (t' ++ [WsSend (EnvComplete (streamed_text t') false)])
            = streamed_text t') as Hdone.
  { intros t'. rewrite streamed_text_app. simpl. by rewrite app_empty_r. }
  assert (completions_carry_transcript (t ++ [WsSend (EnvStream r)])) as Hsent.
  { apply carry_snoc; [done | intros ? [=]]. }
  unfold apply_record, in_step.
  destruct (truthy r), (truthy d); simpl; rewrite <- ?Hstream, ?Hdone; split; try done.
  - apply carry_snoc; [done |]. by intros f [= ->].
  - apply carry_snoc; [done |]. by intros f [= ->].
Qed.

Lemma for_of_in_step (ls : list string) (s : relay_state) :
  in_step s -> in_step (snd (for_of line_body ls s)).
Proof.
  revert s. induction ls as [|l ls IH]; intros s Hs; [done |].
  simpl. unfold bind. pose proof (line_body_in_step l s Hs) as Hl.
  destruct (line_body l s) as [[[|]|e] s1]; simpl in *; try done. by apply IH.
Qed.

Lemma on_chunk_in_step (c : string) (s : relay_state) :
  in_step s -> in_step (snd (on_chunk c s)).
Proof.
  intros Hs. destruct (on_chunk_lines c s) as (ls & r & _ & _ & _ & ->).
  by apply (for_of_in_step ls s).
Qed.

Lemma read_loop_in_step (cs : list string) (e : option js_error) (s : relay_state) :
  in_step s -> in_step (snd (read_loop cs e s)).
Proof.
  revert s. induction cs as [|c cs IH]; intros s Hs.
  - by destruct e.
  - simpl. unfold bind. pose proof (on_chunk_in_step c s Hs) as Hc.
    destruct (on_chunk_lines c s) as (ls & r & _ & _ & _ & Heq).
    rewrite Heq in *. by apply IH.
Qed.

Lemma relay_response_carry (r : response) (s : relay_state) :
  streamed_text (trace s) = "" -> completions_carry_transcript (trace s) ->
  completions_carry_transcript (trace (snd (relay_response r s))).
Proof.
  intros Hnone Ht. unfold relay_response.
  destruct (negb (ok r)).
  { apply carry_snoc; [done | intros ? [=]]. }
  destruct (body r) as [b|].
  - unfold_m. by apply read_loop_in_step.
  - apply carry_snoc; [done | intros ? [=]].
Qed.

Lemma fetch_then_relay_carry (up : upstream) (rq : gen_request) :
  completions_carry_transcript
    (trace (snd (try_catch (r <- fetch up rq ;; relay_response r)
                   (fun error => ws_send (EnvError (err_message error)))
                   initial_relay_state))).
Proof.
  assert (completions_carry_transcript [CallUpstream rq]) as Hcall.
  { apply (carry_snoc []); [apply carry_nil | intros ? [=]]. }
  unfold try_catch, bind, fetch. simpl.
  destruct (up rq) as [e|r].
  { apply carry_snoc; [done | intros ? [=]]. }
  pose proof (relay_response_carry r (RelayState "" "" [CallUpstream rq]) eq_refl Hcall)
    as Hr.
  destruct (relay_response r _) as [[[]|e] s1]; [done |].
  apply carry_snoc; [done | intros ? [=]].
Qed.

(** X3.  Whatever the upstream answers and however the runtime parses,
    every [complete] envelope the relay loop of stream.js and of
    finalserver.js sends carries exactly the concatenation of the
    contents of the [stream] envelopes sent before it in the run. *)
Theorem completion_carries_the_transcript (cookie : option string) (up : upstream)
    (input : string) :
  completions_carry_transcript (run_handler (stream_on_message cookie up input)) /\
  completions_carry_transcript (run_handler (final_on_message cookie up input)).
Proof.
  split.
  - apply fetch_then_relay_carry.
  - unfold run_handler, final_on_message.
    destruct (negb (isCodeRelated (trim input))).
    + apply (carry_snoc []); [apply carry_nil | intros ? [=]].
    + apply fetch_then_relay_carry.
Qed.

Lemma read_loop_fails (cs : list string) (e : js_error) (s : relay_state) :
  read_loop cs (Some e) s = (Throw e, snd (read_loop cs None s)).
Proof.
  revert s. induction cs as [|c cs IH]; intros s; [done |].
  simpl. unfold bind.
  destruct (on_chunk_lines c s) as (ls & r & _ & _ & _ & ->). apply IH.
Qed.

(** X4.  A read of the body that rejects loses nothing of what came
    before it: the handler of stream.js does what it does on the same
    reads of a body that ends, and then sends one [error] envelope with
    the message of the rejection.  The handler itself returns, whatever
    the upstream does. *)
Theorem failed_read_is_reported (cookie : option string) (input : string)
    (cs : list string) (e : js_error) :
  run_handler (stream_on_message cookie (streams_then_fails cs e) input) =
    run_handler (stream_on_message cookie (streams cs) input)
      ++ [WsSend (EnvError (err_message e))] /\
  forall (up : upstream) (s : relay_state),
    fst (stream_on_message cookie up input s) = Ok tt.
Proof.
  split.
  - unfold run_handler, stream_on_message, try_catch, bind, fetch, streams_then_fails,
      streams, relay_response.
    simpl. unfold_m. unfold modify. simpl. rewrite read_loop_fails.
    pose proof (read_loop_returns cs
      (RelayState "" "" ([] ++ [CallUpstream (GenRequest (trim input) None)]))) as Hret.
    destruct (read_loop cs None _) as [res s1]. simpl in *. by subst res.
  - intros up s. unfold stream_on_message, try_catch, bind, fetch.
    destruct (up _) as [err|r]; [done |].
    by destruct (relay_response r _) as [[[]|err] s1].
Qed.

(** X5.  When the call gives no body to read (it rejects, or answers
    with a status that is not ok, or without a body), the handler of
    stream.js sends one [error] envelope and nothing else. *)
Theorem no_body_one_error (cookie : option string) (up : upstream) (input : string) :
  gives_no_body (up (GenRequest (trim input) None)) = true ->
  exists m, sent_of (run_handler (stream_on_message cookie up input)) = [EnvError m].
Proof.
  unfold gives_no_body, run_handler, stream_on_message, try_catch, bind, fetch,
    relay_response.
  destruct (up _) as [e|r]; simpl.
  { intros _. by eexists. }
  destruct (negb (ok r)); simpl.
  { intros _. by eexists. }
  destruct (body r); simpl; [done |]. intros _. by eexists.
Qed.

End RelayTranscript.

Lemma no_body_one_error_witness :
  exists m, sent_of (run_handler (@stream_on_message example_runtime None
    (fun _ => FetchResolves (Response 503 "Service Unavailable" None)) "sort"))
    = [EnvError m].
Proof.
  apply (@no_body_one_error example_runtime None
           (fun _ => FetchResolves (Response 503 "Service Unavailable" None)) "sort").
  vm_compute. reflexivity.
Defined.


(** ** llm1.js, first variant: what reaches the socket, and what a
    connection leaves alone *)

Lemma socket_sends_app (l1 l2 : list early_obs) :
  socket_sends (l1 ++ l2) = socket_sends l1 ++ socket_sends l2.
Proof. apply omap_app. Qed.

Lemma flight_phase_drop (k : nat) (p : phase) (fs : list (nat * phase)) :
  flight_phase k (drop_flight k fs ++ [(k, p)]) = Some p.
Proof.
  unfold drop_flight. induction fs as [|[k' p'] fs IH]; simpl.
  - by rewrite Nat.eqb_refl.
  - rewrite filter_cons. simpl. destruct (decide (k' <> k)) as [Hne|Heq]; [| done].
    simpl. destruct (Nat.eqb k k') eqn:E; [| done].
    apply Nat.eqb_eq in E. by destruct Hne.
Qed.

Section Quiet.
Context `{JsRuntime}.
Variable connectionId : string.

Lemma for_of_early_closed (ls : list string) (w : world) :
  is_open (readyState w) = false -> for_of early_line_body ls w = (Ok tt, w).
Proof.
  intros Hclosed. destruct ls as [|l ls]; [done |].
  simpl. unfold bind, early_line_body. unfold_w. by rewrite Hclosed.
Qed.

Lemma loop_top_closed (k : nat) (w : world) :
  is_open (readyState w) = false ->
  loop_top k w = (Ok None, add_log [ReaderCancel k] w).
Proof.
  intros Hclosed. unfold loop_top, after_loop. unfold_w. rewrite Hclosed. simpl.
  by rewrite Hclosed.
Qed.

Lemma after_loop_closed (w : world) :
  is_open (readyState w) = false -> after_loop w = (Ok None, w).
Proof.
  intros Hclosed. unfold after_loop. unfold_w. rewrite Hclosed. by destruct w.
Qed.

Lemma catch_log_closed (err : js_error) (w : world) :
  is_open (readyState w) = false -> catch_log err w = [].
Proof. intros Hclosed. unfold catch_log. by rewrite Hclosed. Qed.

Lemma segment_fetched_closed (k : nat) (o : fetch_settled) (w : world) :
  is_open (readyState w) = false ->
  exists r l, segment_fetched k o w = (r, add_log l w) /\ socket_sends l = [].
Proof.
  intros Hclosed. unfold segment_fetched. destruct o as [e|r].
  - exists (Throw e), []. by rewrite add_log_nil.
  - destruct (negb (h_ok r)); [eexists (Throw _), []; by rewrite add_log_nil |].
    destruct (negb (h_has_body r)); [eexists (Throw _), []; by rewrite add_log_nil |].
    rewrite loop_top_closed by done. by eexists _, _.
Qed.

Lemma segment_read_closed (k : nat) (o : read_outcome) (w : world) :
  is_open (readyState w) = false ->
  exists r l, segment_read k o w = (r, add_log l w) /\ socket_sends l = [].
Proof.
  intros Hclosed. unfold segment_read. destruct o as [chunk| |e].
  - unfold bind. rewrite for_of_early_closed, loop_top_closed by done. by eexists _, _.
  - rewrite after_loop_closed by done. exists (Ok None), []. by rewrite add_log_nil.
  - exists (Throw e), []. by rewrite add_log_nil.
Qed.

Lemma in_try_closed (k : nat) (segment : M world (option phase)) (w : world)
    (r : result (option phase)) (l : list early_obs) :
  is_open (readyState w) = false ->
  segment w = (r, add_log l w) -> socket_sends l = [] ->
  socket_sends (log (snd (in_try connectionId k segment w))) = socket_sends (log w).
Proof.
  intros Hclosed Hseg Hl. rewrite (in_try_log connectionId k _ w r l Hseg).
  destruct r as [[p|]|err]; simpl;
    rewrite ?catch_log_closed, ?app_nil_r, socket_sends_app, Hl, ?app_nil_r; done.
Qed.

Lemma step_readyState (w : world) (e : event) :
  readyState (step connectionId w e) =
    match e with
    | SocketClosing => CLOSING
    | OnClose => CLOSED
    | _ => readyState w
    end.
Proof.
  destruct e as [userInput|k o|k o| | |err].
  - destruct (activeConnections w !! connectionId) as [a|] eqn:Ha.
    + destruct (heap w !! a) as [[[|] ctl]|] eqn:Hc.
      * by rewrite (step_message_busy connectionId w userInput a _ Ha Hc).
      * by rewrite (step_message_idle connectionId w userInput a _ Ha Hc).
      * destruct (step_message_gone connectionId w userInput) as [err ->]; [by rewrite Ha | done].
    + destruct (step_message_gone connectionId w userInput) as [err ->]; [by rewrite Ha | done].
  - by destruct (step_fetch_settled connectionId w k o)
      as [-> | (_ & [(p & l & -> & _) | (l & -> & _)])].
  - by destruct (step_read_settled connectionId w k o)
      as [-> | (_ & [(p & l & -> & _) | (l & -> & _)])].
  - done.
  - by rewrite step_close.
  - by rewrite step_error.
Qed.

Lemma step_closed (w : world) (e : event) :
  is_open (readyState w) = false ->
  socket_sends (log (step connectionId w e)) = socket_sends (log w) /\
  is_open (readyState (step connectionId w e)) = false.
Proof.
  intros Hclosed. split; [| rewrite step_readyState; by destruct e].
  destruct e as [userInput|k o|k o| | |err].
  - destruct (activeConnections w !! connectionId) as [a|] eqn:Ha.
    + destruct (heap w !! a) as [[[|] ctl]|] eqn:Hc.
      * by rewrite (step_message_busy connectionId w userInput a _ Ha Hc).
      * rewrite (step_message_idle connectionId w userInput a _ Ha Hc) by done.
        simpl. rewrite Hclosed, socket_sends_app. simpl. by rewrite app_nil_r.
      * destruct (step_message_gone connectionId w userInput) as [err ->]; [by rewrite Ha |].
        simpl. rewrite socket_sends_app. simpl. by rewrite app_nil_r.
    + destruct (step_message_gone connectionId w userInput) as [err ->]; [by rewrite Ha |].
      simpl. rewrite socket_sends_app. simpl. by rewrite app_nil_r.
  - unfold step, dispatch, bind, gets.
    destruct (flight_phase k (flights w)) as [[|]|]; try done.
    destruct (segment_fetched_closed k o w Hclosed) as (r & l & Hseg & Hl).
    pose proof (in_try_closed k _ w r l Hclosed Hseg Hl) as Hquiet.
    rewrite (in_try_log connectionId k _ w r l Hseg) in *. done.
  - unfold step, dispatch, bind, gets.
    destruct (flight_phase k (flights w)) as [[|]|]; try done.
    destruct (segment_read_closed k o w Hclosed) as (r & l & Hseg & Hl).
    pose proof (in_try_closed k _ w r l Hclosed Hseg Hl) as Hquiet.
    rewrite (in_try_log connectionId k _ w r l Hseg) in *. done.
  - done.
  - by rewrite step_close.
  - by rewrite step_error.
Qed.

(** X6.  Once the socket of the first variant is not open, nothing that
    happens later (prompts, the call or a read settling, errors, the
    close) hands anything to [socket.send]. *)
Theorem closed_socket_gets_nothing (w : world) (es : list event) :
  is_open (readyState w) = false ->
  socket_sends (log (run connectionId w es)) = socket_sends (log w).
Proof.
  revert w. induction es as [|e es IH]; intros w Hclosed; [done |].
  destruct (step_closed w e Hclosed) as [Hsame Hstill].
  change (run connectionId w (e :: es)) with (run connectionId (step connectionId w e) es).
  by rewrite IH.
Qed.


End Quiet.


Lemma closed_socket_gets_nothing_witness :
  socket_sends (log (@run example_runtime "1700000000000"
    (@run example_runtime "1700000000000" (connected "1700000000000" ∅ ∅ 0)
       [OnMessage "hi"; OnClose])
    [FetchSettled 0 head_ok; ReadSettled 0 (ReadValue (response_line "x" +:+ newline));
     OnMessage "again"]))
  = [JStr HI_MESSAGE].
Proof.
  rewrite (@closed_socket_gets_nothing example_runtime "1700000000000").
  - vm_compute. reflexivity.
  - vm_compute. reflexivity.
Defined.


Section Forwarding.
Context `{JsRuntime}.
Variable connectionId : string.

Lemma early_line_body_text (l x : string) (w : world) :
  is_open (readyState w) = true -> text_line l x ->
  early_line_body l w =
    (Ok Next, add_log (if decide (x <> "") then [SocketSend (JStr x)] else []) w).
Proof.
  intros Hopen (fields & (_ & _ & Hp) & Hr). unfold early_line_body. unfold_w.
  rewrite Hopen, Hp. simpl. rewrite Hr, Hopen, andb_true_r.
  destruct x as [|c x]; simpl; [by rewrite add_log_nil | done].
Qed.

Lemma for_of_early_text (ls xs : list string) (w : world) :
  is_open (readyState w) = true -> Forall2 text_line ls xs ->
  for_of early_line_body ls w =
    (Ok tt, add_log (map (fun x => SocketSend (JStr x)) (nonempty_fragments xs)) w).
Proof.
  intros Hopen Hls. revert w Hopen.
  induction Hls as [|l x ls xs Hl Hls IH]; intros w Hopen.
  - by rewrite add_log_nil.
  - simpl. unfold bind. rewrite (early_line_body_text l x w Hopen Hl).
    rewrite IH by done. rewrite add_log_app. unfold nonempty_fragments.
    rewrite filter_cons. by destruct (decide (x <> "")).
Qed.

Lemma filter_text_lines (ls xs : list string) :
  Forall2 text_line ls xs ->
  filter (fun line => negb (str_is_empty (trim line))) (ls ++ [""]) = ls.
Proof.
  induction 1 as [|l x ls xs (fields & (_ & Hb & _) & _) Hls IH]; [done |].
  simpl. rewrite filter_cons, Hb. simpl. by rewrite IH.
Qed.

Lemma socket_sends_texts (xs : list string) :
  socket_sends (map (fun x => SocketSend (JStr x)) xs) = map JStr xs.
Proof. induction xs as [|x xs IH]; [done |]. simpl. by rewrite <- IH. Qed.

(** X8.  While the socket is open, a read of the first variant that
    holds whole lines, each a record with a text [response] (whatever
    its other fields, the completion flag among them), hands the texts
    that are not empty to [socket.send], bare and in order, and the
    invocation waits for the next read. *)
Theorem whole_lines_are_forwarded (w : world) (k : nat) (ls xs : list string) :
  flight_phase k (flights w) = Some AwaitRead ->
  is_open (readyState w) = true ->
  Forall2 text_line ls xs ->
  let w' := step connectionId w (ReadSettled k (ReadValue (joined ls ""))) in
  socket_sends (log w') = socket_sends (log w) ++ map JStr (nonempty_fragments xs) /\
  flight_phase k (flights w') = Some AwaitRead /\
  heap w' = heap w.
Proof.
  intros Hk Hopen Hls.
  assert (Forall one_line ls) as Hone.
  { clear Hk. induction Hls as [|l x ls xs (fields & (Hl & _) & _) _ IH]; by constructor. }
  assert (segment_read k (ReadValue (joined ls "")) w =
          (Ok (Some AwaitRead),
           add_log (map (fun x => SocketSend (JStr x)) (nonempty_fragments xs)) w)) as Hseg.
  { unfold segment_read, bind.
    rewrite split_joined by done. rewrite (filter_text_lines ls xs Hls).
    rewrite (for_of_early_text ls xs w Hopen Hls).
    unfold loop_top. unfold_w. simpl. by rewrite Hopen. }
  simpl. unfold step, dispatch, bind, gets. rewrite Hk.
  rewrite (in_try_log connectionId k _ w _ _ Hseg). simpl.
  rewrite socket_sends_app, socket_sends_texts, flight_phase_drop. done.
Qed.

Lemma flight_phase_dropped (k : nat) (fs : list (nat * phase)) :
  flight_phase k (drop_flight k fs) = None.
Proof.
  unfold drop_flight. induction fs as [|[k' p'] fs IH]; [done |].
  rewrite filter_cons. simpl. destruct (decide (k' <> k)) as [Hne|Heq]; [| done].
  simpl. destruct (Nat.eqb k k') eqn:E; [| done].
  apply Nat.eqb_eq in E. by destruct Hne.
Qed.

(** X9.  While the socket is open, an answer of the upstream whose
    status is not ok makes the first variant send one notice with the
    status and its text, and ends the invocation through [finally]: the
    body is never read, and the connection object, if the registry still
    has it, is reset. *)
Theorem refused_call_is_reported (w : world) (k : nat) (r : response_head) :
  flight_phase k (flights w) = Some AwaitFetch ->
  is_open (readyState w) = true ->
  h_ok r = false ->
  let w' := step connectionId w (FetchSettled k (HeadResolves r)) in
  socket_sends (log w') = socket_sends (log w) ++ [status_notice r] /\
  flight_phase k (flights w') = None /\
  heap w' = cleared connectionId (activeConnections w) (heap w).
Proof.
  intros Hk Hopen Hr.
  assert (segment_fetched k (HeadResolves r) w =
          (Throw (Error ("Ollama API error: " +:+ pretty (h_status r) +:+ " "
                         +:+ h_statusText r)), add_log [] w)) as Hseg.
  { unfold segment_fetched. by rewrite Hr, add_log_nil. }
  simpl. unfold step, dispatch, bind, gets. rewrite Hk.
  rewrite (in_try_log connectionId k _ w _ _ Hseg). simpl.
  rewrite socket_sends_app, flight_phase_dropped.
  unfold catch_log. rewrite Hopen. done.
Qed.

End Forwarding.

Lemma whole_lines_are_forwarded_witness :
  let w := @run example_runtime "1700000000000" (connected "1700000000000" ∅ ∅ 0)
             [OnMessage "hi"; FetchSettled 0 head_ok] in
  let last_line := "{" +:+ quoted "response" +:+ ":" +:+ quoted "c" +:+ ","
                   +:+ quoted "done" +:+ ":true}" in
  socket_sends (log (@step example_runtime "1700000000000" w
    (ReadSettled 0 (ReadValue (joined [response_line "a"; response_line ""; last_line] "")))))
  = [JStr HI_MESSAGE; JStr "a"; JStr "c"].
Proof.
  intros w last_line.
  destruct (@whole_lines_are_forwarded example_runtime "1700000000000" w 0
              [response_line "a"; response_line ""; last_line] ["a"; ""; "c"])
    as [Hsent _].
  - vm_compute. reflexivity.
  - vm_compute. reflexivity.
  - repeat constructor.
    + exists [("response", JStr "a")]. vm_compute. repeat split; reflexivity.
    + exists [("response", JStr "")]. vm_compute. repeat split; reflexivity.
    + exists [("response", JStr "c"); ("done", JBool true)].
      vm_compute. repeat split; reflexivity.
  - rewrite Hsent. vm_compute. reflexivity.
Defined.

Lemma refused_call_is_reported_witness :
  let w := @run example_runtime "1700000000000" (connected "1700000000000" ∅ ∅ 0)
             [OnMessage "hi"] in
  socket_sends (log (@step example_runtime "1700000000000" w
    (FetchSettled 0 (HeadResolves (ResponseHead 404 "Not Found" false)))))
  = [JStr HI_MESSAGE; JStr "[❌ Error] Ollama API error: 404 Not Found"].
Proof.
  intros w.
  destruct (@refused_call_is_reported example_runtime "1700000000000" w 0
              (ResponseHead 404 "Not Found" false)) as [Hsent _].
  - vm_compute. reflexivity.
  - vm_compute. reflexivity.
  - reflexivity.
  - rewrite Hsent. vm_compute. reflexivity.
Defined.


(** ** Session validation: the copies agree, and what they do not check *)

Section Validators.
Context `{JsRuntime} `{SessionStore}.

(** X10.  When the two SELECTs on [users] read the same table, the copy
    of [validateUserSession] in the gated variant of llm1.js, with its
    logging queries and its own [try] around [JSON.parse], finds a user
    exactly when the copy of stream.js and finalserver.js finds one:
    it returns the profile (id, full_name, email, avatar_url) of which
    the other copy returns the id and the name, and [null] when the
    other returns [null]; neither raises nor changes the state. *)
Theorem validators_agree {S : Type} (cookieHeader : option string) (s : S) :
  same_users ->
  exists r,
    validateUserSession_gated cookieHeader s = (Ok r, s) /\
    validateUserSession cookieHeader s = (Ok (id_and_name <$> r), s).
Proof.
  intros Hsame.
  destruct (validate_outcome cookieHeader s) as (r0 & Hrun0 & Hr0).
  destruct (validate_gated_outcome cookieHeader s) as (r & Hrun & Hr).
  exists r. split; [done |]. rewrite Hrun0. f_equal. f_equal.
  destruct r as [p|]; simpl.
  - apply Hr0.
    destruct (proj1 (Hr p) eq_refl)
      as (h & captured & sid & data & rows & fields & uid & users
          & Hh & Hm & Hclean & Hq & Hp & Hu & Ht & Hus).
    exists h, captured, sid, data, rows, fields, uid, (map id_and_name users).
    repeat (split; [done |]). by rewrite Hsame, Hus.
  - destruct r0 as [u|]; [| done].
    destruct (proj1 (Hr0 u) eq_refl)
      as (h & captured & sid & data & rows & fields & uid & users
          & Hh & Hm & Hclean & Hq & Hp & Hu & Ht & Hus).
    rewrite Hsame in Hus.
    destruct (select_user_profile uid) as [e|[|p profiles]] eqn:Hps; try done.
    assert (@None user_profile = Some p) as Hnone; [| discriminate Hnone].
    apply Hr. by exists h, captured, sid, data, rows, fields, uid, profiles.
Qed.

Lemma until_semicolon_app (a b : string) :
  has_char ";" a = false -> until_semicolon (a +:+ b) = a +:+ until_semicolon b.
Proof.
  induction a as [|c a IH]; [done |].
  rewrite !app_cons. simpl. rewrite (Ascii.eqb_sym c ";").
  intros Hc. apply orb_false_iff in Hc as [Hc Ha].
  rewrite Ascii.eqb_sym, Hc in *. by rewrite IH.
Qed.

Lemma until_semicolon_plain (a : string) :
  has_char ";" a = false -> until_semicolon a = a.
Proof.
  intros Ha. rewrite <- (app_empty_r a) at 1.
  rewrite until_semicolon_app by done. simpl. by rewrite app_empty_r.
Qed.

Lemma match_sessionId_first (v : string) :
  str_is_empty (until_semicolon v) = false ->
  match_sessionId ("sessionId=" +:+ v) = Some (until_semicolon v).
Proof.
  intros Hv. rewrite !app_cons, app_nil_l.
  assert (String.prefix "" v = true) as Hp by (by destruct v).
  unfold match_sessionId, startsWith. simpl. by rewrite Hp, Hv.
Qed.

Lemma indexOf_absent (a : string) (c : ascii) :
  has_char c a = false -> indexOf a c = -1.
Proof.
  induction a as [|d a IH]; [done |]. simpl.
  intros Hc. apply orb_false_iff in Hc as [-> Ha]. by rewrite IH.
Qed.

Lemma indexOf_after (a b : string) (c : ascii) :
  has_char c a = false -> indexOf (a +:+ String c b) c = Z.of_nat (String.length a).
Proof.
  induction a as [|d a IH].
  - intros _. rewrite app_nil_l. simpl. by rewrite Ascii.eqb_refl.
  - rewrite app_cons. simpl. intros Hc. apply orb_false_iff in Hc as [-> Ha].
    rewrite IH by done.
    destruct (Z.of_nat (String.length a) <? 0) eqn:E; lia.
Qed.

Lemma str_take_app (a b : string) : str_take (String.length a) (a +:+ b) = a.
Proof.
  induction a as [|c a IH]; [by destruct b |].
  rewrite app_cons. simpl. by rewrite IH.
Qed.

Lemma prefix_cons (c d : ascii) (k s : string) :
  String.prefix (String c k) (String d s) = if ascii_dec c d then String.prefix k s else false.
Proof. reflexivity. Qed.

Lemma prefix_second (c d e f : ascii) (k s : string) :
  Ascii.eqb f d = false -> String.prefix (String c (String d k)) (String e (String f s)) = false.
Proof.
  intros Hd. rewrite !prefix_cons. destruct (ascii_dec c e); [| done].
  destruct (ascii_dec d f) as [<-|]; [| done]. by rewrite Ascii.eqb_refl in Hd.
Qed.

Lemma prefix_short (c d e : ascii) (k : string) :
  String.prefix (String c (String d k)) (String e "") = false.
Proof. rewrite prefix_cons. by destruct (ascii_dec c e). Qed.

Lemma not_encoded (a b : string) :
  has_char "%" a = false -> startsWith (a +:+ String "." b) "s%3A" = false.
Proof.
  unfold startsWith. destruct a as [|c [|d a]].
  - by rewrite app_nil_l.
  - intros _. rewrite app_cons, app_nil_l. by apply prefix_second.
  - rewrite !app_cons. simpl. intros Hc.
    apply orb_false_iff in Hc as [_ Hc]. apply orb_false_iff in Hc as [Hd _].
    by apply prefix_second.
Qed.

Lemma not_encoded_plain (a : string) :
  has_char "%" a = false -> startsWith a "s%3A" = false.
Proof.
  unfold startsWith. destruct a as [|c [|d a]].
  - done.
  - intros _. apply prefix_short.
  - simpl. intros Hc.
    apply orb_false_iff in Hc as [_ Hc]. apply orb_false_iff in Hc as [Hd _].
    by apply prefix_second.
Qed.

Lemma not_signed_plain (a : string) :
  has_char ":" a = false -> startsWith a "s:" = false.
Proof.
  unfold startsWith. destruct a as [|c [|d a]].
  - done.
  - intros _. apply prefix_short.
  - simpl. intros Hc.
    apply orb_false_iff in Hc as [_ Hc]. apply orb_false_iff in Hc as [Hd _].
    by apply prefix_second.
Qed.

Lemma clean_sessionId_signed {S : Type} (id signature : string) (s : S) :
  has_char "." id = false -> has_char "%" id = false ->
  clean_sessionId ("s:" +:+ id +:+ "." +:+ signature) s = (Ok id, s).
Proof.
  intros Hdot Hpct. unfold clean_sessionId.
  rewrite !app_cons, !app_nil_l.
  assert (startsWith (String "s" (String ":" (id +:+ String "." signature))) "s:" = true)
    as ->.
  { unfold startsWith. rewrite !prefix_cons. simpl. by destruct (id +:+ _). }
  change (substring_from 2 (String "s" (String ":" (id +:+ String "." signature))))
    with (id +:+ String "." signature).
  rewrite not_encoded by done. unfold bind, ret.
  rewrite indexOf_after by done.
  assert ((Z.of_nat (String.length id) >? -1) = true) as -> by (apply Z.gtb_lt; lia).
  unfold substring_to. by rewrite Nat2Z.id, str_take_app.
Qed.

Lemma clean_sessionId_plain {S : Type} (id : string) (s : S) :
  has_char "." id = false -> has_char "%" id = false -> has_char ":" id = false ->
  clean_sessionId id s = (Ok id, s).
Proof.
  intros Hdot Hpct Hcolon. unfold clean_sessionId.
  rewrite not_signed_plain, not_encoded_plain by done. unfold bind, ret.
  by rewrite indexOf_absent.
Qed.

(** X11.  The signature of the session cookie is never checked: a
    cookie [sessionId=s:<id>.<signature>] is resolved as the bare
    [sessionId=<id>] is, whatever stands for the signature, by all
    copies of [validateUserSession]. *)
Theorem cookie_signature_is_not_checked {S : Type} (id signature : string) (s : S) :
  plain_id id = true ->
  validateUserSession (Some (signed_cookie id signature)) s =
    validateUserSession (Some ("sessionId=" +:+ id)) s /\
  validateUserSession_gated (Some (signed_cookie id signature)) s =
    validateUserSession_gated (Some ("sessionId=" +:+ id)) s.
Proof.
  unfold plain_id. intros Hid.
  repeat (apply andb_true_iff in Hid as [Hid ?]).
  repeat match goal with Hx : negb _ = true |- _ => apply negb_true_iff in Hx end.
  assert (match_sessionId (signed_cookie id signature)
          = Some ("s:" +:+ id +:+ "." +:+ until_semicolon signature)) as Hsigned.
  { unfold signed_cookie.
    change ("sessionId=s:" +:+ id +:+ "." +:+ signature)
      with ("sessionId=" +:+ ("s:" +:+ id +:+ "." +:+ signature)).
    assert (until_semicolon ("s:" +:+ id +:+ "." +:+ signature)
            = "s:" +:+ id +:+ "." +:+ until_semicolon signature) as Hcut.
    { rewrite !app_cons, !app_nil_l. simpl.
      by rewrite until_semicolon_app by done. }
    rewrite match_sessionId_first; rewrite Hcut; [done |].
    by rewrite !app_cons. }
  assert (match_sessionId ("sessionId=" +:+ id) = Some id) as Hbare.
  { rewrite match_sessionId_first; rewrite until_semicolon_plain by done; [done |].
    by destruct id. }
  split; [unfold validateUserSession | unfold validateUserSession_gated];
    unfold try_catch, bind;
    unfold signed_cookie at 1; rewrite !app_cons, !app_nil_l; cbn [str_is_empty];
    change (String "s" (String "e" (String "s" (String "s" (String "i" (String "o"
              (String "n" (String "I" (String "d" (String "="
                (String "s" (String ":" (id +:+ String "." signature)))))))))))))
      with (signed_cookie id signature);
    change (String "s" (String "e" (String "s" (String "s" (String "i" (String "o"
              (String "n" (String "I" (String "d" (String "=" id))))))))))
      with ("sessionId=" +:+ id);
    rewrite Hsigned, Hbare;
    rewrite clean_sessionId_signed, clean_sessionId_plain by done; done.
Qed.

End Validators.

Lemma example_store_same_users : @same_users example_store.
Proof.
  intros [| | |n| | |]; try reflexivity.
  destruct n as [|[[[]|[]|]|[[]|[]|]|]|]; reflexivity.
Qed.

Lemma validators_agree_witness :
  exists r,
    @validateUserSession_gated example_runtime example_store unit
      (Some "sessionId=abc123") tt = (Ok r, tt) /\
    @validateUserSession example_runtime example_store unit
      (Some "sessionId=abc123") tt = (Ok (id_and_name <$> r), tt).
Proof.
  apply (@validators_agree example_runtime example_store unit
           (Some "sessionId=abc123") tt example_store_same_users).
Defined.

Lemma cookie_signature_is_not_checked_witness :
  fst (@validateUserSession example_runtime example_store unit
         (Some (signed_cookie "abc123" "forged")) tt) = Ok (Some (UserRow 7 "Ada")).
Proof.
  destruct (@cookie_signature_is_not_checked example_runtime example_store unit
              "abc123" "forged" tt) as [-> _].
  - reflexivity.
  - vm_compute. reflexivity.
Defined.

(** ** finalserver.js: the topic filter is a substring test *)

Lemma prefix_app_r (k a b : string) :
  String.prefix k a = true -> String.prefix k (a +:+ b) = true.
Proof.
  revert a. induction k as [|c k IH]; intros a; [intros _; by destruct (a +:+ b) |].
  destruct a as [|d a]; [done |]. rewrite app_cons, !prefix_cons.
  destruct (ascii_dec c d); [apply IH | done].
Qed.

Lemma includes_app_r (a b k : string) :
  includes a k = true -> includes (a +:+ b) k = true.
Proof.
  induction a as [|c a IH].
  - simpl. rewrite orb_false_r, app_nil_l. intros Hk.
    destruct k; [by destruct b | done].
  - rewrite app_cons. simpl. intros Hk. apply orb_true_iff in Hk as [Hk|Hk].
    + apply orb_true_iff. left. by apply (prefix_app_r k (String c a) b).
    + apply orb_true_iff. right. by apply IH.
Qed.

Lemma includes_app_l (a b k : string) :
  includes b k = true -> includes (a +:+ b) k = true.
Proof.
  intros Hk. induction a as [|c a IH]; [by rewrite app_nil_l |].
  rewrite app_cons. simpl. rewrite IH. apply orb_true_r.
Qed.

Lemma toLowerCase_app (a b : string) :
  toLowerCase (a +:+ b) = toLowerCase a +:+ toLowerCase b.
Proof.
  induction a as [|c a IH]; [by rewrite !app_nil_l |].
  rewrite app_cons. simpl. by rewrite IH, app_cons.
Qed.

(** X12.  The filter of finalserver.js is a substring test, so it is
    monotone: text put before or after a prompt that passes never makes
    it fail. *)
Theorem isCodeRelated_embedded (before prompt after : string) :
  isCodeRelated prompt = true ->
  isCodeRelated (before +:+ prompt +:+ after) = true.
Proof.
  unfold isCodeRelated. intros Hp.
  apply existsb_exists in Hp as (k & Hin & Hk).
  apply existsb_exists. exists k. split; [done |].
  rewrite !toLowerCase_app. by apply includes_app_l, includes_app_r.
Qed.

Lemma isCodeRelated_embedded_witness :
  isCodeRelated ("what about a " +:+ "heap" +:+ " of sand?") = true.
Proof.
  apply isCodeRelated_embedded. vm_compute. reflexivity.
Defined.

Lemma includes_first_char (s k : string) (c : ascii) :
  includes s (String c k) = true -> has_char c s = true.
Proof.
  induction s as [|d s IH]; [done |]. simpl.
  intros Hk. apply orb_true_iff in Hk as [Hk|Hk].
  - destruct (ascii_dec c d) as [<-|]; [| done]. by rewrite Ascii.eqb_refl.
  - rewrite IH by done. apply orb_true_r.
Qed.

Lemma lower_char_not_B (c : ascii) : Ascii.eqb (lower_char c) "B" = false.
Proof. destruct c as [[] [] [] [] [] [] [] []]; vm_compute; reflexivity. Qed.

(** X13.  The keyword [Big O] of the list can never match: the prompt
    is lower-cased before the test and the keyword is not.  A prompt
    that asks for it by name is turned away. *)
Theorem capital_keyword_never_matches (prompt : string) :
  In "Big O" CODING_KEYWORDS /\
  includes (toLowerCase prompt) "Big O" = false /\
  isCodeRelated "What is Big O?" = false.
Proof.
  split; [apply list_elem_of_In, (bool_decide_unpack _); by vm_compute |].
  split; [| vm_compute; reflexivity].
  destruct (includes (toLowerCase prompt) "Big O") eqn:Hk; [| done].
  apply includes_first_char in Hk.
  assert (has_char "B" (toLowerCase prompt) = false) as Hnone; [| congruence].
  clear Hk. induction prompt as [|c p IH]; [done |].
  simpl. by rewrite lower_char_not_B, IH.
Qed.


(** ** llm1.js, gated variant: its decode loop against the one of
    stream.js *)

Section TwoLoops.
Context `{JsRuntime}.

Lemma same_progress_with_buffer (b : string) (s : relay_state) (g : gated_state) :
  same_progress s g ->
  same_progress (with_buffer b s)
    (GatedState OPEN b (g_fullResponse g) (g_actions g)).
Proof. by intros (Hopen & Hb & Hf & Ha). Qed.

Lemma gated_line_body_same (l : string) (s : relay_state) (g : gated_state) :
  same_progress s g -> loops_part_on l = false ->
  fst (gated_line_body l g) = fst (line_body l s) /\
  same_progress (snd (line_body l s)) (snd (gated_line_body l g)).
Proof.
  intros (Hopen & Hb & Hf & Ha) Hpart. rewrite line_body_eq.
  unfold line_record, gated_line_body, loops_part_on in *.
  destruct (str_is_empty (trim l)); [done |].
  destruct s as [b f t], g as [rs gb gf ga]. simpl in Hopen, Hb, Hf, Ha. subst rs gb gf ga.
  unfold_m. unfold safeSend, g_set_fullResponse, modify. simpl in *.
  destruct (JSON_parse l) as [[| |?|?|?|?|fields]|]; simpl; try done.
  destruct (js_to_string (field "response" fields)) as [text|] eqn:Ht; [| done].
  unfold apply_record, same_progress, text_of. rewrite Ht.
  destruct (truthy (field "response" fields)) eqn:Hr; simpl; rewrite ?Ht; simpl;
    destruct (truthy (field "done" fields)) eqn:Hd; simpl in *;
    rewrite ?sent_of_app, ?omap_app; simpl; try done;
    destruct (truthy (field "error" fields)) eqn:He; simpl in *; try done;
    destruct (js_to_string (field "error" fields)); simpl in *; done.
Qed.

Lemma line_body_returns (l : string) (s : relay_state) :
  exists c, fst (line_body l s) = Ok c.
Proof. rewrite line_body_eq. destruct (line_record l); by eexists. Qed.

Lemma for_of_gated_same (ls : list string) (s : relay_state) (g : gated_state) :
  same_progress s g -> Forall (fun l => loops_part_on l = false) ls ->
  fst (for_of gated_line_body ls g) = Ok tt /\
  same_progress (snd (for_of line_body ls s)) (snd (for_of gated_line_body ls g)).
Proof.
  intros Hsg Hls. revert s g Hsg.
  induction Hls as [|l ls Hl Hls IH]; intros s g Hsg; [done |].
  simpl. unfold bind.
  destruct (gated_line_body_same l s g Hsg Hl) as [Hfst Hsnd].
  destruct (line_body_returns l s) as [c0 Hc0].
  destruct (gated_line_body l g) as [c g1], (line_body l s) as [c' s1].
  simpl in Hfst, Hsnd, Hc0. subst c c'.
  destruct c0; [by apply IH | done].
Qed.

Lemma read_loop_cons (c : string) (cs : list string) (e : option js_error)
    (s : relay_state) :
  read_loop (c :: cs) e s =
    match on_chunk c s with
    | (Ok _, s') => read_loop cs e s'
    | (Throw err, s') => (Throw err, s')
    end.
Proof. reflexivity. Qed.

Lemma gated_read_loop_cons (rs : ready_state) (c : string)
    (reads : list (ready_state * string)) (e : option js_error) (g : gated_state) :
  gated_read_loop ((rs, c) :: reads) e g =
    if negb (is_open (g_readyState g)) then (Ok tt, g)
    else
      match for_of gated_line_body (snd (pop (split "010" (g_buffer g +:+ c))))
              (GatedState rs (or_empty (fst (pop (split "010" (g_buffer g +:+ c)))))
                 (g_fullResponse g) (g_actions g)) with
      | (Ok _, g') => gated_read_loop reads e g'
      | (Throw err, g') => (Throw err, g')
      end.
Proof.
  simpl. unfold bind at 1, gets.
  destruct (negb (is_open (g_readyState g))); [done |].
  unfold bind at 1 2, g_set_readyState, modify, gets. simpl.
  destruct (pop (split "010" (g_buffer g +:+ c))) as [last_line lines].
  reflexivity.
Qed.

Lemma gated_read_loop_same (cs : list string) (s : relay_state) (g : gated_state)
    (ls : list string) (r : string) :
  same_progress s g -> one_line (buffer s) ->
  buffer s +:+ str_concat cs = joined ls r -> Forall one_line ls -> one_line r ->
  Forall (fun l => loops_part_on l = false) ls ->
  fst (gated_read_loop (while_open cs) None g) = Ok tt /\
  same_progress (snd (read_loop cs None s)) (snd (gated_read_loop (while_open cs) None g)).
Proof.
  revert s g ls. induction cs as [|c cs IH]; intros s g ls Hsg Hb Heq Hls Hr Herr.
  - destruct Hsg as (Hopen & Hsg). simpl. unfold bind, gets. rewrite Hopen. simpl.
    by split.
  - simpl in Heq.
    destruct (joined_exists (buffer s +:+ c)) as (ls1 & r1 & H1 & Hls1 & Hr1).
    destruct (joined_exists (r1 +:+ str_concat cs)) as (ls2 & r2 & H2 & Hls2 & Hr2).
    assert (joined ls r = joined (ls1 ++ ls2) r2) as Hall.
    { rewrite <- Heq, <- app_assoc_str, H1, joined_append, H2. by rewrite joined_app. }
    apply joined_inj in Hall as [-> ->]; [| done | done | by apply Forall_app | done].
    apply Forall_app in Herr as [Herr1 Herr2].
    pose proof Hsg as (Hopen & Hgb & Hgf & Hga).
    rewrite read_loop_cons, (on_chunk_eq c s ls1 r1) by done.
    change (while_open (c :: cs)) with ((OPEN, c) :: while_open cs).
    rewrite gated_read_loop_cons, Hopen, Hgb, H1, pop_split_joined by done. simpl.
    destruct (for_of_gated_same ls1 (with_buffer r1 s)
                (GatedState OPEN r1 (g_fullResponse g) (g_actions g))) as [Hret Hnext];
      [by apply same_progress_with_buffer | done |].
    rewrite for_of_with_buffer in Hnext. simpl in Hnext.
    destruct (for_of gated_line_body ls1 _) as [res g1]. simpl in Hret, Hnext. subst res.
    apply (IH _ g1 ls2); done.
Qed.

(** X14.  On a body without a record that reports an upstream error and
    without a [response] that has no text (an object whose own
    [toString] hides the method), and while the socket stays open, the
    decode loop of the gated variant and the one of stream.js do the
    same, read by read: the gated loop sends the bare fragment wherever
    stream.js sends a [stream] envelope and its fixed notice wherever
    stream.js sends a [complete] envelope, and both collect the same
    transcript. *)
Theorem decode_loops_agree (cs ls : list string) (r : string) :
  str_concat cs = joined ls r -> Forall one_line ls -> one_line r ->
  Forall (fun l => loops_part_on l = false) ls ->
  let g := snd (gated_read_loop (while_open cs) None (GatedState OPEN "" "" [])) in
  let s := snd (read_loop cs None initial_relay_state) in
  g_actions g = omap as_gated (sent_of (trace s)) /\
  g_fullResponse g = fullResponse s /\
  g_buffer g = buffer s.
Proof.
  intros Hcs Hls Hr Herr.
  destruct (gated_read_loop_same cs initial_relay_state (GatedState OPEN "" "" []) ls r)
    as [_ (_ & Hb & Hf & Ha)]; try done.
Qed.

Lemma gated_line_body_closed (l : string) (g : gated_state) :
  is_open (g_readyState g) = false ->
  exists c g', gated_line_body l g = (Ok c, g') /\
               g_readyState g' = g_readyState g /\ g_actions g' = g_actions g.
Proof.
  intros Hclosed. unfold gated_line_body.
  destruct (str_is_empty (trim l)); [by eexists _, _ |].
  destruct g as [rs b f a]. simpl in Hclosed.
  unfold_m. unfold safeSend, g_set_fullResponse, modify.
  destruct (JSON_parse l) as [[| |?|?|?|?|fields]|]; simpl; try (by eexists _, _).
  destruct (truthy (field "response" fields)); simpl; rewrite ?Hclosed; simpl;
    try (destruct (js_to_string (field "response" fields)); simpl;
         [| by eexists _, _]);
    destruct (truthy (field "done" fields)); simpl; rewrite ?Hclosed; simpl;
    try (by eexists _, _);
    destruct (truthy (field "error" fields)); simpl; rewrite ?Hclosed;
    try (by eexists _, _);
    destruct (js_to_string (field "error" fields)); simpl; rewrite ?Hclosed;
    by eexists _, _.
Qed.

Lemma for_of_gated_closed (ls : list string) (g : gated_state) :
  is_open (g_readyState g) = false ->
  exists g', for_of gated_line_body ls g = (Ok tt, g') /\
             g_readyState g' = g_readyState g /\ g_actions g' = g_actions g.
Proof.
  revert g. induction ls as [|l ls IH]; intros g Hclosed; [by eexists |].
  simpl. unfold bind.
  destruct (gated_line_body_closed l g Hclosed) as (c & g1 & -> & Hrs & Ha).
  destruct c; [| by eexists].
  destruct (IH g1) as (g2 & -> & Hrs2 & Ha2); [by rewrite Hrs |].
  exists g2. by rewrite Hrs2, Ha2, Hrs, Ha.
Qed.

Lemma gated_read_loop_closed (reads : list (ready_state * string)) (e : option js_error)
    (g : gated_state) :
  is_open (g_readyState g) = false -> gated_read_loop reads e g = (Ok tt, g).
Proof.
  intros Hclosed. destruct reads as [|[rs c] reads]; simpl; unfold bind, gets;
    by rewrite Hclosed.
Qed.

(** X15.  When a read of the gated variant resolves with the socket no
    longer open, the lines of that read are still decoded but nothing
    is sent, and the loop ends there: no later read is taken, and a
    failure of a later read is never seen. *)
Theorem gated_loop_ends_when_closed (rs : ready_state) (chunk : string)
    (reads : list (ready_state * string)) (e : option js_error) (g : gated_state) :
  is_open rs = false ->
  fst (gated_read_loop ((rs, chunk) :: reads) e g) = Ok tt /\
  g_actions (snd (gated_read_loop ((rs, chunk) :: reads) e g)) = g_actions g /\
  snd (gated_read_loop ((rs, chunk) :: reads) e g) =
    snd (gated_read_loop [(rs, chunk)] None g).
Proof.
  intros Hclosed.
  rewrite !gated_read_loop_cons.
  destruct (is_open (g_readyState g)); [| done]. cbn [negb].
  destruct (for_of_gated_closed (snd (pop (split "010" (g_buffer g +:+ chunk))))
              (GatedState rs (or_empty (fst (pop (split "010" (g_buffer g +:+ chunk)))))
                 (g_fullResponse g) (g_actions g)))
    as (g' & Hfor & Hrs & Ha); [done |].
  rewrite Hfor. rewrite !gated_read_loop_closed by (by rewrite Hrs). done.
Qed.

End TwoLoops.

Lemma decode_loops_agree_witness :
  g_actions (snd (@gated_read_loop example_runtime
    (while_open [str_take 7 (response_line "ab");
                 str_drop 7 (response_line "ab") +:+ newline +:+ done_line +:+ newline])
    None (GatedState OPEN "" "" [])))
  = [Sent (JStr "ab"); Sent (JStr RESPONSE_COMPLETE)].
Proof.
  destruct (@decode_loops_agree example_runtime
              [str_take 7 (response_line "ab");
               str_drop 7 (response_line "ab") +:+ newline +:+ done_line +:+ newline]
              [response_line "ab"; done_line] "") as [-> _].
  - vm_compute. reflexivity.
  - repeat constructor.
  - reflexivity.
  - repeat constructor.
  - vm_compute. reflexivity.
Defined.

Lemma gated_loop_ends_when_closed_witness :
  g_actions (snd (@gated_read_loop example_runtime
    [(OPEN, response_line "a" +:+ newline); (CLOSING, response_line "b" +:+ newline);
     (OPEN, response_line "c" +:+ newline)]
    (Some ECONNREFUSED) (GatedState OPEN "" "" [])))
  = [Sent (JStr "a")] /\
  fst (@gated_read_loop example_runtime
    [(CLOSING, response_line "b" +:+ newline); (OPEN, response_line "c" +:+ newline)]
    (Some ECONNREFUSED) (GatedState OPEN "" "" [Sent (JStr "a")])) = Ok tt.
Proof.
  split; [vm_compute; reflexivity |].
  apply (@gated_loop_ends_when_closed example_runtime CLOSING). reflexivity.
Defined.


(** ** jsforsh.js against the first variant of llm1.js *)

Section PlainAgainstEarly.
Context `{JsRuntime}.
Variable connectionId : string.

Lemma plain_line_body_eq (line : string) (t : list plain_obs) :
  plain_line_body line t =
    (Ok Next, t ++ map PlainSend (option_list (line_text line))).
Proof.
  unfold plain_line_body, line_text, plain_send. unfold_m. unfold modify.
  destruct (JSON_parse line) as [[| |?|?|?|?|fields]|]; simpl; rewrite ?app_nil_r; try done.
  destruct (truthy (field "response" fields)); simpl; by rewrite ?app_nil_r.
Qed.

Lemma for_of_plain (ls : list string) (t : list plain_obs) :
  for_of plain_line_body ls t = (Ok tt, t ++ map PlainSend (omap line_text ls)).
Proof.
  revert t. induction ls as [|l ls IH]; intros t; [by rewrite app_nil_r |].
  simpl. unfold bind. rewrite plain_line_body_eq, IH.
  destruct (line_text l); simpl; by rewrite <- ?app_assoc, ?app_nil_r.
Qed.

Lemma plain_read_loop_eq (cs : list string) (t : list plain_obs) :
  plain_read_loop cs None t = (Ok tt, t ++ map PlainSend (flat_map chunk_texts cs)).
Proof.
  revert t. induction cs as [|c cs IH]; intros t; [by rewrite app_nil_r |].
  simpl. unfold bind, plain_on_chunk. rewrite for_of_plain, IH.
  by rewrite map_app, app_assoc.
Qed.

Lemma plain_sends_app (t1 t2 : list plain_obs) :
  plain_sends (t1 ++ t2) = plain_sends t1 ++ plain_sends t2.
Proof. apply omap_app. Qed.

Lemma plain_sends_map (vs : list jsval) : plain_sends (map PlainSend vs) = vs.
Proof. induction vs as [|v vs IH]; [done |]. simpl. by rewrite IH. Qed.

Lemma socket_sends_map (vs : list jsval) : socket_sends (map SocketSend vs) = vs.
Proof. induction vs as [|v vs IH]; [done |]. simpl. by rewrite IH. Qed.

Lemma early_line_body_open (line : string) (w : world) :
  is_open (readyState w) = true ->
  early_line_body line w =
    (Ok Next, add_log (map SocketSend (option_list (line_text line))) w).
Proof.
  intros Hopen. unfold early_line_body, line_text. unfold_w. rewrite Hopen. simpl.
  destruct (JSON_parse line) as [[| |?|?|?|?|fields]|]; simpl;
    rewrite ?add_log_nil; try done.
  rewrite Hopen, andb_true_r.
  destruct (truthy (field "response" fields)); simpl; by rewrite ?add_log_nil.
Qed.

Lemma for_of_early_open (ls : list string) (w : world) :
  is_open (readyState w) = true ->
  for_of early_line_body ls w = (Ok tt, add_log (map SocketSend (omap line_text ls)) w).
Proof.
  revert w. induction ls as [|l ls IH]; intros w Hopen; [by rewrite add_log_nil |].
  simpl. unfold bind. rewrite early_line_body_open by done.
  rewrite IH by done. rewrite add_log_app.
  by destruct (line_text l).
Qed.

(** A read that resolves with a chunk, on an open socket. *)
Lemma step_read_open (w : world) (k : nat) (chunk : string) :
  flight_phase k (flights w) = Some AwaitRead -> is_open (readyState w) = true ->
  step connectionId w (ReadSettled k (ReadValue chunk)) =
    suspended k AwaitRead (map SocketSend (chunk_texts chunk)) w.
Proof.
  intros Hk Hopen.
  assert (segment_read k (ReadValue chunk) w =
          (Ok (Some AwaitRead), add_log (map SocketSend (chunk_texts chunk)) w)) as Hseg.
  { unfold segment_read, bind. rewrite for_of_early_open by done.
    unfold loop_top. unfold_w. simpl. by rewrite Hopen. }
  unfold step, dispatch, bind, gets. rewrite Hk.
  by rewrite (in_try_log connectionId k _ w _ _ Hseg).
Qed.

Lemma run_reads_open (w : world) (k : nat) (cs : list string) :
  flight_phase k (flights w) = Some AwaitRead -> is_open (readyState w) = true ->
  let w' := run connectionId w (map (fun chunk => ReadSettled k (ReadValue chunk)) cs) in
  log w' = log w ++ map SocketSend (flat_map chunk_texts cs) /\
  flight_phase k (flights w') = Some AwaitRead /\ readyState w' = readyState w.
Proof.
  revert w. induction cs as [|c cs IH]; intros w Hk Hopen.
  - simpl. by rewrite app_nil_r.
  - change (run connectionId w (map (fun chunk => ReadSettled k (ReadValue chunk)) (c :: cs)))
      with (run connectionId (step connectionId w (ReadSettled k (ReadValue c)))
              (map (fun chunk => ReadSettled k (ReadValue chunk)) cs)).
    rewrite step_read_open by done.
    destruct (IH (suspended k AwaitRead (map SocketSend (chunk_texts c)) w))
      as (Hlog & Hflight & Hrs); [apply flight_phase_drop | done |].
    cbv zeta. rewrite Hlog, Hflight, Hrs. simpl. by rewrite map_app, app_assoc.
Qed.

(** X16.  jsforsh.js and the first variant of llm1.js forward the same
    values for every body and every way to cut it into reads, as long
    as the socket stays open: after its greeting each sends, read by
    read and line by line, the [response] of the records that have one,
    and then the closing notice. *)
Theorem plain_relay_agrees (h : gmap nat conn) (reg : gmap string nat) (a : nat)
    (userInput : string) (cs : list string) :
  socket_sends (log (run connectionId (connected connectionId h reg a)
    (OnMessage userInput :: FetchSettled 0 head_ok :: body_events 0 cs)))
  = JStr HI_MESSAGE :: flat_map chunk_texts cs ++ [JStr DONE_MESSAGE] /\
  plain_sends (snd (plain_on_message (streams cs) userInput []))
  = JStr SMART_HI :: flat_map chunk_texts cs ++ [JStr DONE_MESSAGE].
Proof.
  split.
  - set (w0 := connected connectionId h reg a).
    change (run connectionId w0
              (OnMessage userInput :: FetchSettled 0 head_ok :: body_events 0 cs))
      with (run connectionId
              (step connectionId (step connectionId w0 (OnMessage userInput))
                 (FetchSettled 0 head_ok)) (body_events 0 cs)).
    rewrite (step_message_idle connectionId w0 userInput a (Conn false None));
      [| apply lookup_insert_eq | apply lookup_insert_eq | done].
    set (w1 := World _ _ _ _ _ _ _).
    assert (step connectionId w1 (FetchSettled 0 head_ok) = suspended 0 AwaitRead [] w1)
      as ->.
    { assert (segment_fetched 0 head_ok w1 = (Ok (Some AwaitRead), add_log [] w1)) as Hseg.
      { by rewrite add_log_nil. }
      assert (flight_phase 0 (flights w1) = Some AwaitFetch) as Hk by done.
      unfold step, dispatch, bind, gets. rewrite Hk.
      by rewrite (in_try_log connectionId 0 _ w1 _ _ Hseg). }
    unfold body_events, run. rewrite fold_left_app.
    destruct (run_reads_open (suspended 0 AwaitRead [] w1) 0 cs) as (Hlog & Hflight & Hrs);
      [done | done |].
    unfold run in Hlog, Hflight, Hrs.
    set (w2 := fold_left _ _ (suspended 0 AwaitRead [] w1)) in *.
    assert (segment_read 0 ReadDone w2 = (Ok None, add_log [SocketSend (JStr DONE_MESSAGE)] w2))
      as Hseg.
    { unfold segment_read, after_loop. unfold_w. by rewrite Hrs. }
    simpl. unfold step at 1, dispatch, bind, gets. rewrite Hflight.
    rewrite (in_try_log connectionId 0 _ w2 _ _ Hseg). simpl. rewrite Hlog. simpl.
    rewrite !socket_sends_app, socket_sends_map. done.
  - unfold plain_on_message, try_catch, bind, plain_send, modify, plain_fetch, streams.
    simpl. rewrite plain_read_loop_eq. simpl.
    rewrite !plain_sends_app, plain_sends_map. done.
Qed.

End PlainAgainstEarly.


(** * The account server of finalserver.js *)

(** ** [sanitizeInput] and the keys of the account routes *)

Lemma space_not_allowed (c : ascii) : is_js_space c = true -> allowed_char c = false.
Proof. destruct c as [[] [] [] [] [] [] [] []]; by vm_compute. Qed.

Lemma allowed_lower_char (c : ascii) : allowed_char (lower_char c) = allowed_char c.
Proof. destruct c as [[] [] [] [] [] [] [] []]; by vm_compute. Qed.

Lemma keep_allowed_trimStart (s : string) : keep_allowed (trimStart s) = keep_allowed s.
Proof.
  induction s as [|c s IH]; [done |]. simpl.
  destruct (is_js_space c) eqn:Hc; [| done].
  by rewrite (space_not_allowed c Hc).
Qed.

Lemma keep_allowed_trimEnd (s : string) : keep_allowed (trimEnd s) = keep_allowed s.
Proof.
  induction s as [|c s IH]; [done |]. simpl.
  destruct (trimEnd s) as [|d t] eqn:Hend.
  - rewrite <- IH. simpl. destruct (is_js_space c) eqn:Hc; [| done].
    by rewrite (space_not_allowed c Hc).
  - rewrite <- IH. done.
Qed.

Lemma keep_allowed_trim (s : string) : keep_allowed (trim s) = keep_allowed s.
Proof. unfold trim. by rewrite keep_allowed_trimEnd, keep_allowed_trimStart. Qed.

Lemma keep_allowed_toLowerCase (s : string) :
  keep_allowed (toLowerCase s) = toLowerCase (keep_allowed s).
Proof.
  induction s as [|c s IH]; [done |]. simpl. rewrite allowed_lower_char.
  destruct (allowed_char c); simpl; by rewrite IH.
Qed.

Lemma keep_allowed_only (s : string) (c : ascii) :
  has_char c (keep_allowed s) = true -> allowed_char c = true.
Proof.
  induction s as [|d s IH]; [done |]. simpl.
  destruct (allowed_char d) eqn:Hd; [| done]. simpl.
  intros Hc. apply orb_true_iff in Hc as [Hc|Hc]; [| by apply IH].
  apply Ascii.eqb_eq in Hc. by subst d.
Qed.

Lemma keep_allowed_idem (s : string) : keep_allowed (keep_allowed s) = keep_allowed s.
Proof.
  induction s as [|c s IH]; [done |]. simpl.
  destruct (allowed_char c) eqn:Hc; [| done]. simpl. by rewrite Hc, IH.
Qed.

(** X17.  [sanitizeInput] gives a normal form: applying it twice is
    applying it once, and a string it returns has none but the
    characters a-z, A-Z, 0-9, [@], [.], [_] and [-]; so no quote, no
    space, no semicolon and no angle bracket comes through. *)
Theorem sanitizeInput_normal_form (input : jsval) :
  sanitizeInput (sanitizeInput input) = sanitizeInput input /\
  (forall s c, sanitizeInput input = JStr s -> has_char c s = true ->
               allowed_char c = true) /\
  (forall s, sanitizeInput input = JStr s ->
     has_char "'" s = false /\ has_char " " s = false /\ has_char ";" s = false /\
     has_char "<" s = false /\ has_char dquote s = false).
Proof.
  assert (forall s c, sanitizeInput input = JStr s -> has_char c s = true ->
                      allowed_char c = true) as Honly.
  { intros s c Hs Hc. destruct input; try discriminate Hs.
    simpl in Hs. injection Hs as <-. by apply keep_allowed_only in Hc. }
  split; [| split; [done |]].
  - destruct input; try done. simpl. by rewrite keep_allowed_idem.
  - intros s Hs.
    repeat split;
      match goal with
      | |- has_char ?c s = false =>
          destruct (has_char c s) eqn:Hc; [| done];
          by pose proof (Honly s c Hs Hc)
      end.
Qed.

Lemma sanitizeInput_normal_form_witness :
  sanitizeInput (JStr "x' OR '1'='1") = JStr "xOR11" /\
  has_char "'" "xOR11" = false.
Proof.
  split; [reflexivity |].
  destruct (sanitizeInput_normal_form (JStr "x' OR '1'='1")) as (_ & _ & Hnone).
  destruct (Hnone "xOR11" eq_refl) as (Hquote & _). exact Hquote.
Defined.

(** X18.  The routes disagree on how they prepare what the user typed,
    and [sanitizeInput] makes up for the white space but not for the
    case: the name key of [/signup] (trimmed, then sanitized) is the key
    the password-reset routes look up (sanitized only), while the
    e-mail key of [/signup] is the look-up key of the lower-cased
    address. *)
Theorem account_keys (typed : string) :
  signup_name_key typed = lookup_key typed /\
  signup_email_key typed = lookup_key (toLowerCase typed) /\
  signup_email_key "Ada@Example.org" <> lookup_key "Ada@Example.org".
Proof.
  unfold signup_name_key, signup_email_key, lookup_key, sanitizeInput.
  rewrite !keep_allowed_trim. split; [done | split; [done |]].
  vm_compute. discriminate.
Qed.

(** ** [/login]: the streaks *)

(** X19.  The streaks that [/login] writes back: the longest streak is
    never below the new streak nor below the stored longest streak; the
    streak grows by one exactly for a login at least one day and less
    than two days after the stored one, is kept for a login less than a
    day after it, and starts again at 1 otherwise, also when the stored
    login is in the future. *)
Theorem login_streak_window (today : Z) (last_login login_streak longest : option Z) :
  let newStreak := fst (login_streaks today last_login login_streak longest) in
  let longestStreak := snd (login_streaks today last_login login_streak longest) in
  to_number newStreak <= to_number longestStreak /\
  to_number longest <= to_number longestStreak /\
  match last_login with
  | Some lastLogin =>
      (oneDay <= today - lastLogin < 2 * oneDay ->
       newStreak = Some (to_number login_streak + 1)) /\
      (0 <= today - lastLogin < oneDay -> newStreak = login_streak) /\
      (today - lastLogin < 0 \/ 2 * oneDay <= today - lastLogin -> newStreak = Some 1)
  | None => newStreak = Some 1
  end.
Proof.
  unfold login_streaks. cbv zeta. cbn [fst snd].
  set (newStreak := match last_login with Some _ => _ | None => _ end).
  split; [| split].
  - destruct (to_number newStreak >? to_number (Some (to_number longest))) eqn:E;
      simpl in *; lia.
  - destruct (to_number newStreak >? to_number (Some (to_number longest))) eqn:E;
      simpl in *; lia.
  - subst newStreak. destruct last_login as [lastLogin|]; [| done].
    pose proof (Z.div_mod (today - lastLogin) oneDay) as Hdiv.
    pose proof (Z.mod_pos_bound (today - lastLogin) oneDay) as Hmod.
    unfold oneDay in *.
    destruct ((today - lastLogin) / (1000 * 60 * 60 * 24) =? 1) eqn:E1;
      destruct ((today - lastLogin) / (1000 * 60 * 60 * 24) =? 0) eqn:E0;
      repeat split; intros; try done; lia.
Qed.

Lemma login_streak_window_witness :
  fst (login_streaks 1700090000000 (Some 1700000000000) (Some 4) (Some 4)) = Some 5.
Proof.
  destruct (login_streak_window 1700090000000 (Some 1700000000000) (Some 4) (Some 4))
    as (_ & _ & Hgrow & _).
  apply Hgrow. unfold oneDay. lia.
Defined.

(** ** [/api/reminders]: when a reminder is due *)

(** X20.  The reminder of a contest is due half an hour before its
    start, but never before the request: for a contest that starts
    within half an hour, or that has started already, it is due at
    once. *)
Theorem reminder_not_in_the_past (contestStart now : Z) :
  reminderTime contestStart now = Z.max now (contestStart - 1800000) /\
  now <= reminderTime contestStart now /\
  (contestStart <= now -> reminderTime contestStart now = now).
Proof.
  unfold reminderTime.
  destruct (contestStart - now <=? 30 * 60 * 1000) eqn:E; lia.
Qed.

Lemma reminder_not_in_the_past_witness :
  reminderTime 1700000000000 1700003600000 = 1700003600000.
Proof.
  destruct (reminder_not_in_the_past 1700000000000 1700003600000) as (_ & _ & Hnow).
  apply Hnow. lia.
Defined.


(** ** [/verify-otp] and [/reset-password] *)

Section OtpRoutes.
Variables (email username otp : jsval) (user : otp_row) (rest : list otp_row) (now : Z).
Variable written : list otp_write.
Hypothesis present : truthy email && truthy username && truthy otp = true.

Lemma fields_present :
  negb (truthy email) || negb (truthy username) || negb (truthy otp) = false.
Proof.
  apply andb_true_iff in present as [Heu Ho]. apply andb_true_iff in Heu as [He Hu].
  by rewrite He, Hu, Ho.
Qed.

(** X21.  [/verify-otp] on an account that is locked out answers 429
    and writes nothing, whatever the code, the right one too.  On an
    account that is not locked out a wrong code is counted: the route
    writes the stored count plus one, and from the fifth on also a lock
    that ends 24 hours after the request, to the second; it answers 400
    when the UPDATE went through and 500 when it failed. *)
Theorem verify_otp_counts_and_locks (update_fails : bool) :
  (locked_out user now = true ->
   verify_otp update_fails email username otp (inr (user :: rest)) now written =
     (Ok (HttpReply 429 "Too many attempts. Try again in 24 hours."), written)) /\
  (locked_out user now = false -> token_matches user otp = false ->
   exists lockedUntil,
     verify_otp update_fails email username otp (inr (user :: rest)) now written =
       (if update_fails then (Ok (HttpReply 500 "Server error"), written)
        else (Ok (HttpReply 400 "Invalid OTP"),
              written ++ [CountAttempt (to_number (otp_attempts user) + 1) lockedUntil])) /\
     (lockedUntil = None <-> to_number (otp_attempts user) + 1 < 5) /\
     (forall t, lockedUntil = Some t ->
                now + 86400000 - 1000 < t <= now + 86400000)).
Proof.
  unfold verify_otp. rewrite fields_present. unfold_m. unfold query, execute. simpl.
  split.
  - by intros ->.
  - intros -> ->. simpl.
    exists (if to_number (otp_attempts user) + 1 >=? 5
            then Some (to_the_second (now + 24 * 60 * 60 * 1000)) else None).
    split; [by destruct update_fails |].
    destruct (to_number (otp_attempts user) + 1 >=? 5) eqn:E.
    + split; [split; [done | lia] |].
      intros t [= <-]. unfold to_the_second.
      pose proof (Z.div_mod (now + 24 * 60 * 60 * 1000) 1000) as Hdiv.
      pose proof (Z.mod_pos_bound (now + 24 * 60 * 60 * 1000) 1000) as Hmod.
      lia.
    + split; [split; [lia | done] | done].
Qed.

(** X22.  [/reset-password] looks neither at the lock nor at the count
    of wrong codes: with the right code before its expiry it sets the
    new password also on an account that [/verify-otp] reports as locked
    out, and a wrong code is turned away without being counted. *)
Theorem reset_password_ignores_lock (newPassword : string) :
  newPassword <> "" ->
  (token_matches user otp = true -> now <= expires_at user ->
   reset_password false email username otp newPassword (inr (user :: rest)) now written =
     (Ok (HttpReply 200 "Password reset successful"),
      written ++ [ResetPassword newPassword])) /\
  (token_matches user otp = false ->
   forall update_fails,
     reset_password update_fails email username otp newPassword (inr (user :: rest)) now
       written = (Ok (HttpReply 400 "Invalid OTP"), written)).
Proof.
  intros Hpw. unfold reset_password. rewrite fields_present.
  destruct newPassword as [|c pw]; [done |]. simpl.
  unfold_m. unfold query, execute. simpl. split.
  - intros -> Hnow. simpl.
    assert ((now >? expires_at user) = false) as -> by lia. done.
  - by intros ->.
Qed.

End OtpRoutes.

Lemma verify_otp_counts_and_locks_witness :
  verify_otp false (JStr "ada@example.org") (JStr "Ada") (JStr "000000")
    (inr [OtpRow (Some "123456") (Some 1700000600000) (Some 4) None]) 1700000000123 []
  = (Ok (HttpReply 400 "Invalid OTP"), [CountAttempt 5 (Some 1700086400000)]) /\
  verify_otp false (JStr "ada@example.org") (JStr "Ada") (JStr "123456")
    (inr [OtpRow (Some "123456") (Some 1700000600000) (Some 5) (Some 1700086400000)])
    1700000001000 []
  = (Ok (HttpReply 429 "Too many attempts. Try again in 24 hours."), []).
Proof.
  split; [vm_compute; reflexivity |].
  apply (verify_otp_counts_and_locks (JStr "ada@example.org") (JStr "Ada") (JStr "123456")
           (OtpRow (Some "123456") (Some 1700000600000) (Some 5) (Some 1700086400000))
           [] 1700000001000 [] eq_refl false).
  reflexivity.
Defined.

Lemma reset_password_ignores_lock_witness :
  reset_password false (JStr "ada@example.org") (JStr "Ada") (JStr "123456") "hunter2"
    (inr [OtpRow (Some "123456") (Some 1700000600000) (Some 5) (Some 1700086400000)])
    1700000001000 []
  = (Ok (HttpReply 200 "Password reset successful"), [ResetPassword "hunter2"]).
Proof.
  apply (reset_password_ignores_lock (JStr "ada@example.org") (JStr "Ada") (JStr "123456")
           (OtpRow (Some "123456") (Some 1700000600000) (Some 5) (Some 1700086400000))
           [] 1700000001000 [] eq_refl "hunter2").
  - discriminate.
  - reflexivity.
  - vm_compute. discriminate.
Defined.


(** ** [checkAndSendReminders] *)

Lemma map_rem_id_mark_sent (id : nat) (rows : list reminder_row) :
  map rem_id (mark_sent id rows) = map rem_id rows.
Proof.
  unfold mark_sent. induction rows as [|r rows IH]; [done |].
  simpl. rewrite IH. by destruct (Nat.eqb (rem_id r) id).
Qed.

Lemma mark_sent_keeps (id : nat) (rows : list reminder_row) (r : reminder_row) :
  In r rows -> reminder_sent r = true ->
  exists r', In r' (mark_sent id rows) /\ rem_id r' = rem_id r /\ reminder_sent r' = true.
Proof.
  intros Hin Hsent.
  exists (if Nat.eqb (rem_id r) id
          then ReminderRow (rem_id r) (reminder_time r) true (rem_email r) (contest_name r)
          else r).
  split.
  - unfold mark_sent.
    apply (in_map (fun r => if Nat.eqb (rem_id r) id
                            then ReminderRow (rem_id r) (reminder_time r) true (rem_email r)
                                   (contest_name r)
                            else r)) in Hin. exact Hin.
  - by destruct (Nat.eqb (rem_id r) id).
Qed.

Lemma mark_sent_marks (id : nat) (rows : list reminder_row) :
  In id (map rem_id rows) ->
  exists r', In r' (mark_sent id rows) /\ rem_id r' = id /\ reminder_sent r' = true.
Proof.
  intros Hin. apply in_map_iff in Hin as (r & Hid & Hin).
  exists (ReminderRow (rem_id r) (reminder_time r) true (rem_email r) (contest_name r)).
  split; [| done].
  unfold mark_sent. apply in_map_iff. exists r. split; [| done].
  by rewrite Hid, Nat.eqb_refl.
Qed.

Lemma NoDup_map_inj {A B : Type} (f : A -> B) (l : list A) (x y : A) :
  NoDup (map f l) -> In x l -> In y l -> f x = f y -> x = y.
Proof.
  induction l as [|a l IH]; [done |]. simpl.
  intros Hnd Hx Hy Hf. apply NoDup_cons in Hnd as [Hnotin Hnd'].
  destruct Hx as [->|Hx], Hy as [->|Hy]; try done.
  - destruct Hnotin. rewrite Hf. by apply list_elem_of_In, in_map.
  - destruct Hnotin. rewrite <- Hf. by apply list_elem_of_In, in_map.
  - by apply IH.
Qed.

Lemma In_filter {A : Type} (P : A -> Prop) `{!forall x, Decision (P x)} (l : list A) (x : A) :
  In x (filter P l) <-> In x l /\ P x.
Proof. rewrite <- !list_elem_of_In, list_elem_of_filter. tauto. Qed.

Lemma NoDup_map_filter {A B : Type} (f : A -> B) (P : A -> Prop)
    `{!forall x, Decision (P x)} (l : list A) :
  NoDup (map f l) -> NoDup (map f (filter P l)).
Proof.
  induction l as [|a l IH]; [done |]. simpl.
  intros Hnd. apply NoDup_cons in Hnd as [Hnotin Hnd'].
  rewrite filter_cons. destruct (decide (P a)); [| by apply IH].
  simpl. apply NoDup_cons. split; [| by apply IH].
  intros Hin. apply Hnotin.
  apply list_elem_of_In, in_map_iff in Hin as (x & Hfx & Hx).
  apply In_filter in Hx as [Hx _].
  rewrite <- Hfx. by apply list_elem_of_In, in_map.
Qed.

Section JobRuns.
Variable env : job_env.

Lemma reminder_body_eq (r : reminder_row) (w : mail_world) :
  reminder_body env r w =
    (Ok Next,
     if update_fails_on env (rem_id r) then w
     else MailWorld (mark_sent (rem_id r) (reminders w)) (mails w ++ [reminder_mail env r])).
Proof.
  unfold reminder_body, sendEmail. unfold_m. unfold modify.
  by destruct (update_fails_on env (rem_id r)).
Qed.

Lemma for_of_reminders_mails (l : list reminder_row) (w : mail_world) :
  fst (for_of (reminder_body env) l w) = Ok tt /\
  mails (snd (for_of (reminder_body env) l w)) =
    mails w ++ map (reminder_mail env)
                 (filter (fun r => update_fails_on env (rem_id r) = false) l) /\
  map rem_id (reminders (snd (for_of (reminder_body env) l w))) = map rem_id (reminders w).
Proof.
  revert w. induction l as [|r l IH]; intros w.
  - simpl. by rewrite app_nil_r.
  - simpl. unfold bind. rewrite reminder_body_eq, filter_cons.
    destruct (update_fails_on env (rem_id r)) eqn:Hu.
    + destruct (decide (true = false)); [done |]. apply IH.
    + destruct (decide (false = false)); [| done].
      destruct (IH (MailWorld (mark_sent (rem_id r) (reminders w))
                      (mails w ++ [reminder_mail env r]))) as (Hret & Hmails & Hrows).
      rewrite Hret, Hmails, Hrows. simpl.
      by rewrite <- app_assoc, map_rem_id_mark_sent.
Qed.

(** X23.  What one run of the reminder job does: it never rejects; when
    the SELECT fails it does nothing; else it calls the mail API once
    for every due row whose UPDATE went through, in the order of the
    rows, whether or not the UPDATE of another row failed, and for no
    other row. *)
Theorem job_mails_the_marked_rows (w : mail_world) :
  fst (checkAndSendReminders env w) = Ok tt /\
  (select_fails env = true -> snd (checkAndSendReminders env w) = w) /\
  (select_fails env = false ->
   mails (snd (checkAndSendReminders env w)) =
     mails w ++ map (reminder_mail env) (marked_in env w)).
Proof.
  unfold checkAndSendReminders, try_catch, bind, marked_in.
  destruct (select_fails env); simpl.
  - done.
  - destruct (for_of_reminders_mails
                (filter (fun r => is_due (db_now env) r = true) (reminders w)) w)
      as (Hret & Hmails & _).
    destruct (for_of _ _ w) as [res w1]. simpl in *. subst res. done.
Qed.

Lemma reminder_body_keeps (r : reminder_row) (w : mail_world) :
  mailed_once w ->
  ~ In (rem_id r) (map mail_reminder (mails w)) ->
  In (rem_id r) (map rem_id (reminders w)) ->
  mailed_once (snd (reminder_body env r w)).
Proof.
  intros (Hrows & Hmails & Hsent) Hnew Hrow. rewrite reminder_body_eq. simpl.
  destruct (update_fails_on env (rem_id r)); [done |].
  split; [| split]; simpl.
  - by rewrite map_rem_id_mark_sent.
  - rewrite map_app. simpl. apply NoDup_app. split; [done |]. split.
    + intros id Hid Hin. apply list_elem_of_In in Hid, Hin.
      destruct Hin as [<-|[]]. done.
    + apply NoDup_singleton.
  - intros m Hm. apply in_app_or in Hm as [Hm|[<-|[]]].
    + destruct (Hsent m Hm) as (r0 & Hr0 & Hid & Hs).
      destruct (mark_sent_keeps (rem_id r) _ r0 Hr0 Hs) as (r1 & Hr1 & Hid1 & Hs1).
      exists r1. split; [done |]. split; [congruence | done].
    + by apply mark_sent_marks.
Qed.

Lemma for_of_reminders_keeps (l : list reminder_row) (w : mail_world) :
  mailed_once w -> NoDup (map rem_id l) ->
  (forall r, In r l -> ~ In (rem_id r) (map mail_reminder (mails w)) /\
                       In (rem_id r) (map rem_id (reminders w))) ->
  mailed_once (snd (for_of (reminder_body env) l w)).
Proof.
  revert w. induction l as [|r l IH]; intros w Hw Hnd Hl; [done |].
  simpl. unfold bind.
  destruct (Hl r) as [Hnew Hrow]; [by left |].
  pose proof (reminder_body_keeps r w Hw Hnew Hrow) as Hnext.
  rewrite reminder_body_eq in *. simpl in Hnext.
  apply NoDup_cons in Hnd as [Hnotin Hnd'].
  apply IH; [done | done |].
  intros r' Hr'. destruct (Hl r') as [Hnew' Hrow']; [by right |].
  destruct (update_fails_on env (rem_id r)); [done |]. simpl.
  rewrite map_rem_id_mark_sent, map_app. split; [| done].
  intros Hin. apply in_app_or in Hin as [Hin|[Hin|[]]]; [done |].
  simpl in Hin. apply Hnotin. rewrite Hin. by apply list_elem_of_In, in_map.
Qed.

Lemma job_keeps (w : mail_world) :
  mailed_once w -> mailed_once (snd (checkAndSendReminders env w)) /\
  map rem_id (reminders (snd (checkAndSendReminders env w))) = map rem_id (reminders w).
Proof.
  intros Hw. pose proof Hw as (Hrows & Hmails & Hsent).
  unfold checkAndSendReminders, try_catch, bind.
  destruct (select_fails env); simpl; [done |].
  set (due := filter (fun r => is_due (db_now env) r = true) (reminders w)).
  destruct (for_of_reminders_mails due w) as (Hret & _ & Hids).
  pose proof (for_of_reminders_keeps due w Hw) as Hkeeps.
  destruct (for_of (reminder_body env) due w) as [res w1]. simpl in *. subst res.
  split; [| done]. apply Hkeeps.
  - by apply NoDup_map_filter.
  - intros r Hr. apply In_filter in Hr as [Hr Hdue]. split; [| by apply in_map].
    intros Hin. apply in_map_iff in Hin as (m & Hid & Hm).
    destruct (Hsent m Hm) as (r0 & Hr0 & Hid0 & Hs).
    assert (r0 = r) as ->.
    { apply (NoDup_map_inj rem_id (reminders w)); [done | done | done | congruence]. }
    unfold is_due in Hdue. by rewrite Hs in Hdue.
Qed.

End JobRuns.

Lemma run_jobs_keeps (envs : list job_env) (w : mail_world) :
  mailed_once w ->
  mailed_once (run_jobs envs w) /\
  map rem_id (reminders (run_jobs envs w)) = map rem_id (reminders w).
Proof.
  revert w. induction envs as [|env envs IH]; intros w Hw; [done |].
  destruct (job_keeps env w Hw) as [Hnext Hids].
  destruct (IH _ Hnext) as [Hall Hids'].
  change (run_jobs (env :: envs) w)
    with (run_jobs envs (snd (checkAndSendReminders env w))).
  split; [done |]. by rewrite Hids', Hids.
Qed.

(** X24.  Over any number of runs of the reminder job, one after the
    other, whatever fails in them: no reminder is mailed for twice, and
    every reminder that was mailed for is marked as sent, whether or
    not the mail went out, so that a mail that failed is not tried
    again; the job adds and removes no row. *)
Theorem reminders_mailed_at_most_once (rows : list reminder_row) (envs : list job_env) :
  NoDup (map rem_id rows) ->
  mailed_once (run_jobs envs (MailWorld rows [])) /\
  map rem_id (reminders (run_jobs envs (MailWorld rows []))) = map rem_id rows.
Proof.
  intros Hrows. apply (run_jobs_keeps envs (MailWorld rows [])).
  split; [done |]. split; [apply NoDup_nil_2 | by intros m []].
Qed.


Lemma job_mails_the_marked_rows_witness :
  let env := JobEnv 1700000000000 false (fun id => Nat.eqb id 2) (fun id => Nat.eqb id 3) in
  let rows := [ReminderRow 1 1699999000000 false "ada@example.org" "Round 1";
               ReminderRow 2 1699999000000 false "bob@example.org" "Round 1";
               ReminderRow 3 1699999500000 false "cy@example.org" "Round 2";
               ReminderRow 4 1700000500000 false "di@example.org" "Round 3"] in
  mails (snd (checkAndSendReminders env (MailWorld rows []))) =
    [Mail 1 "ada@example.org" "Reminder: Round 1 starts soon!" true;
     Mail 3 "cy@example.org" "Reminder: Round 2 starts soon!" false].
Proof.
  intros env rows.
  destruct (job_mails_the_marked_rows env (MailWorld rows [])) as (_ & _ & Hmails).
  rewrite Hmails; [| reflexivity]. vm_compute. reflexivity.
Defined.

Lemma reminders_mailed_at_most_once_witness :
  let env := JobEnv 1700000000000 false (fun id => Nat.eqb id 2) (fun id => Nat.eqb id 1) in
  let rows := [ReminderRow 1 1699999000000 false "ada@example.org" "Round 1";
               ReminderRow 2 1699999000000 false "bob@example.org" "Round 1"] in
  NoDup (map mail_reminder (mails (run_jobs [env; env; env] (MailWorld rows [])))).
Proof.
  intros env rows.
  destruct (reminders_mailed_at_most_once rows [env; env; env]) as [(_ & Honce & _) _].
  - apply (bool_decide_unpack _). vm_compute. reflexivity.
  - exact Honce.
Defined.
